(** * The Watcher (computation node) and the deep-traversal forcer of Vue 2

    A shallow embedding of [src/core/observer/watcher.js] and
    [src/core/observer/traverse.js], and the properties the specification
    states about them.

    - [Js]       : JavaScript values, strict equality, the object heap.
    - [Traverse] : [traverse] / [_traverse], as a fuelled function over the
                   heap that returns the visited set and the accesses made.
    - [Watch]    : the [Watcher] class, in a state-and-exception monad over
                   the watcher object, its four containers, the target stack
                   and the log of calls to collaborators. *)

From Stdlib Require Import Floats.SpecFloat.
From stdpp Require Import gmap strings list fin_maps sets.

Set Default Proof Using "Type".

(* ===================================================================== *)
(** ** JavaScript values *)
(* ===================================================================== *)

Module Js.

(** Object identity: an address in the heap. *)
Abbreviation loc := nat (only parsing).

(** A JavaScript value as far as [!==], [isObject], [Array.isArray] and
    property reads can tell values apart.  Numbers are IEEE 754 doubles in
    the Standard Library's [spec_float]; objects, arrays and functions are
    references. *)
Inductive JsVal :=
  | VUndefined
  | VNull
  | VBool (b : bool)
  | VNum (x : spec_float)
  | VStr (s : string)
  | VFun (f : loc)
  | VRef (l : loc).

#[export] Instance spec_float_eq_dec : EqDecision spec_float.
Proof. solve_decision. Defined.

#[export] Instance JsVal_eq_dec : EqDecision JsVal.
Proof. solve_decision. Defined.

Definition NaN : JsVal := VNum S754_nan.

(** [a === b].  On numbers this is IEEE equality: [NaN] equals nothing,
    itself included, and the two zeros are equal. *)
Definition strict_equals (a b : JsVal) : bool :=
  match a, b with
  | VUndefined, VUndefined => true
  | VNull, VNull => true
  | VBool x, VBool y => Bool.eqb x y
  | VNum x, VNum y => SFeqb x y
  | VStr s, VStr t => String.eqb s t
  | VFun f, VFun g => Nat.eqb f g
  | VRef l, VRef m => Nat.eqb l m
  | _, _ => false
  end.

(** [a !== b]. *)
Definition strict_not_equals (a b : JsVal) : bool := negb (strict_equals a b).

(** Modelled from the spec: [isObject] of [util/index], which is imported
    by both source files and not part of them.  The spec calls its true case
    "a composite (object/array) value"; [typeof] of a function is not
    ['object'], and [null] is excluded. *)
Definition isObject (v : JsVal) : bool :=
  match v with
  | VRef _ => true
  | _ => false
  end.

(** A primitive value: neither an object, an array nor a function. *)
Definition is_primitive (v : JsVal) : bool :=
  match v with
  | VRef _ | VFun _ => false
  | _ => true
  end.

(** The own enumerable part of an object: the elements of an array, or the
    string-keyed properties of a plain object as an association list, in
    which the first binding of a key is the property. *)
Inductive Body :=
  | Arr (elems : list JsVal)
  | Obj (props : list (string * JsVal)).

(** What [_traverse] asks of an object besides its children:
    [Object.isFrozen], [instanceof VNode], and the dep id of the observation
    record [__ob__] when one is attached. *)
Record JsObject := {
  body : Body;
  isFrozen : bool;
  isVNode : bool;
  __ob__ : option nat
}.

Abbreviation Heap := (gmap nat JsObject).

(** [array[i]]; a hole or an index out of range reads [undefined]. *)
Definition index (elems : list JsVal) (i : nat) : JsVal :=
  default VUndefined (elems !! i).

(** [Object.keys(obj)]: the own keys, each once. *)
Definition keys (props : list (string * JsVal)) : list string :=
  remove_dups props.*1.

(** [obj[k]]: the first binding of [k]; [undefined] when there is none. *)
Fixpoint prop (props : list (string * JsVal)) (k : string) : JsVal :=
  match props with
  | [] => VUndefined
  | (k', v) :: rest => if String.eqb k' k then v else prop rest k
  end.

(** The values an object holds: what reading every element, or every own
    key, yields. *)
Definition children (o : JsObject) : list JsVal :=
  match body o with
  | Arr elems => elems
  | Obj props => prop props <$> keys props
  end.

End Js.

Import Js.

(* ===================================================================== *)
(** ** traverse.js *)
(* ===================================================================== *)

Module Traverse.

(** What a traversal does that the rest of the system can see: it adds a
    dep id to the visited set, and it reads an element or a property (the
    read is what runs an instrumented getter). *)
Inductive Key :=
  | Idx (i : nat)
  | Name (k : string).

Inductive Access :=
  | SeenAdd (depId : nat)
  | Read (l : loc) (k : Key).

#[global] Instance Key_eq_dec : EqDecision Key.
Proof. solve_decision. Defined.

#[global] Instance Access_eq_dec : EqDecision Access.
Proof. solve_decision. Defined.

(** The state a traversal threads: the [seen] set and the accesses so far. *)
Abbreviation Acc := (gset nat * list Access)%type.

(** [while (i--) body(i)], for a body that may run out of fuel. *)
Fixpoint while_dec (i : nat) (body : nat → Acc → option Acc) (a : Acc)
  : option Acc :=
  match i with
  | 0 => Some a
  | S j => a' ← body j a; while_dec j body a'
  end.

(** The object behind a reference.  Every reference a program holds is to
    a live object; an address outside the heap reads as the empty plain
    object, which has nothing to traverse. *)
Definition deref (h : Heap) (l : loc) : JsObject :=
  default {| body := Obj []; isFrozen := false; isVNode := false; __ob__ := None |}
          (h !! l).

(** [Array.isArray(val)] *)
Definition isArray (h : Heap) (val : JsVal) : bool :=
  match val with
  | VRef l => match body (deref h l) with Arr _ => true | Obj _ => false end
  | _ => false
  end.

(** [Object.isFrozen(val)]; a primitive counts as frozen. *)
Definition Object_isFrozen (h : Heap) (val : JsVal) : bool :=
  match val with
  | VRef l => isFrozen (deref h l)
  | VFun _ => false
  | _ => true
  end.

(** [val instanceof VNode] *)
Definition instanceof_VNode (h : Heap) (val : JsVal) : bool :=
  match val with
  | VRef l => isVNode (deref h l)
  | _ => false
  end.

(** The test of line 22, under which [_traverse] returns at once. *)
Definition is_leaf (h : Heap) (val : JsVal) : bool :=
  (negb (isArray h val) && negb (isObject val))
  || Object_isFrozen h val
  || instanceof_VNode h val.

(** The two loops of lines 32-39 over the object at [l]: every element of
    an array, or the value of every own key, is read and passed to [rec],
    from the last to the first. *)
Definition descend (rec : JsVal → Acc → option Acc) (l : loc) (o : JsObject)
  : Acc → option Acc :=
  match body o with
  | Arr elems =>
    while_dec (length elems)
      (fun i a => rec (index elems i) (a.1, a.2 ++ [Read l (Idx i)]))
  | Obj props =>
    let ks := keys props in
    while_dec (length ks)
      (fun i a =>
         match ks !! i with
         | Some k => rec (prop props k) (a.1, a.2 ++ [Read l (Name k)])
         | None => Some a
         end)
  end.

(** [_traverse(val, seen)].  [fuel] bounds the depth of the recursion: the
    source recurses without a bound, and [None] stands for a run that needs
    more depth than [fuel]. *)
Fixpoint _traverse (fuel : nat) (h : Heap) (val : JsVal) (a : Acc)
  : option Acc :=
  match fuel with
  | 0 => None
  | S fuel' =>
    if is_leaf h val then Some a
    else
      match val with
      | VRef l =>
        let o := deref h l in
        match __ob__ o with
        | Some depId =>
          if bool_decide (depId ∈ a.1) then Some a
          else descend (_traverse fuel' h) l o
                 ({[depId]} ∪ a.1, a.2 ++ [SeenAdd depId])
        | None => descend (_traverse fuel' h) l o a
        end
      | _ => Some a
      end
  end.

(** The module-level [seenObjects] is the only state [traverse] keeps
    between calls. [traverse(val)] runs [_traverse(val, seenObjects)] and
    then [seenObjects.clear()]; it returns the new [seenObjects] and the
    accesses made. *)
Definition traverse (fuel : nat) (h : Heap) (val : JsVal) (seenObjects : gset nat)
  : option (gset nat * list Access) :=
  '(_, tr) ← _traverse fuel h val (seenObjects, []);
  Some (∅, tr).

(** **** A traversal that is cut off

    The callers of [traverse] go on after a call that did not return: the
    engine cuts a recursion that is too deep with a RangeError, which
    nothing in [traverse.js] catches.  For them the same code once more,
    keeping what the run did up to that point. *)

(** [while (i--) body(i)], for a body that says whether it returned: the
    loop ends where the body is cut off. *)
Fixpoint while_dec_upto (i : nat) (body : nat → Acc → Acc * bool) (a : Acc)
  : Acc * bool :=
  match i with
  | 0 => (a, true)
  | S j => let r := body j a in
           if r.2 then while_dec_upto j body r.1 else r
  end.

(** The loops of lines 32-39. *)
Definition descend_upto (rec : JsVal → Acc → Acc * bool) (l : loc) (o : JsObject)
  : Acc → Acc * bool :=
  match body o with
  | Arr elems =>
    while_dec_upto (length elems)
      (fun i a => rec (index elems i) (a.1, a.2 ++ [Read l (Idx i)]))
  | Obj props =>
    let ks := keys props in
    while_dec_upto (length ks)
      (fun i a =>
         match ks !! i with
         | Some k => rec (prop props k) (a.1, a.2 ++ [Read l (Name k)])
         | None => (a, true)
         end)
  end.

(** [_traverse(val, seen)] with [fuel] nested calls available: the state
    reached, and whether the call returned ([true]) or was cut off. *)
Fixpoint _traverse_upto (fuel : nat) (h : Heap) (val : JsVal) (a : Acc)
  : Acc * bool :=
  match fuel with
  | 0 => (a, false)
  | S fuel' =>
    if is_leaf h val then (a, true)
    else
      match val with
      | VRef l =>
        let o := deref h l in
        match __ob__ o with
        | Some depId =>
          if bool_decide (depId ∈ a.1) then (a, true)
          else descend_upto (_traverse_upto fuel' h) l o
                 ({[depId]} ∪ a.1, a.2 ++ [SeenAdd depId])
        | None => descend_upto (_traverse_upto fuel' h) l o a
        end
      | _ => (a, true)
      end
  end.

(** [traverse(val)]: line 16 empties [seenObjects] only when line 15 has
    returned; a run that is cut off leaves in it what it had added. *)
Definition traverse_upto (fuel : nat) (h : Heap) (val : JsVal) (seenObjects : gset nat)
  : (gset nat * list Access) * bool :=
  let r := _traverse_upto fuel h val (seenObjects, []) in
  if r.2 then ((∅, r.1.2), true) else (r.1, false).

(** *** What the properties speak of *)

(** The dep ids a traversal added to the visited set, in order. *)
Definition seen_adds (tr : list Access) : list nat :=
  omap (fun e => match e with SeenAdd d => Some d | Read _ _ => None end) tr.

(** How many times [x] occurs in a list. *)
Definition count_of {A} `{EqDecision A} (x : A) (l : list A) : nat :=
  length (filter (eq x) l).

(** The keys under which the children of an object are read. *)
Definition own_keys (o : JsObject) : list Key :=
  match body o with
  | Arr elems => Idx <$> seq 0 (length elems)
  | Obj props => Name <$> keys props
  end.

(** Within a stretch of the log, every child of an object with an
    observation record is read no more often than the record's dep id was
    added to the visited set. *)
Definition balanced (h : Heap) (delta : list Access) : Prop :=
  ∀ l d k, __ob__ (deref h l) = Some d →
           count_of (Read l k) delta ≤ count_of (SeenAdd d) delta.

(** The [i]-th child of an object in the order of its elements or keys:
    the key it is read under and the value read. *)
Definition child_at (o : JsObject) (i : nat) : option (Key * JsVal) :=
  match body o with
  | Arr elems => (fun v => (Idx i, v)) <$> elems !! i
  | Obj props => (fun k => (Name k, prop props k)) <$> keys props !! i
  end.

(** The object is not frozen and not a VNode: a reference to it passes the
    test of line 22. *)
Definition open_object (o : JsObject) : bool :=
  negb (isFrozen o) && negb (isVNode o).

(** Every cycle of references passes through an object that carries an
    observation record (or through one that is never entered): along the
    references held by the other objects some rank goes down. *)
Definition acyclic_outside_observed (h : Heap) : Prop :=
  ∃ rank : loc → nat,
    ∀ l o l', h !! l = Some o → open_object o = true → __ob__ o = None →
              VRef l' ∈ children o → rank l' < rank l.

(** What a traversal does to its state: the log is extended, the visited
    set gains exactly the ids added, each of them once, and none of them
    was in the set before. *)
Definition grows (a a' : Acc) : Prop :=
  ∃ delta,
    a'.2 = a.2 ++ delta ∧
    a'.1 = a.1 ∪ list_to_set (seen_adds delta) ∧
    NoDup (seen_adds delta) ∧
    (∀ d, d ∈ seen_adds delta → d ∉ a.1).

(** The dep ids of the observation records in the heap. *)
Definition observed_ids (h : Heap) : gset nat :=
  list_to_set (omap (fun lo => __ob__ lo.2) (map_to_list h)).

(** A depth that suffices for a traversal of [val] with visited set [seen]:
    between two observed objects a path goes down in rank, and each observed
    object on a path is entered with a dep id not seen before. *)
Definition rank_bound (rank : loc → nat) (h : Heap) : nat :=
  S (S (max_list (rank <$> (map_to_list h).*1))).

Definition depth_of (rank : loc → nat) (h : Heap) (val : JsVal) : nat :=
  match val with
  | VRef l => match h !! l with Some _ => S (rank l) | None => 0 end
  | _ => 0
  end.

Definition unseen (h : Heap) (seen : gset nat) : nat :=
  size (observed_ids h ∖ seen).

Definition enough_fuel (rank : loc → nat) (h : Heap) (val : JsVal) (seen : gset nat)
  : nat :=
  S (unseen h seen * rank_bound rank h + depth_of rank h val).

(** An access a traversal that starts with the visited set [seen] may
    make: a read of an own key of an object that passes the test of line
    22 and whose dep id, if it has one, is not in [seen]; the addition of
    the dep id of such an object. *)
Definition permitted (h : Heap) (seen : gset nat) (e : Access) : Prop :=
  match e with
  | Read l k =>
    open_object (deref h l) = true ∧ k ∈ own_keys (deref h l) ∧
    ∀ d, __ob__ (deref h l) = Some d → d ∉ seen
  | SeenAdd d =>
    (d ∉ seen) ∧ ∃ l, open_object (deref h l) = true ∧ __ob__ (deref h l) = Some d
  end.

(** A set of objects without observation records, none frozen and none a
    VNode, each of which holds a reference to one of them: from each, some
    cycle of such objects can be reached. *)
Definition unobserved_loop (h : Heap) (C : loc → Prop) : Prop :=
  ∀ l, C l →
       open_object (deref h l) = true ∧ __ob__ (deref h l) = None ∧
       ∃ l', C l' ∧ VRef l' ∈ children (deref h l).

(** Every object of the heap that can be entered carries an observation
    record, and no two objects carry the same dep id. *)
Definition observed_everywhere (h : Heap) : Prop :=
  ∀ l o, h !! l = Some o → open_object o = true → is_Some (__ob__ o).

Definition distinct_ids (h : Heap) : Prop :=
  ∀ l1 l2 o1 o2 d, h !! l1 = Some o1 → h !! l2 = Some o2 →
                   __ob__ o1 = Some d → __ob__ o2 = Some d → l1 = l2.

(** The objects a value leads to: the object it refers to, and those
    referred to by the children of such objects, as long as they are in
    the heap, not frozen and not VNodes. *)
Inductive reach (h : Heap) (val : JsVal) : loc → Prop :=
  | reach_root l o :
      val = VRef l → h !! l = Some o → open_object o = true → reach h val l
  | reach_child l l' o' :
      reach h val l → VRef l' ∈ children (deref h l) →
      h !! l' = Some o' → open_object o' = true → reach h val l'.

(** In state [a] the object at [l] is dealt with: its own keys have been
    read, and the objects its children refer to have their dep ids in
    the visited set. *)
Definition explored (h : Heap) (a : Acc) (l : loc) : Prop :=
  (∀ k, k ∈ own_keys (deref h l) → Read l k ∈ a.2) ∧
  (∀ l' o' d', VRef l' ∈ children (deref h l) → h !! l' = Some o' →
               open_object o' = true → __ob__ o' = Some d' → d' ∈ a.1).

(** Every object whose dep id is in the visited set is dealt with, except
    those whose id is in [G]: the ones the calls under way are at. *)
Definition closed_except (h : Heap) (G : gset nat) (a : Acc) : Prop :=
  ∀ l o d, h !! l = Some o → open_object o = true → __ob__ o = Some d →
           d ∈ a.1 → d ∉ G → explored h a l.

End Traverse.

(* ===================================================================== *)
(** ** watcher.js *)
(* ===================================================================== *)

(** A Publisher as the watcher sees one: the object's identity and its
    [id].  Two references to one Dep object are equal; nothing forces two
    distinct objects to have distinct ids. *)
Module Dep.

Record t := mk { ref : nat; id : nat }.

#[global] Instance eq_dec : EqDecision t.
Proof. solve_decision. Defined.

End Dep.

Module Watch.

(** *** Outcomes and the calls made to collaborators *)

(** A call either returns or throws a JavaScript value. *)
Inductive Result (A : Type) :=
  | Ok (a : A)
  | Exn (e : JsVal).
Arguments Ok {A} a.
Arguments Exn {A} e.

(** The calls the watcher makes on its collaborators, in the order made. *)
Inductive Call :=
  | getter_call                                (* this.getter.call(vm, vm) *)
  | addSub (dep : Dep.t)                       (* dep.addSub(this) *)
  | removeSub (dep : Dep.t)                    (* dep.removeSub(this) *)
  | dep_depend (dep : Dep.t)                   (* dep.depend() *)
  | traverse (val : JsVal)                     (* traverse(value) *)
  | handleError (e : JsVal) (info : string)    (* handleError(e, vm, info) *)
  | queueWatcher                               (* queueWatcher(this) *)
  | cb_call (val oldVal : JsVal)               (* this.cb.call(vm, value, oldValue) *)
  | parsePath_call (path : string)             (* parsePath(expOrFn) *)
  | warn (msg : string).                       (* warn(msg, vm) *)

#[export] Instance Call_eq_dec : EqDecision Call.
Proof. solve_decision. Defined.

(** The fields of a Watcher.  [deps], [newDeps], [depIds] and [newDepIds]
    hold references to two Array and two Set objects of the store. *)
Record Watcher := {
  id : nat;
  deep : bool;
  user : bool;
  lazy : bool;
  sync : bool;
  dirty : bool;
  active : bool;
  deps : nat;
  newDeps : nat;
  depIds : nat;
  newDepIds : nat;
  value : JsVal;
  expression : string
}.

(** The part of the program state the watcher's methods read and write:
    the watcher object [this], the Set and Array objects of the store,
    [vm._watcher], [vm._watchers] and [vm._isBeingDestroyed], the stack
    behind [Dep.target], the [seenObjects] of [traverse.js], the [uid]
    counter and the calls made so far. *)
Record State := {
  this : Watcher;
  sets : gmap nat (gset nat);
  arrays : gmap nat (list Dep.t);
  _watcher : option nat;
  _watchers : list nat;
  _isBeingDestroyed : bool;
  targetStack : list nat;
  seenObjects : gset nat;
  uid : nat;
  calls : list Call
}.

Definition with_this (f : Watcher → Watcher) (s : State) : State :=
  {| this := f (this s); sets := sets s; arrays := arrays s;
     _watcher := _watcher s; _watchers := _watchers s;
     _isBeingDestroyed := _isBeingDestroyed s;
     targetStack := targetStack s;
     seenObjects := seenObjects s; uid := uid s; calls := calls s |}.

Definition with_sets (f : gmap nat (gset nat) → gmap nat (gset nat)) (s : State) : State :=
  {| this := this s; sets := f (sets s); arrays := arrays s;
     _watcher := _watcher s; _watchers := _watchers s;
     _isBeingDestroyed := _isBeingDestroyed s;
     targetStack := targetStack s;
     seenObjects := seenObjects s; uid := uid s; calls := calls s |}.

Definition with_arrays (f : gmap nat (list Dep.t) → gmap nat (list Dep.t)) (s : State) : State :=
  {| this := this s; sets := sets s; arrays := f (arrays s);
     _watcher := _watcher s; _watchers := _watchers s;
     _isBeingDestroyed := _isBeingDestroyed s;
     targetStack := targetStack s;
     seenObjects := seenObjects s; uid := uid s; calls := calls s |}.

Definition with_vm (w : option nat) (ws : list nat) (s : State) : State :=
  {| this := this s; sets := sets s; arrays := arrays s;
     _watcher := w; _watchers := ws;
     _isBeingDestroyed := _isBeingDestroyed s;
     targetStack := targetStack s;
     seenObjects := seenObjects s; uid := uid s; calls := calls s |}.

Definition with_targetStack (f : list nat → list nat) (s : State) : State :=
  {| this := this s; sets := sets s; arrays := arrays s;
     _watcher := _watcher s; _watchers := _watchers s;
     _isBeingDestroyed := _isBeingDestroyed s;
     targetStack := f (targetStack s);
     seenObjects := seenObjects s; uid := uid s; calls := calls s |}.

Definition with_seenObjects (seen : gset nat) (s : State) : State :=
  {| this := this s; sets := sets s; arrays := arrays s;
     _watcher := _watcher s; _watchers := _watchers s;
     _isBeingDestroyed := _isBeingDestroyed s;
     targetStack := targetStack s;
     seenObjects := seen; uid := uid s; calls := calls s |}.

Definition with_uid (n : nat) (s : State) : State :=
  {| this := this s; sets := sets s; arrays := arrays s;
     _watcher := _watcher s; _watchers := _watchers s;
     _isBeingDestroyed := _isBeingDestroyed s;
     targetStack := targetStack s;
     seenObjects := seenObjects s; uid := n; calls := calls s |}.

Definition with_calls (f : list Call → list Call) (s : State) : State :=
  {| this := this s; sets := sets s; arrays := arrays s;
     _watcher := _watcher s; _watchers := _watchers s;
     _isBeingDestroyed := _isBeingDestroyed s;
     targetStack := targetStack s;
     seenObjects := seenObjects s; uid := uid s; calls := f (calls s) |}.

(** Assignments to single fields of [this]. *)
Definition set_value (v : JsVal) (w : Watcher) : Watcher :=
  {| id := id w; deep := deep w; user := user w; lazy := lazy w; sync := sync w;
     dirty := dirty w; active := active w; deps := deps w; newDeps := newDeps w;
     depIds := depIds w; newDepIds := newDepIds w; value := v;
     expression := expression w |}.

Definition set_dirty (b : bool) (w : Watcher) : Watcher :=
  {| id := id w; deep := deep w; user := user w; lazy := lazy w; sync := sync w;
     dirty := b; active := active w; deps := deps w; newDeps := newDeps w;
     depIds := depIds w; newDepIds := newDepIds w; value := value w;
     expression := expression w |}.

Definition set_active (b : bool) (w : Watcher) : Watcher :=
  {| id := id w; deep := deep w; user := user w; lazy := lazy w; sync := sync w;
     dirty := dirty w; active := b; deps := deps w; newDeps := newDeps w;
     depIds := depIds w; newDepIds := newDepIds w; value := value w;
     expression := expression w |}.

Definition set_depIds (a : nat) (w : Watcher) : Watcher :=
  {| id := id w; deep := deep w; user := user w; lazy := lazy w; sync := sync w;
     dirty := dirty w; active := active w; deps := deps w; newDeps := newDeps w;
     depIds := a; newDepIds := newDepIds w; value := value w;
     expression := expression w |}.

Definition set_newDepIds (a : nat) (w : Watcher) : Watcher :=
  {| id := id w; deep := deep w; user := user w; lazy := lazy w; sync := sync w;
     dirty := dirty w; active := active w; deps := deps w; newDeps := newDeps w;
     depIds := depIds w; newDepIds := a; value := value w;
     expression := expression w |}.

Definition set_deps (a : nat) (w : Watcher) : Watcher :=
  {| id := id w; deep := deep w; user := user w; lazy := lazy w; sync := sync w;
     dirty := dirty w; active := active w; deps := a; newDeps := newDeps w;
     depIds := depIds w; newDepIds := newDepIds w; value := value w;
     expression := expression w |}.

Definition set_newDeps (a : nat) (w : Watcher) : Watcher :=
  {| id := id w; deep := deep w; user := user w; lazy := lazy w; sync := sync w;
     dirty := dirty w; active := active w; deps := deps w; newDeps := a;
     depIds := depIds w; newDepIds := newDepIds w; value := value w;
     expression := expression w |}.

(** *** The monad: state that survives an exception *)

Definition M (A : Type) : Type := State → Result A * State.

Definition ret {A} (a : A) : M A := fun s => (Ok a, s).

Definition bind {A B} (m : M A) (k : A → M B) : M B :=
  fun s =>
    match m s with
    | (Ok a, s') => k a s'
    | (Exn e, s') => (Exn e, s')
    end.

Definition throw {A} (e : JsVal) : M A := fun s => (Exn e, s).

Declare Scope js_scope.
Delimit Scope js_scope with js.
Notation "'let*' x := m 'in' k" := (bind m (fun x => k))
  (at level 10, x name, m at level 100, k at level 200) : js_scope.
Notation "m >> k" := (bind m (fun _ => k))
  (at level 100, k at level 200, right associativity) : js_scope.
Local Open Scope js_scope.

(** [try { body } catch (e) { handler(e) }] *)
Definition try_catch {A} (body : M A) (handler : JsVal → M A) : M A :=
  fun s =>
    match body s with
    | (Ok a, s') => (Ok a, s')
    | (Exn e, s') => handler e s'
    end.

(** [let x = dflt; try { x = body } finally { fin(x) }; return x]: the
    finally block sees the variable the body may not have assigned, runs on
    both exits, and an exception of its own replaces the body's outcome. *)
Definition try_finally {A} (dflt : A) (body : M A) (fin : A → M unit) : M A :=
  fun s =>
    match body s with
    | (Ok a, s') =>
      match fin a s' with
      | (Ok _, s'') => (Ok a, s'')
      | (Exn e, s'') => (Exn e, s'')
      end
    | (Exn e, s') =>
      match fin dflt s' with
      | (Ok _, s'') => (Exn e, s'')
      | (Exn e', s'') => (Exn e', s'')
      end
    end.

(** [while (i--) body(i)] *)
Fixpoint while_dec (i : nat) (body : nat → M unit) : M unit :=
  match i with
  | 0 => ret tt
  | S j => body j >> while_dec j body
  end.

(** [for each x of xs: body(x)], in order. *)
Fixpoint for_each {A} (xs : list A) (body : A → M unit) : M unit :=
  match xs with
  | [] => ret tt
  | x :: rest => body x >> for_each rest body
  end.

Definition getThis : M Watcher := fun s => (Ok (this s), s).
Definition setThis (f : Watcher → Watcher) : M unit := fun s => (Ok tt, with_this f s).
Definition call (c : Call) : M unit := fun s => (Ok tt, with_calls (fun cs => cs ++ [c]) s).
Definition getSeen : M (gset nat) := fun s => (Ok (seenObjects s), s).
Definition setSeen (seen : gset nat) : M unit := fun s => (Ok tt, with_seenObjects seen s).

(** Reads and in-place updates of the store.  An update changes the
    object at the address and never adds one: only [new Set()] and [[]]
    in the constructor allocate. *)
Definition readSet (a : nat) : M (gset nat) :=
  fun s => (Ok (default ∅ (sets s !! a)), s).
Definition updSet (a : nat) (f : gset nat → gset nat) : M unit :=
  fun s => (Ok tt, with_sets (alter f a) s).
Definition readArray (a : nat) : M (list Dep.t) :=
  fun s => (Ok (default [] (arrays s !! a)), s).
Definition updArray (a : nat) (f : list Dep.t → list Dep.t) : M unit :=
  fun s => (Ok tt, with_arrays (alter f a) s).

(** [new Set()] and [[]]: a fresh object at an unused address. *)
Definition newSet : M nat :=
  fun s => let a := fresh (dom (sets s)) in (Ok a, with_sets (insert a ∅) s).
Definition newArray : M nat :=
  fun s => let a := fresh (dom (arrays s)) in (Ok a, with_arrays (insert a []) s).

(** *** The collaborators *)

(** Modelled from the spec: [pushTarget] and [popTarget] of [dep.js], which
    is not among the sources: "the global evaluation-context pointer ...
    used as a stack (push/pop)".  The top of [targetStack] is [Dep.target]. *)
Definition pushTarget (target : nat) : M unit :=
  fun s => (Ok tt, with_targetStack (cons target) s).
Definition popTarget : M unit :=
  fun s => (Ok tt, with_targetStack (drop 1) s).

(** Modelled from the spec: [remove(arr, item)] of [util/index], not among
    the sources: "removes this node from its owning context's node
    registry"; the first occurrence is taken out. *)
Fixpoint remove (arr : list nat) (item : nat) : list nat :=
  match arr with
  | [] => []
  | x :: rest => if Nat.eqb x item then rest else x :: remove rest item
  end.

(** One run of the evaluator [this.getter], as the watcher meets it: while
    the watcher is [Dep.target] every instrumented read calls
    [dep.depend()], which calls [this.addDep(dep)]; then the evaluator
    returns a value or throws.  For the [traverse(value)] that may follow:
    [heap], the objects as the run leaves them; [getters], the deps on
    which the read of a property calls [depend()] (none for a property that
    is not instrumented, one or more for one that is); [depth], the nested
    calls the engine has left for [_traverse] below the first. *)
Record Evaluation := {
  reads : list Dep.t;
  outcome : Result JsVal;
  heap : Heap;
  getters : loc → Traverse.Key → list Dep.t;
  depth : nat
}.

(** Modelled from the spec: the instrumented getters of [observer/index],
    not among the sources: "the read is what fires the instrumented getter
    and performs the subscription".  The deps on which the accesses of a
    traversal call [depend()], in order. *)
Definition deps_read (g : Evaluation) (tr : list Traverse.Access) : list Dep.t :=
  concat ((fun e => match e with
                    | Traverse.Read l k => getters g l k
                    | Traverse.SeenAdd _ => []
                    end) <$> tr).

(** What comes out of a call that the engine cut off.  The watcher looks
    at no exception it passes on; the text stands for the error object. *)
Definition RangeError : JsVal :=
  VStr "RangeError: Maximum call stack size exceeded".

(** Modelled from the spec: [noop] of [util/index], not among the sources:
    "a no-op evaluator"; a run of it reads nothing and returns
    [undefined]. *)
Definition noop : Evaluation :=
  {| reads := []; outcome := Ok VUndefined; heap := ∅;
     getters := fun _ _ => []; depth := 0 |}.

(** The change callback [this.cb], called with the state it can observe
    and its two arguments: it returns ([None]) or throws. *)
Definition Callback : Type := State → JsVal → JsVal → option JsVal.

(** The second quote-delimited part of the messages given to
    [handleError]. *)
Definition quoted (s : string) : string :=
  String (Ascii.ascii_of_nat 34) (s +:+ String (Ascii.ascii_of_nat 34) EmptyString).

(** *** The methods of Watcher *)

(** [addDep(dep)], lines 132-143. *)
Definition addDep (dep : Dep.t) : M unit :=
  let id := Dep.id dep in
  let* w := getThis in
  let* newIds := readSet (newDepIds w) in
  if bool_decide (id ∈ newIds) then ret tt
  else
    updSet (newDepIds w) (fun ids => {[id]} ∪ ids) >>
    updArray (newDeps w) (fun ds => ds ++ [dep]) >>
    let* ids := readSet (depIds w) in
    if bool_decide (id ∈ ids) then ret tt
    else call (addSub dep).

(** [cleanupDeps()], lines 148-164. *)
Definition cleanupDeps : M unit :=
  let* w := getThis in
  let* ds := readArray (deps w) in
  while_dec (length ds) (fun i =>
    let* w := getThis in
    let* ds := readArray (deps w) in
    match ds !! i with
    | Some dep =>
      let* newIds := readSet (newDepIds w) in
      if bool_decide (Dep.id dep ∈ newIds) then ret tt
      else call (removeSub dep)
    | None => ret tt
    end) >>
  let* w := getThis in
  let tmp := depIds w in
  setThis (set_depIds (newDepIds w)) >>
  setThis (set_newDepIds tmp) >>
  updSet tmp (fun _ => ∅) >>
  let* w := getThis in
  let tmp := deps w in
  setThis (set_deps (newDeps w)) >>
  setThis (set_newDeps tmp) >>
  updArray tmp (fun _ => []).

(** [this.getter.call(vm, vm)] *)
Definition call_getter (g : Evaluation) : M JsVal :=
  call getter_call >>
  for_each (reads g) addDep >>
  match outcome g with
  | Ok v => ret v
  | Exn e => throw e
  end.

(** [traverse(value)], from the watcher that is [Dep.target]: the reads
    of the traversal register their deps; [seenObjects] is emptied when the
    traversal returns; when it is cut off the call throws, with
    [seenObjects] as the traversal left it. *)
Definition call_traverse (g : Evaluation) (val : JsVal) : M unit :=
  call (traverse val) >>
  let* seen := getSeen in
  let r := Traverse.traverse_upto (S (depth g)) (heap g) val seen in
  for_each (deps_read g r.1.2) addDep >>
  setSeen r.1.1 >>
  if r.2 then ret tt else throw RangeError.

(** [get()], lines 101-123. *)
Definition get (g : Evaluation) : M JsVal :=
  let* w := getThis in
  pushTarget (id w) >>
  try_finally VUndefined
    (try_catch (call_getter g)
       (fun e =>
          let* w := getThis in
          if user w then
            call (handleError e ("getter for watcher " +:+ quoted (expression w))) >>
            ret VUndefined
          else throw e))
    (fun value =>
       let* w := getThis in
       (if deep w then call_traverse g value else ret tt) >>
       popTarget >>
       cleanupDeps).

(** [this.cb.call(this.vm, value, oldValue)] *)
Definition call_cb (cb : Callback) (val oldVal : JsVal) : M unit :=
  call (cb_call val oldVal) >>
  fun s =>
    match cb s val oldVal with
    | None => (Ok tt, s)
    | Some e => (Exn e, s)
    end.

(** [run()], lines 185-210. *)
Definition run (cb : Callback) (g : Evaluation) : M unit :=
  let* w := getThis in
  if active w then
    let* val := get g in
    let* w := getThis in
    if strict_not_equals val (value w) || isObject val || deep w then
      let oldValue := value w in
      setThis (set_value val) >>
      if user w then
        try_catch (call_cb cb val oldValue)
          (fun e =>
             let* w := getThis in
             call (handleError e ("callback for watcher " +:+ quoted (expression w))))
      else call_cb cb val oldValue
    else ret tt
  else ret tt.

(** [update()], lines 170-179. *)
Definition update (cb : Callback) (g : Evaluation) : M unit :=
  let* w := getThis in
  if lazy w then setThis (set_dirty true)
  else if sync w then run cb g
  else call queueWatcher.

(** [evaluate()], lines 216-219. *)
Definition evaluate (g : Evaluation) : M unit :=
  let* val := get g in
  setThis (set_value val) >>
  setThis (set_dirty false).

(** [depend()], lines 224-229. *)
Definition depend : M unit :=
  let* w := getThis in
  let* ds := readArray (deps w) in
  while_dec (length ds) (fun i =>
    let* w := getThis in
    let* ds := readArray (deps w) in
    match ds !! i with
    | Some dep => call (dep_depend dep)
    | None => ret tt
    end).

(** [teardown()], lines 234-248. *)
Definition teardown : M unit :=
  let* w := getThis in
  if active w then
    (fun s =>
       if negb (_isBeingDestroyed s)
       then (Ok tt, with_vm (_watcher s) (remove (_watchers s) (id w)) s)
       else (Ok tt, s)) >>
    let* ds := readArray (deps w) in
    while_dec (length ds) (fun i =>
      let* w := getThis in
      let* ds := readArray (deps w) in
      match ds !! i with
      | Some dep => call (removeSub dep)
      | None => ret tt
      end) >>
    setThis (set_active false)
  else ret tt.

(** The options bag of the constructor. *)
Record Options := {
  opt_deep : bool;
  opt_user : bool;
  opt_lazy : bool;
  opt_sync : bool
}.

(** The evaluation target: a function, of which the constructor uses
    the source text ([toString()]), or a path string. *)
Inductive ExpOrFn :=
  | Fn (source : string)
  | Path (path : string).

Definition toString (expOrFn : ExpOrFn) : string :=
  match expOrFn with
  | Fn source => source
  | Path path => path
  end.

(** Modelled from the spec: what the constructor asks of the host.
    [production] is [process.env.NODE_ENV === 'production'].  [parsePath],
    of [util/index], is not among the sources: "a path resolver is an
    external collaborator", [resolve(pathString) -> evaluatorFunction |
    null]; [true] when an evaluator comes back. *)
Record Host := {
  production : bool;
  parsePath : string → bool
}.

(** The message of lines 86-88. *)
Definition failed_watching (path : string) : string :=
  "Failed watching path: " +:+ quoted path
  +:+ " Watcher only accepts simple dot-delimited paths. "
  +:+ "For full control, use a function instead.".

(** [new Watcher(vm, expOrFn, cb, options, isRenderWatcher)], lines 45-96.
    The evaluator is met only through its runs: [g] is the first run of
    [expOrFn], or of what [parsePath] made of it; [noop] takes its place
    when [parsePath] returned nothing. *)
Definition constructor (host : Host) (expOrFn : ExpOrFn) (options : option Options)
    (isRenderWatcher : bool) (g : Evaluation) : M unit :=
  (fun s =>
     let n := S (uid s) in
     let o := default {| opt_deep := false; opt_user := false;
                         opt_lazy := false; opt_sync := false |} options in
     let s := with_vm (if isRenderWatcher then Some n else _watcher s)
                      (_watchers s ++ [n]) s in
     let s := with_uid n s in
     (Ok tt, with_this (fun _ =>
        {| id := n; deep := opt_deep o; user := opt_user o; lazy := opt_lazy o;
           sync := opt_sync o; dirty := opt_lazy o; active := true;
           deps := 0; newDeps := 0; depIds := 0; newDepIds := 0;
           value := VUndefined;
           expression := if production host then EmptyString
                         else toString expOrFn |}) s)) >>
  let* a := newArray in setThis (set_deps a) >>
  let* a := newArray in setThis (set_newDeps a) >>
  let* a := newSet in setThis (set_depIds a) >>
  let* a := newSet in setThis (set_newDepIds a) >>
  let* getter :=
    match expOrFn with
    | Fn _ => ret g
    | Path path =>
      call (parsePath_call path) >>
      if parsePath host path then ret g
      else
        (if production host then ret tt
         else call (warn (failed_watching path))) >>
        ret noop
    end in
  let* w := getThis in
  if lazy w then setThis (set_value VUndefined)
  else let* v := get getter in setThis (set_value v).

(** The state before any watcher exists. *)
Definition initial : State :=
  {| this := {| id := 0; deep := false; user := false; lazy := false; sync := false;
                dirty := false; active := false; deps := 0; newDeps := 0;
                depIds := 0; newDepIds := 0; value := VUndefined;
                expression := EmptyString |};
     sets := ∅; arrays := ∅; _watcher := None; _watchers := [];
     _isBeingDestroyed := false; targetStack := [];
     seenObjects := ∅; uid := 0; calls := [] |}.

(** *** What the properties speak of *)

(** The contents of the four containers, through the references in [this]. *)
Definition dependencyIds (s : State) : gset nat :=
  default ∅ (sets s !! depIds (this s)).
Definition pendingIds (s : State) : gset nat :=
  default ∅ (sets s !! newDepIds (this s)).
Definition dependencies (s : State) : list Dep.t :=
  default [] (arrays s !! deps (this s)).
Definition pending (s : State) : list Dep.t :=
  default [] (arrays s !! newDeps (this s)).

(** The containers of a constructed watcher: four live objects, the two
    sets distinct and the two arrays distinct. *)
Definition wf (s : State) : Prop :=
  depIds (this s) ≠ newDepIds (this s) ∧
  deps (this s) ≠ newDeps (this s) ∧
  is_Some (sets s !! depIds (this s)) ∧
  is_Some (sets s !! newDepIds (this s)) ∧
  is_Some (arrays s !! deps (this s)) ∧
  is_Some (arrays s !! newDeps (this s)).

(** No evaluation is in flight: the pending containers are empty. *)
Definition quiescent (s : State) : Prop :=
  pendingIds s = ∅ ∧ pending s = [].

(** The pending list and the pending set agree, and no id is listed twice. *)
Definition pending_consistent (s : State) : Prop :=
  NoDup (Dep.id <$> pending s) ∧
  pendingIds s = list_to_set (Dep.id <$> pending s).

(** The dependency list and the dependency set agree. *)
Definition dependencies_consistent (s : State) : Prop :=
  dependencyIds s = list_to_set (Dep.id <$> dependencies s).

(** What surrounds the watcher is as it was, and the store holds the same
    objects: none was allocated. *)
Definition same_env (s s' : State) : Prop :=
  _watcher s' = _watcher s ∧
  _watchers s' = _watchers s ∧
  _isBeingDestroyed s' = _isBeingDestroyed s ∧
  targetStack s' = targetStack s ∧
  uid s' = uid s ∧
  dom (sets s') = dom (sets s) ∧
  dom (arrays s') = dom (arrays s).

(** Everything but the contents of the containers and the calls made. *)
Definition same_frame (s s' : State) : Prop :=
  this s' = this s ∧ same_env s s'.

(** The exchange of lines 156-162: [depIds] with [newDepIds] and [deps]
    with [newDeps]. *)
Definition swap_buffers (w : Watcher) : Watcher :=
  set_newDeps (deps w) (set_deps (newDeps w)
    (set_newDepIds (depIds w) (set_depIds (newDepIds w) w))).

(** Appending to the log of calls. *)
Definition emit (cs : list Call) (s : State) : State :=
  with_calls (fun l => l ++ cs) s.

(** The deps of [ds] that a run of [addDep] over [ds] appends to the
    pending list when the pending set starts as [seen]: for each id not in
    [seen], the first dep of [ds] that carries it. *)
Fixpoint newly_added (seen : gset nat) (ds : list Dep.t) : list Dep.t :=
  match ds with
  | [] => []
  | d :: rest =>
    if bool_decide (Dep.id d ∈ seen) then newly_added seen rest
    else d :: newly_added ({[Dep.id d]} ∪ seen) rest
  end.

(** The deps of the list that are not in the set of ids. *)
Definition not_among (ids : gset nat) (ds : list Dep.t) : list Dep.t :=
  filter (fun d => Dep.id d ∉ ids) ds.

(** The [value] variable of [get] when the finally block runs: what the
    evaluator returned, or [undefined] when it threw. *)
Definition evaluated (g : Evaluation) : JsVal :=
  match outcome g with
  | Ok v => v
  | Exn _ => VUndefined
  end.

(** The traversal of the finally block of [get], for a watcher with
    [deep] as given and [seenObjects] as given: [seenObjects] and the
    accesses after it, and whether it returned.  Without [deep] there is
    none. *)
Definition traversal_of (deep : bool) (seenObjects : gset nat) (g : Evaluation)
  : (gset nat * list Traverse.Access) * bool :=
  if deep
  then Traverse.traverse_upto (S (depth g)) (heap g) (evaluated g) seenObjects
  else ((seenObjects, []), true).

Definition traversal (s : State) (g : Evaluation)
  : (gset nat * list Traverse.Access) * bool :=
  traversal_of (deep (this s)) (seenObjects s) g.

(** The finally block of [get] runs to its end. *)
Definition returns (s : State) (g : Evaluation) : bool := (traversal s g).2.

(** The deps that register while the traversal reads. *)
Definition touched (s : State) (g : Evaluation) : list Dep.t :=
  deps_read g (traversal s g).1.2.

(** What [get] hands back: the evaluator's value, unless the traversal
    of it is cut off; [undefined] when the evaluator threw and [user] is
    set; the exception when it threw and [user] is not. *)
Definition get_result (s : State) (g : Evaluation) : Result JsVal :=
  match outcome g with
  | Ok v => if returns s g then Ok v else Exn RangeError
  | Exn e => if user (this s) then Ok VUndefined else Exn e
  end.

(** The deps that call [addDep] during one [get]: those the evaluator
    reads, then those the deep traversal touches. *)
Definition registered_of (deep : bool) (seenObjects : gset nat) (g : Evaluation)
  : list Dep.t :=
  reads g ++ deps_read g (traversal_of deep seenObjects g).1.2.

Definition registered (s : State) (g : Evaluation) : list Dep.t :=
  reads g ++ touched s g.

Definition ids_of (ds : list Dep.t) : gset nat := list_to_set (Dep.id <$> ds).

(** The report of an evaluator error, made only when [user] is set. *)
Definition getter_report (w : Watcher) (g : Evaluation) : list Call :=
  match outcome g with
  | Exn e =>
    if user w
    then [handleError e ("getter for watcher " +:+ quoted (expression w))]
    else []
  | Ok _ => []
  end.

(** The calls of one [get], in order: the evaluator and the subscriptions
    its reads cause, the error report, the deep traversal and the
    subscriptions it causes, and, when the traversal returned, the
    unsubscriptions of the reconciliation. *)
Definition get_calls (g : Evaluation) (s : State) : list Call :=
  let w := this s in
  [getter_call]
  ++ (addSub <$> not_among (dependencyIds s) (newly_added (pendingIds s) (reads g)))
  ++ getter_report w g
  ++ (if deep w
      then traverse (evaluated g)
           :: (addSub <$> not_among (dependencyIds s)
                 (newly_added (pendingIds s ∪ ids_of (reads g)) (touched s g)))
      else [])
  ++ (if returns s g
      then removeSub <$> not_among (pendingIds s ∪ ids_of (registered s g))
                           (reverse (dependencies s))
      else []).

(** The test of lines 188-195, on the value [get] returned and the
    watcher as it is then. *)
Definition fires (w : Watcher) (val : JsVal) : bool :=
  strict_not_equals val (value w) || isObject val || deep w.

(** The state in which [run] calls the callback: the new value is stored
    and the call is under way. *)
Definition at_callback (val oldVal : JsVal) (s : State) : State :=
  emit [cb_call val oldVal] (with_this (set_value val) s).

(** The end of [run] once the callback has returned or thrown. *)
Definition after_callback (thrown : option JsVal) (s : State) : Result unit * State :=
  match thrown with
  | None => (Ok tt, s)
  | Some e =>
    if user (this s)
    then (Ok tt, emit [handleError e ("callback for watcher "
                                      +:+ quoted (expression (this s)))] s)
    else (Exn e, s)
  end.

(** The calls of the change callback among a list of calls. *)
Definition is_cb_call (c : Call) : bool :=
  match c with
  | cb_call _ _ => true
  | _ => false
  end.

Definition callbacks (cs : list Call) : list Call := filter is_cb_call cs.

(** A call of one of the watcher's methods from outside, and the state it
    leaves (whether it returned or threw). *)
Inductive Op :=
  | op_get (g : Evaluation)
  | op_addDep (dep : Dep.t)
  | op_cleanupDeps
  | op_update (cb : Callback) (g : Evaluation)
  | op_run (cb : Callback) (g : Evaluation)
  | op_evaluate (g : Evaluation)
  | op_depend
  | op_teardown.

Definition exec (o : Op) (s : State) : State :=
  match o with
  | op_get g => (get g s).2
  | op_addDep dep => (addDep dep s).2
  | op_cleanupDeps => (cleanupDeps s).2
  | op_update cb g => (update cb g s).2
  | op_run cb g => (run cb g s).2
  | op_evaluate g => (evaluate g s).2
  | op_depend => (depend s).2
  | op_teardown => (teardown s).2
  end.

Definition exec_all (ops : list Op) (s : State) : State :=
  foldl (fun s o => exec o s) s ops.

(** The calls made from some point on: [cs'] extends [cs] by [new]. *)
Definition calls_since (s s' : State) (new : list Call) : Prop :=
  calls s' = calls s ++ new.

(** What holds of a watcher between two calls of its methods: the four
    containers are in place, nothing is pending, and the dependency list
    and the dependency set hold the same ids, each once. *)
Definition invariant (s : State) : Prop :=
  wf s ∧ quiescent s ∧ dependencies_consistent s ∧
  NoDup (Dep.id <$> dependencies s).

(** The method call makes no traversal that is cut off, when made on a
    watcher with [deep] as given and with [seenObjects] empty. *)
Definition returning (deep : bool) (o : Op) : bool :=
  match o with
  | op_get g | op_update _ g | op_run _ g | op_evaluate g =>
    (traversal_of deep ∅ g).2
  | _ => true
  end.

(** The methods called from outside an evaluation: all but [addDep], which
    a dep calls on the watcher that is [Dep.target], during its [get]. *)
Definition between_evaluations (o : Op) : bool :=
  match o with
  | op_addDep _ => false
  | _ => true
  end.

(** The deps on which a list of calls calls [addSub], and [removeSub]. *)
Definition subscribed (cs : list Call) : list Dep.t :=
  omap (fun c => match c with addSub d => Some d | _ => None end) cs.
Definition unsubscribed (cs : list Call) : list Dep.t :=
  omap (fun c => match c with removeSub d => Some d | _ => None end) cs.

(** The runs of the evaluator among a list of calls. *)
Definition evaluations (cs : list Call) : nat :=
  length (filter (fun c => c = getter_call) cs).

(** The options the constructor works with: the bag given, or all false. *)
Definition resolved (options : option Options) : Options :=
  default {| opt_deep := false; opt_user := false;
             opt_lazy := false; opt_sync := false |} options.

(** The run of the evaluator the constructor makes unless [lazy] is set,
    and the calls of lines 79-92 that precede it. *)
Definition first_run (host : Host) (expOrFn : ExpOrFn) (g : Evaluation) : Evaluation :=
  match expOrFn with
  | Fn _ => g
  | Path path => if parsePath host path then g else noop
  end.

Definition parse_calls (host : Host) (expOrFn : ExpOrFn) : list Call :=
  match expOrFn with
  | Fn _ => []
  | Path path =>
    parsePath_call path
    :: (if parsePath host path then []
        else if production host then [] else [warn (failed_watching path)])
  end.

(** The Set objects and the Array objects a watcher holds. *)
Definition own_sets (s : State) : gset nat :=
  {[depIds (this s); newDepIds (this s)]}.
Definition own_arrays (s : State) : gset nat :=
  {[deps (this s); newDeps (this s)]}.

(** [vm._watchers] without the entries of the watcher. *)
Definition other_watchers (s : State) (ws : list nat) : list nat :=
  filter (fun i => i ≠ id (this s)) ws.

(** From [s] to [s'] the watcher is the same and holds the same objects,
    every other Set and Array of the store is what it was, and so are
    [vm._watcher] and the entries of the other watchers in
    [vm._watchers]. *)
Definition others_untouched (s s' : State) : Prop :=
  own_sets s' = own_sets s ∧
  own_arrays s' = own_arrays s ∧
  (∀ a, a ∉ own_sets s → sets s' !! a = sets s !! a) ∧
  (∀ a, a ∉ own_arrays s → arrays s' !! a = arrays s !! a) ∧
  id (this s') = id (this s) ∧
  _watcher s' = _watcher s ∧
  other_watchers s (_watchers s') = other_watchers s (_watchers s).

(** An action that, from every state, leaves the other objects alone. *)
Definition isolated {A} (m : M A) : Prop :=
  ∀ s, others_untouched s (m s).2.

(** [n] calls of [update] in a row. *)
Fixpoint updates (n : nat) (cb : Callback) (g : Evaluation) (s : State) : State :=
  match n with
  | 0 => s
  | S m => updates m cb g (update cb g s).2
  end.

End Watch.

(* ===================================================================== *)
(** ** Concrete watchers and object graphs *)
(* ===================================================================== *)

Module Examples.
Import Watch.

Definition depA : Dep.t := Dep.mk 10 1.
Definition depB : Dep.t := Dep.mk 11 2.
Definition depC : Dep.t := Dep.mk 12 3.

Definition one : JsVal := VNum (S754_finite false 1 0).

(** **** Object graphs *)

Definition plain (props : list (string * JsVal)) (ob : option nat) : JsObject :=
  {| body := Obj props; isFrozen := false; isVNode := false; __ob__ := ob |}.

Definition array (elems : list JsVal) (ob : option nat) : JsObject :=
  {| body := Arr elems; isFrozen := false; isVNode := false; __ob__ := ob |}.

(** An observed array [[o, o, self]] at 0 whose element [o], at 1, is the
    observed object [{x: 1, back: <the array>}]: a cycle and a shared
    element, both through observed objects. *)
Definition cyclic_heap : Heap :=
  {[ 0 := array [VRef 1; VRef 1; VRef 0] (Some 5);
     1 := plain [("x", one); ("back", VRef 0)] (Some 6) ]}.

(** [{a: {b: 1}}], observed at both levels. *)
Definition nested_heap : Heap :=
  {[ 0 := plain [("a", VRef 1)] (Some 5);
     1 := plain [("b", one)] (Some 6) ]}.

(** A plain object that holds itself and carries no observation record. *)
Definition unobserved_cycle : Heap :=
  {[ 0 := plain [("self", VRef 0)] None ]}.

(** An unobserved array inside an observed object, with a frozen and a
    VNode element. *)
Definition mixed_heap : Heap :=
  {[ 0 := plain [("list", VRef 1)] (Some 5);
     1 := array [VRef 2; VRef 3; one] None;
     2 := {| body := Obj [("secret", one)]; isFrozen := true; isVNode := false;
             __ob__ := None |};
     3 := {| body := Obj [("tag", one)]; isFrozen := false; isVNode := true;
             __ob__ := None |} ]}.

(** Two objects without observation records that refer to each other. *)
Definition unobserved_pair : Heap :=
  {[ 1 := plain [("next", VRef 2)] None;
     2 := array [one; VRef 1] None ]}.

(** Observed [{a: c}] at 0, where [c], at 1, holds itself and carries no
    observation record. *)
Definition cycle_below : Heap :=
  {[ 0 := plain [("a", VRef 1)] (Some 5);
     1 := plain [("self", VRef 1)] None ]}.

(** **** Runs of an evaluator *)

(** A run that reads [rs] and ends in [out], with no object to traverse. *)
Definition shallow (rs : list Dep.t) (out : Result JsVal) : Evaluation :=
  {| reads := rs; outcome := out; heap := ∅; getters := fun _ _ => []; depth := 0 |}.

(** An evaluator run that reads A, B and A again and returns 1. *)
Definition reads_ABA : Evaluation := shallow [depA; depB; depA] (Ok one).

(** An evaluator run that reads only A and returns 1. *)
Definition reads_A : Evaluation := shallow [depA] (Ok one).

(** An evaluator run that reads only C and returns 1. *)
Definition reads_C : Evaluation := shallow [depC] (Ok one).

(** An evaluator run that reads A and then throws. *)
Definition reads_A_throws : Evaluation := shallow [depA] (Exn (VStr "boom")).

(** An evaluator run that reads nothing and returns [NaN]. *)
Definition returns_NaN : Evaluation := shallow [] (Ok NaN).

(** The getters of [{a: {b: 1}}]: B behind [a], C behind [b]. *)
Definition nested_getters (l : loc) (k : Traverse.Key) : list Dep.t :=
  match l, k with
  | 0, Traverse.Name "a" => [depB]
  | 1, Traverse.Name "b" => [depC]
  | _, _ => []
  end.

(** An evaluator run that reads A and returns the object [{a: {b: 1}}]. *)
Definition returns_nested : Evaluation :=
  {| reads := [depA]; outcome := Ok (VRef 0); heap := nested_heap;
     getters := nested_getters; depth := 2 |}.

(** An evaluator run that reads A and returns the object of
    [cycle_below], with B behind its property [a]. *)
Definition returns_cycle : Evaluation :=
  {| reads := [depA]; outcome := Ok (VRef 0); heap := cycle_below;
     getters := nested_getters; depth := 3 |}.

(** A callback that returns, and one that throws. *)
Definition cb_returns : Callback := fun _ _ _ => None.
Definition cb_throws : Callback := fun _ _ _ => Some (VStr "cb failed").

(** A callback that throws unless the watcher already holds the value it
    is called with. *)
Definition cb_checks_value : Callback :=
  fun s val _ =>
    if strict_equals (value (this s)) val then None else Some (VStr "stale").

(** Vue's [parsePath] accepts the strings of word characters, dots and
    dollar signs. *)
Definition word_char (c : Ascii.ascii) : bool :=
  let n := Ascii.nat_of_ascii c in
  (48 <=? n) && (n <=? 57) || (65 <=? n) && (n <=? 90)
  || (97 <=? n) && (n <=? 122) || (n =? 95) || (n =? 46) || (n =? 36).

Definition host : Host :=
  {| production := false;
     parsePath := fun path => forallb word_char (String.list_ascii_of_string path) |}.

Definition options (d u l y : bool) : option Options :=
  Some {| opt_deep := d; opt_user := u; opt_lazy := l; opt_sync := y |}.

(** [new Watcher(vm, f, cb)] with an evaluator that read A, B, A. *)
Definition plain_watcher : State :=
  (constructor host (Fn "f") None false reads_ABA initial).2.

(** The same with [{user: true, deep: true}]. *)
Definition user_deep_watcher : State :=
  (constructor host (Fn "f") (options true true false false) false reads_ABA initial).2.

(** The same with [{deep: true}]. *)
Definition deep_watcher : State :=
  (constructor host (Fn "f") (options true false false false) false reads_ABA initial).2.

(** A lazy watcher, not yet evaluated. *)
Definition lazy_watcher : State :=
  (constructor host (Fn "f") (options false false true false) false reads_ABA initial).2.

(** A watcher with [{sync: true}]. *)
Definition sync_watcher : State :=
  (constructor host (Fn "f") (options false false false true) false reads_ABA initial).2.

(** A watcher whose evaluator returned [NaN] when it was constructed. *)
Definition nan_watcher : State :=
  (constructor host (Fn "f") None false returns_NaN initial).2.

(** A watcher in the middle of an evaluation that has read A so far. *)
Definition mid_evaluation : State :=
  (addDep depA plain_watcher).2.

End Examples.

(* ===================================================================== *)
(** ** Properties of the deep traversal *)
(* ===================================================================== *)

Module TraverseFacts.
Import Traverse.

(** **** One step of [_traverse] *)

Lemma is_leaf_non_object h val :
  (∀ l, val ≠ VRef l) → is_leaf h val = true.
Proof. intros Hv. destruct val; try done. by destruct (Hv l). Qed.

Lemma is_leaf_ref h l :
  is_leaf h (VRef l) = negb (open_object (deref h l)).
Proof.
  unfold is_leaf, open_object. simpl.
  destruct (body (deref h l)), (isFrozen _), (isVNode _); done.
Qed.

(** [_traverse] with fuel to spare, one level unfolded. *)
Lemma _traverse_unfold fuel h val a :
  _traverse (S fuel) h val a =
    match val with
    | VRef l =>
      let o := deref h l in
      if open_object o then
        match __ob__ o with
        | Some depId =>
          if bool_decide (depId ∈ a.1) then Some a
          else descend (_traverse fuel h) l o
                 ({[depId]} ∪ a.1, a.2 ++ [SeenAdd depId])
        | None => descend (_traverse fuel h) l o a
        end
      else Some a
    | _ => Some a
    end.
Proof.
  destruct val; try done. simpl _traverse. rewrite is_leaf_ref.
  cbv zeta. by destruct (open_object _).
Qed.

(** The loops of [descend] call [rec] on the [i]-th child, after logging
    the read, for [i] from the last index down to 0. *)
Lemma descend_unfold rec l o a :
  descend rec l o a =
    while_dec (length (children o))
      (fun i a => match child_at o i with
                  | Some (k, v) => rec v (a.1, a.2 ++ [Read l k])
                  | None => Some a
                  end) a.
Proof.
  unfold descend, children, child_at. destruct (body o) as [elems|props].
  - assert (Hgen : ∀ n a, n ≤ length elems →
      while_dec n (fun i a => rec (index elems i) (a.1, a.2 ++ [Read l (Idx i)])) a
      = while_dec n (fun i a => match (fun v => (Idx i, v)) <$> elems !! i with
                                | Some (k, v) => rec v (a.1, a.2 ++ [Read l k])
                                | None => Some a
                                end) a).
    { induction n as [|n IH]; intros b Hn; [done|]. simpl.
      destruct (lookup_lt_is_Some_2 elems n) as [v Hv]; [lia|].
      unfold index. rewrite Hv. simpl.
      destruct (rec v _) as [b'|]; [|done]. simpl. apply IH. lia. }
    by apply Hgen.
  - rewrite length_fmap.
    assert (Hgen : ∀ n a,
      while_dec n (fun i a => match keys props !! i with
                              | Some k => rec (prop props k) (a.1, a.2 ++ [Read l (Name k)])
                              | None => Some a
                              end) a
      = while_dec n (fun i a =>
                       match (fun k => (Name k, prop props k)) <$> keys props !! i with
                       | Some (k, v) => rec v (a.1, a.2 ++ [Read l k])
                       | None => Some a
                       end) a).
    { induction n as [|n IH]; intros b; [done|]. simpl.
      destruct (keys props !! n) as [k|]; simpl.
      - destruct (rec _ _) as [b'|]; [|done]. simpl. apply IH.
      - apply IH. }
    by apply Hgen.
Qed.

(** **** Invariants of a traversal *)

Lemma while_dec_rel (P : Acc → Acc → Prop) n body a a' :
  (∀ b, P b b) →
  (∀ b1 b2 b3, P b1 b2 → P b2 b3 → P b1 b3) →
  (∀ i b b', i < n → body i b = Some b' → P b b') →
  while_dec n body a = Some a' → P a a'.
Proof.
  intros Hrefl Htrans. revert a.
  induction n as [|n IH]; intros a Hbody Hrun; simpl in Hrun.
  - injection Hrun as <-. apply Hrefl.
  - destruct (body n a) as [b|] eqn:Hb; [|done]. simpl in Hrun.
    apply (Htrans a b a'); [apply (Hbody n); [lia|done]|].
    apply IH; [|done]. intros i c c' Hi Hc. apply (Hbody i); [lia|done].
Qed.

(** A relation between the state before and after that is reflexive,
    transitive, and holds of logging a read and of adding an unseen id,
    holds of every traversal that returns. *)
Lemma _traverse_rel (P : Acc → Acc → Prop) h :
  (∀ b, P b b) →
  (∀ b1 b2 b3, P b1 b2 → P b2 b3 → P b1 b3) →
  (∀ l k b, P b (b.1, b.2 ++ [Read l k])) →
  (∀ d b, d ∉ b.1 → P b ({[d]} ∪ b.1, b.2 ++ [SeenAdd d])) →
  ∀ fuel val a a', _traverse fuel h val a = Some a' → P a a'.
Proof.
  intros Hrefl Htrans Hread Hadd.
  induction fuel as [|fuel IH]; intros val a a' Hrun; [done|].
  rewrite _traverse_unfold in Hrun.
  destruct val as [| | | | | |l]; try (injection Hrun as <-; apply Hrefl).
  cbv zeta in Hrun.
  destruct (open_object (deref h l)); [|injection Hrun as <-; apply Hrefl].
  assert (Hdesc : ∀ b b', descend (_traverse fuel h) l (deref h l) b = Some b' → P b b').
  { intros b b'. rewrite descend_unfold. apply while_dec_rel; [done|done|].
    intros i c c' _. destruct (child_at _ i) as [[k v]|].
    - intros Hc%IH. eapply Htrans; [apply (Hread l k)|done].
    - intros [= <-]. apply Hrefl. }
  destruct (__ob__ (deref h l)) as [d|]; [|by apply Hdesc].
  case_bool_decide as Hd; [injection Hrun as <-; apply Hrefl|].
  eapply Htrans; [by apply (Hadd d)|by apply Hdesc].
Qed.

Lemma seen_adds_app tr1 tr2 : seen_adds (tr1 ++ tr2) = seen_adds tr1 ++ seen_adds tr2.
Proof. apply omap_app. Qed.

Lemma grows_refl a : grows a a.
Proof.
  exists []. rewrite app_nil_r. simpl.
  split_and!; [done | set_solver | constructor | by intros ? ?%elem_of_nil].
Qed.

Lemma grows_trans a1 a2 a3 : grows a1 a2 → grows a2 a3 → grows a1 a3.
Proof.
  intros (d1 & Ht1 & Hs1 & Hn1 & Hf1) (d2 & Ht2 & Hs2 & Hn2 & Hf2).
  exists (d1 ++ d2). rewrite seen_adds_app, list_to_set_app_L.
  split_and!.
  - by rewrite Ht2, Ht1, app_assoc.
  - rewrite Hs2, Hs1. set_solver.
  - apply NoDup_app. split_and!; [done| |done].
    intros d Hd1 Hd2. apply (Hf2 d Hd2). rewrite Hs1.
    apply elem_of_union_r. by apply elem_of_list_to_set.
  - intros d [Hd|Hd]%elem_of_app; [by apply Hf1|].
    intros Hin. apply (Hf2 d Hd). rewrite Hs1. by apply elem_of_union_l.
Qed.

Lemma _traverse_grows fuel h val a a' :
  _traverse fuel h val a = Some a' → grows a a'.
Proof.
  apply _traverse_rel.
  - apply grows_refl.
  - apply grows_trans.
  - intros l k b. exists [Read l k]. simpl.
    split_and!; [done | set_solver | constructor | by intros ? ?%elem_of_nil].
  - intros d b Hd. exists [SeenAdd d]. simpl.
    split_and!; [done | set_solver | apply NoDup_singleton |].
    by intros ? ->%list_elem_of_singleton.
Qed.

(** **** Reads of observed objects *)

Lemma count_of_app {A} `{EqDecision A} (x : A) l1 l2 :
  count_of x (l1 ++ l2) = count_of x l1 + count_of x l2.
Proof. unfold count_of. by rewrite filter_app, length_app. Qed.

Lemma count_of_cons {A} `{EqDecision A} (x y : A) l :
  count_of x (y :: l) = (if decide (x = y) then 1 else 0) + count_of x l.
Proof. unfold count_of. rewrite filter_cons. by case_decide. Qed.

Lemma count_of_nil {A} `{EqDecision A} (x : A) : count_of x [] = 0.
Proof. done. Qed.

Lemma count_of_not_elem {A} `{EqDecision A} (x : A) l : x ∉ l → count_of x l = 0.
Proof.
  induction l as [|y l IH]; [done|]. intros Hx.
  rewrite count_of_cons, IH by set_solver.
  case_decide; [set_solver|done].
Qed.

Lemma count_of_NoDup {A} `{EqDecision A} (x : A) l : NoDup l → count_of x l ≤ 1.
Proof.
  induction 1 as [|y l Hy Hl IH]; [by rewrite count_of_nil; lia|].
  rewrite count_of_cons. case_decide as Hxy; [|lia].
  subst. by rewrite count_of_not_elem.
Qed.

Lemma own_keys_NoDup o : NoDup (own_keys o).
Proof.
  unfold own_keys. destruct (body o).
  - apply NoDup_fmap_2; [by intros ?? [= ->] | apply NoDup_seq].
  - apply NoDup_fmap_2; [by intros ?? [= ->] | apply NoDup_remove_dups].
Qed.

Lemma child_at_own_keys o i k v : child_at o i = Some (k, v) → own_keys o !! i = Some k.
Proof.
  unfold child_at, own_keys. destruct (body o) as [elems|props].
  - destruct (elems !! i) as [x|] eqn:Hx; [|done]. intros [= <- _].
    rewrite list_lookup_fmap, lookup_seq_lt; [done|by eapply lookup_lt_Some].
  - destruct (keys props !! i) as [x|] eqn:Hx; [|done]. intros [= <- _].
    by rewrite list_lookup_fmap, Hx.
Qed.

Lemma child_at_is_Some o i : i < length (children o) → is_Some (child_at o i).
Proof.
  unfold child_at, children. destruct (body o) as [elems|props].
  - intros [v ->]%lookup_lt_is_Some_2. by eexists.
  - rewrite length_fmap. intros [v ->]%lookup_lt_is_Some_2. by eexists.
Qed.

Lemma own_keys_length o : length (own_keys o) = length (children o).
Proof.
  unfold own_keys, children. destruct (body o).
  - by rewrite length_fmap, length_seq.
  - by rewrite !length_fmap.
Qed.

Lemma while_dec_indexed (P : nat → Acc → Prop) n body a a' :
  P n a →
  (∀ i b b', i < n → P (S i) b → body i b = Some b' → P i b') →
  while_dec n body a = Some a' → P 0 a'.
Proof.
  revert a. induction n as [|n IH]; intros a Ha Hbody Hrun; simpl in Hrun.
  - by injection Hrun as <-.
  - destruct (body n a) as [b|] eqn:Hb; [|done]. simpl in Hrun.
    apply (IH b); [|intros i c c' Hi; apply Hbody; lia|done].
    by apply (Hbody n a b); [lia| |].
Qed.

(** In the log of a traversal the reads of an observed object are covered
    by an addition of its dep id to the visited set. *)
Lemma _traverse_balanced fuel h val a a' :
  _traverse fuel h val a = Some a' →
  ∃ delta, a'.2 = a.2 ++ delta ∧ balanced h delta.
Proof.
  assert (Hnil : ∀ b : Acc, ∃ delta, b.2 = b.2 ++ delta ∧ balanced h delta).
  { intros b. exists []. rewrite app_nil_r. split; [done|]. by intros l d k _. }
  revert val a a'. induction fuel as [|fuel IH]; intros val a a' Hrun; [done|].
  rewrite _traverse_unfold in Hrun.
  destruct val as [| | | | | |l]; try (injection Hrun as <-; apply Hnil).
  cbv zeta in Hrun.
  destruct (open_object (deref h l)); [|injection Hrun as <-; apply Hnil].
  set (o := deref h l) in *.
  assert (Hdesc : ∀ b b', descend (_traverse fuel h) l o b = Some b' →
    ∃ delta, b'.2 = b.2 ++ delta ∧
      ∀ l' d' k, __ob__ (deref h l') = Some d' →
        count_of (Read l' k) delta
        ≤ count_of (SeenAdd d') delta
          + (if decide (l' = l) then count_of k (own_keys o) else 0)).
  { intros b b'. rewrite descend_unfold. intros Hloop.
    apply (while_dec_indexed (fun j c =>
      ∃ delta, c.2 = b.2 ++ delta ∧
        ∀ l' d' k, __ob__ (deref h l') = Some d' →
          count_of (Read l' k) delta
          ≤ count_of (SeenAdd d') delta
            + (if decide (l' = l) then count_of k (drop j (own_keys o)) else 0)))
      in Hloop; [by rewrite drop_0 in Hloop| |].
    - exists []. rewrite app_nil_r. split; [done|]. intros l' d' k _.
      rewrite count_of_nil. lia.
    - intros i c c' Hi (delta & Hc & Hbal).
      destruct (child_at_is_Some o i Hi) as [[ki v] Hchild]. rewrite Hchild.
      intros (drec & Hc' & Hrec)%IH. simpl in Hc'.
      exists (delta ++ [Read l ki] ++ drec). split.
      { by rewrite Hc', Hc, <-!app_assoc. }
      intros l' d' k Hob.
      rewrite (drop_S _ ki i) by by eapply child_at_own_keys.
      specialize (Hbal l' d' k Hob). specialize (Hrec l' d' k Hob).
      rewrite !count_of_app, !count_of_cons, !count_of_nil.
      rewrite (decide_False (P := SeenAdd d' = Read l ki)) by done.
      repeat case_decide; simplify_eq; lia. }
  destruct (__ob__ o) as [d|] eqn:Hob.
  - case_bool_decide; [injection Hrun as <-; apply Hnil|].
    apply Hdesc in Hrun as (delta & Ha' & Hbal). simpl in Ha'.
    exists ([SeenAdd d] ++ delta). split; [by rewrite Ha', <-app_assoc|].
    intros l' d' k Hob'. specialize (Hbal l' d' k Hob').
    pose proof (count_of_NoDup k (own_keys o) (own_keys_NoDup o)).
    rewrite !count_of_app, !count_of_cons, !count_of_nil.
    rewrite decide_False by done.
    destruct (decide (l' = l)) as [->|]; [|lia].
    fold o in Hob'. rewrite Hob in Hob'. injection Hob' as <-.
    rewrite decide_True by done. lia.
  - apply Hdesc in Hrun as (delta & Ha' & Hbal).
    exists delta. split; [done|]. intros l' d' k Hob'.
    specialize (Hbal l' d' k Hob').
    destruct (decide (l' = l)) as [->|]; [|lia].
    fold o in Hob'. congruence.
Qed.

(** **** Fuel *)

Lemma while_dec_ext n body1 body2 a a' :
  (∀ i b b', body1 i b = Some b' → body2 i b = Some b') →
  while_dec n body1 a = Some a' → while_dec n body2 a = Some a'.
Proof.
  intros Hbody. revert a. induction n as [|n IH]; intros a; simpl; [done|].
  destruct (body1 n a) as [b|] eqn:Hb; [|done].
  rewrite (Hbody _ _ _ Hb). simpl. apply IH.
Qed.

(** More fuel does not change the result of a traversal that returns. *)
Lemma _traverse_fuel_mono fuel fuel' h val a a' :
  fuel ≤ fuel' → _traverse fuel h val a = Some a' →
  _traverse fuel' h val a = Some a'.
Proof.
  revert fuel' val a a'.
  induction fuel as [|fuel IH]; intros fuel' val a a' Hle Hrun; [done|].
  destruct fuel' as [|fuel']; [lia|].
  rewrite _traverse_unfold in *.
  destruct val as [| | | | | |l]; try done. cbv zeta in *.
  destruct (open_object (deref h l)); [|done].
  assert (Hdesc : ∀ b b', descend (_traverse fuel h) l (deref h l) b = Some b' →
                          descend (_traverse fuel' h) l (deref h l) b = Some b').
  { intros b b'. rewrite !descend_unfold. apply while_dec_ext.
    intros i c c'. destruct (child_at _ i) as [[k v]|]; [|done].
    apply IH. lia. }
  destruct (__ob__ (deref h l)) as [d|]; [|by apply Hdesc].
  case_bool_decide; [done|by apply Hdesc].
Qed.

(** **** Termination *)

Lemma while_dec_terminates (Q : Acc → Prop) n body a :
  (∀ i b, i < n → Q b → ∃ b', body i b = Some b' ∧ Q b') →
  Q a → ∃ a', while_dec n body a = Some a' ∧ Q a'.
Proof.
  revert a. induction n as [|n IH]; intros a Hbody Ha; simpl; [by exists a|].
  destruct (Hbody n a) as (b & -> & Hb); [lia|done|]. simpl.
  apply IH; [|done]. intros i c Hi. apply Hbody. lia.
Qed.

Lemma observed_ids_elem h l o d :
  h !! l = Some o → __ob__ o = Some d → d ∈ observed_ids h.
Proof.
  intros Hl Hd. unfold observed_ids. apply elem_of_list_to_set, list_elem_of_omap.
  exists (l, o). split; [by apply elem_of_map_to_list | done].
Qed.

Lemma unseen_mono h seen seen' : seen ⊆ seen' → unseen h seen' ≤ unseen h seen.
Proof. intros Hs. apply subseteq_size. set_solver. Qed.

Lemma unseen_add h seen d :
  d ∈ observed_ids h → d ∉ seen → unseen h ({[d]} ∪ seen) < unseen h seen.
Proof. intros Hd Hn. apply subset_size. set_solver. Qed.

Lemma depth_lt_bound rank h val : depth_of rank h val < rank_bound rank h.
Proof.
  unfold depth_of, rank_bound. destruct val as [| | | | | |l]; try lia.
  destruct (h !! l) as [o|] eqn:Hl; [|lia].
  enough (rank l ≤ max_list (rank <$> (map_to_list h).*1)) by lia.
  apply max_list_elem_of_le, list_elem_of_fmap. exists l. split; [done|].
  apply list_elem_of_fmap. exists (l, o). split; [done|].
  by apply elem_of_map_to_list.
Qed.

Lemma child_at_children o i k v : child_at o i = Some (k, v) → v ∈ children o.
Proof.
  unfold child_at, children. destruct (body o) as [elems|props].
  - destruct (elems !! i) as [x|] eqn:Hx; [|done]. intros [= _ <-].
    by eapply list_elem_of_lookup_2.
  - destruct (keys props !! i) as [x|] eqn:Hx; [|done]. intros [= _ <-].
    apply list_elem_of_fmap. exists x. split; [done|].
    by eapply list_elem_of_lookup_2.
Qed.

Lemma deref_lookup h l o : h !! l = Some o → deref h l = o.
Proof. unfold deref. by intros ->. Qed.

Section Termination.
Variable h : Heap.
Variable rank : loc → nat.
Hypothesis Hrank :
  ∀ l o l', h !! l = Some o → open_object o = true → __ob__ o = None →
            VRef l' ∈ children o → rank l' < rank l.

(** With a depth of [enough_fuel] the traversal returns. *)
Lemma _traverse_terminates fuel val a :
  enough_fuel rank h val a.1 ≤ fuel →
  ∃ a', _traverse fuel h val a = Some a' ∧ a.1 ⊆ a'.1.
Proof using Hrank.
  unfold enough_fuel. revert val a.
  induction fuel as [|fuel IH]; intros val a Hfuel; [lia|].
  rewrite _traverse_unfold.
  destruct val as [| | | | | |l]; try (by exists a). cbv zeta.
  destruct (open_object (deref h l)) eqn:Hopen; [|by exists a].
  (* the loop, once every call it makes is known to return *)
  assert (Hloop : ∀ b : Acc,
    (∀ (c : Acc) v, b.1 ⊆ c.1 → v ∈ children (deref h l) →
            unseen h c.1 * rank_bound rank h + depth_of rank h v < fuel) →
    ∃ b', descend (_traverse fuel h) l (deref h l) b = Some b' ∧ b.1 ⊆ b'.1).
  { intros b Hcalls. rewrite descend_unfold.
    apply (while_dec_terminates (fun c => b.1 ⊆ c.1)); [|done].
    intros i c _ Hc. destruct (child_at _ i) as [[k v]|] eqn:Hchild; [|by exists c].
    destruct (IH v (c.1, c.2 ++ [Read l k])) as (c' & -> & Hc').
    { simpl. specialize (Hcalls c v Hc (child_at_children _ _ _ _ Hchild)). lia. }
    exists c'. split; [done|]. etrans; done. }
  pose proof (depth_lt_bound rank h) as Hbound.
  destruct (h !! l) as [o|] eqn:Hl.
  - rewrite (deref_lookup _ _ _ Hl) in *.
    simpl in Hfuel. rewrite Hl in Hfuel.
    destruct (__ob__ o) as [d|] eqn:Hob.
    + case_bool_decide as Hd; [by exists a|].
      destruct (Hloop ({[d]} ∪ a.1, a.2 ++ [SeenAdd d])) as (b' & -> & Hb').
      { intros c v Hc _. simpl in Hc.
        pose proof (unseen_mono h _ _ Hc).
        pose proof (unseen_add h a.1 d (observed_ids_elem _ _ _ _ Hl Hob) Hd).
        specialize (Hbound v). nia. }
      exists b'. split; [done|]. simpl in Hb'. set_solver.
    + apply Hloop. intros c v Hc Hv.
      pose proof (unseen_mono h _ _ Hc).
      assert (depth_of rank h v < S (rank l)).
      { unfold depth_of. destruct v as [| | | | | |l']; try lia.
        destruct (h !! l'); [|lia].
        specialize (Hrank l o l' Hl Hopen Hob Hv). lia. }
      nia.
  - unfold deref. rewrite Hl. simpl. rewrite descend_unfold. simpl. by exists a.
Qed.

End Termination.

(** **** Cycle safety *)

Lemma count_seen_adds d tr : count_of (SeenAdd d) tr = count_of d (seen_adds tr).
Proof.
  induction tr as [|e tr IH]; [done|].
  rewrite count_of_cons. destruct e as [d'|l k]; simpl.
  - rewrite count_of_cons, IH. by repeat case_decide; simplify_eq.
  - exact IH.
Qed.

(** C7.  When every cycle of references passes through an object with an
    observation record, a top-level [traverse] of any value returns (for
    every bound on the depth from some bound on, and with the same log);
    no dep id is added to the visited set twice, so the children of the
    objects carrying one dep id are traversed at most once; each child of
    an object with an observation record is read at most once; and
    [seenObjects] is empty when [traverse] returns, whatever it held
    before. *)
Theorem traverse_terminates_once_and_clears
    (h : Heap) (val : JsVal) (seenObjects : gset nat) :
  acyclic_outside_observed h →
  ∃ fuel tr,
    (∀ fuel', fuel ≤ fuel' → traverse fuel' h val seenObjects = Some (∅, tr)) ∧
    NoDup (seen_adds tr) ∧
    (∀ d, d ∈ seen_adds tr → d ∉ seenObjects) ∧
    (∀ l d k, __ob__ (deref h l) = Some d → count_of (Read l k) tr ≤ 1).
Proof.
  intros [rank Hrank].
  set (fuel := enough_fuel rank h val seenObjects).
  destruct (_traverse_terminates h rank Hrank fuel val (seenObjects, []))
    as ([seen' tr] & Hrun & _); [done|].
  destruct (_traverse_grows _ _ _ _ _ Hrun) as (delta & Htr & _ & Hnd & Hfresh).
  destruct (_traverse_balanced _ _ _ _ _ Hrun) as (delta' & Htr' & Hbal).
  simpl in *. subst tr. subst delta'.
  exists fuel, delta. split_and!; try done.
  - intros fuel' Hle. unfold traverse.
    by rewrite (_traverse_fuel_mono fuel fuel' _ _ _ _ Hle Hrun).
  - intros l d k Hob. etrans; [by eapply Hbal|].
    rewrite count_seen_adds. by apply count_of_NoDup.
Qed.

Lemma cyclic_heap_acyclic_outside_observed :
  acyclic_outside_observed Examples.cyclic_heap.
Proof.
  exists (fun _ => 0). intros l o l' Hl _ Hob.
  unfold Examples.cyclic_heap in Hl.
  apply lookup_insert_Some in Hl as [[_ <-]|[_ Hl]]; [done|].
  by apply lookup_singleton_Some in Hl as [_ <-].
Qed.

Lemma traverse_terminates_once_and_clears_witness :
  ∃ fuel tr,
    traverse fuel Examples.cyclic_heap (VRef 0) ∅ = Some (∅, tr) ∧
    NoDup (seen_adds tr).
Proof.
  destruct (traverse_terminates_once_and_clears Examples.cyclic_heap (VRef 0) ∅
              cyclic_heap_acyclic_outside_observed)
    as (fuel & tr & Hrun & Hnd & _).
  exists fuel, tr. split; [by apply Hrun | exact Hnd].
Defined.

(** What the traversal of the cyclic example reads. *)
Example traverse_cyclic_heap :
  traverse 3 Examples.cyclic_heap (VRef 0) ∅
  = Some (∅, [SeenAdd 5; Read 0 (Idx 2); Read 0 (Idx 1); SeenAdd 6;
              Read 1 (Name "back"); Read 1 (Name "x"); Read 0 (Idx 0)]).
Proof. by vm_compute. Qed.

(** Without an observation record on the cycle the traversal does not
    return within any depth. *)
Lemma traverse_unobserved_cycle fuel :
  traverse fuel Examples.unobserved_cycle (VRef 0) ∅ = None.
Proof.
  unfold traverse.
  enough (∀ a, _traverse fuel Examples.unobserved_cycle (VRef 0) a = None) as ->
    by done.
  induction fuel as [|fuel IH]; intros a; [done|].
  rewrite _traverse_unfold. cbv zeta. unfold deref, Examples.unobserved_cycle.
  rewrite lookup_singleton_eq. simpl. unfold descend. simpl.
  fold Examples.unobserved_cycle. by rewrite IH.
Qed.

(** **** Leaves and children *)



(** **** The traversal that is cut off *)

Lemma while_dec_upto_spec n (body : nat → Acc → option Acc)
    (body' : nat → Acc → Acc * bool) a :
  (∀ i b, body i b = if (body' i b).2 then Some (body' i b).1 else None) →
  while_dec n body a
  = if (while_dec_upto n body' a).2 then Some (while_dec_upto n body' a).1 else None.
Proof.
  intros Hbody. revert a. induction n as [|n IH]; intros a; [done|].
  simpl. rewrite Hbody. destruct (body' n a) as [b []]; simpl; [apply IH|done].
Qed.

(** [_traverse_upto] returns exactly when [_traverse] does, and then with
    the same state. *)
Lemma _traverse_upto_spec fuel h val a :
  _traverse fuel h val a
  = if (_traverse_upto fuel h val a).2
    then Some (_traverse_upto fuel h val a).1 else None.
Proof.
  revert val a. induction fuel as [|fuel IH]; intros val a; [done|].
  simpl. destruct (is_leaf h val); [done|].
  destruct val as [| | | | | |l]; try done.
  assert (Hdesc : ∀ b,
    descend (_traverse fuel h) l (deref h l) b
    = if (descend_upto (_traverse_upto fuel h) l (deref h l) b).2
      then Some (descend_upto (_traverse_upto fuel h) l (deref h l) b).1 else None).
  { intros b. unfold descend, descend_upto.
    destruct (body (deref h l)) as [elems|props]; apply while_dec_upto_spec.
    - intros i c. apply IH.
    - intros i c. destruct (keys props !! i); [apply IH|done]. }
  destruct (__ob__ (deref h l)) as [d|]; [|apply Hdesc].
  case_bool_decide; [done|apply Hdesc].
Qed.

Lemma traverse_upto_spec fuel h val seenObjects :
  traverse fuel h val seenObjects
  = if (traverse_upto fuel h val seenObjects).2
    then Some (traverse_upto fuel h val seenObjects).1 else None.
Proof.
  unfold traverse, traverse_upto. rewrite _traverse_upto_spec.
  by destruct (_traverse_upto fuel h val (seenObjects, [])) as [[seen tr] []].
Qed.

Lemma traverse_upto_returns fuel h val seenObjects :
  (traverse_upto fuel h val seenObjects).2 = true ↔
  ∃ tr, traverse fuel h val seenObjects = Some (∅, tr).
Proof.
  rewrite traverse_upto_spec. unfold traverse_upto.
  destruct (_traverse_upto fuel h val (seenObjects, [])) as [[seen tr] []]; simpl.
  - split; [by eexists|done].
  - split; [done|by intros [? ?]].
Qed.






(** **** Cycles without observation records *)

Lemma children_child_at o v :
  v ∈ children o → ∃ i k, i < length (children o) ∧ child_at o i = Some (k, v).
Proof.
  unfold child_at, children. destruct (body o) as [elems|props].
  - intros [i Hi]%list_elem_of_lookup_1. exists i, (Idx i).
    split; [by eapply lookup_lt_Some | by rewrite Hi].
  - intros (x & -> & [i Hi]%list_elem_of_lookup_1)%list_elem_of_fmap.
    exists i, (Name x). rewrite length_fmap.
    split; [by eapply lookup_lt_Some | by rewrite Hi].
Qed.

Lemma while_dec_stuck n body i a :
  i < n → (∀ b, body i b = None) → while_dec n body a = None.
Proof.
  intros Hi Hbody. revert a. induction n as [|n IH]; intros a; [lia|].
  simpl. destruct (decide (i = n)) as [->|Hne].
  - by rewrite Hbody.
  - destruct (body n a) as [b|]; [|done]. simpl. apply IH. lia.
Qed.

(** From an object of an [unobserved_loop] no call returns. *)
Lemma _traverse_unobserved_loop h (C : loc → Prop) l fuel a :
  unobserved_loop h C → C l → _traverse fuel h (VRef l) a = None.
Proof.
  intros Hloop. revert l a. induction fuel as [|fuel IH]; intros l a Hl; [done|].
  destruct (Hloop l Hl) as (Hopen & Hob & l' & Hl' & Hchild).
  rewrite _traverse_unfold. cbv zeta. rewrite Hopen, Hob, descend_unfold.
  destruct (children_child_at _ _ Hchild) as (i & k & Hi & Hat).
  apply (while_dec_stuck _ _ i); [done|].
  intros b. rewrite Hat. by apply IH.
Qed.

End TraverseFacts.

(* ===================================================================== *)
(** ** Properties of the watcher *)
(* ===================================================================== *)

Module WatchFacts.
Import Watch.
Local Open Scope js_scope.

(** Well-formedness of a concrete state, by evaluation. *)
Ltac wf_by_compute :=
  unfold wf; vm_compute; split_and!; solve [ discriminate | eexists; reflexivity ].

(** A decidable fact about concrete data, by evaluation. *)
Ltac by_compute := apply (bool_decide_unpack _); vm_compute; reflexivity.

(** **** The dependency-registration step *)

Lemma newly_added_fresh seen ds d :
  d ∈ newly_added seen ds → d ∈ ds ∧ Dep.id d ∉ seen.
Proof.
  revert seen. induction ds as [|x ds IH]; intros seen; simpl.
  - by intros ?%elem_of_nil.
  - case_bool_decide as Hx.
    + intros [? ?]%IH. split; [by right | done].
    + intros [->|Hd]%elem_of_cons.
      * split; [by left | done].
      * apply IH in Hd as [? ?]. split; [by right | set_solver].
Qed.

Lemma newly_added_NoDup seen ds : NoDup (Dep.id <$> newly_added seen ds).
Proof.
  revert seen. induction ds as [|x ds IH]; intros seen; simpl.
  - constructor.
  - case_bool_decide as Hx; [apply IH|].
    rewrite fmap_cons. constructor; [|apply IH].
    intros (d & Hid & Hd)%list_elem_of_fmap.
    apply newly_added_fresh in Hd as [_ Hd]. set_solver.
Qed.

Lemma newly_added_ids seen ds :
  seen ∪ list_to_set (Dep.id <$> newly_added seen ds)
  = seen ∪ list_to_set (Dep.id <$> ds).
Proof.
  revert seen. induction ds as [|x ds IH]; intros seen; simpl; [done|].
  case_bool_decide as Hx.
  - rewrite IH. set_solver.
  - simpl. specialize (IH ({[Dep.id x]} ∪ seen)). set_solver.
Qed.

Lemma addDep_step d s :
  wf s →
  ∃ s', addDep d s = (Ok tt, s') ∧ wf s' ∧ same_frame s s' ∧
        dependencyIds s' = dependencyIds s ∧
        dependencies s' = dependencies s ∧
        pendingIds s' = {[Dep.id d]} ∪ pendingIds s ∧
        pending s' = pending s ++ newly_added (pendingIds s) [d] ∧
        calls_since s s'
          (addSub <$> not_among (dependencyIds s) (newly_added (pendingIds s) [d])).
Proof.
  intros (Hs & Ha & [x Hx] & [y Hy] & [u Hu] & [v Hv]).
  unfold addDep, bind, getThis, readSet, updSet, updArray, call, ret.
  simpl. fold (pendingIds s). case_bool_decide as Hin.
  - exists s. unfold calls_since, not_among. rewrite filter_nil. simpl.
    rewrite !app_nil_r. repeat split; eauto. set_solver.
  - simpl. rewrite lookup_alter_ne by done. fold (dependencyIds s).
    unfold not_among. rewrite filter_cons, filter_nil.
    case_bool_decide as Hc; case_decide; try done; (eexists; split; [done|]);
      unfold wf, same_frame, same_env, dependencyIds, dependencies, pendingIds,
        pending, calls_since; simpl;
      rewrite ?lookup_alter_eq, ?lookup_alter_ne, ?dom_alter_L, ?Hx, ?Hy, ?Hu, ?Hv
        by done; simpl; rewrite ?app_nil_r; repeat split; eauto.
Qed.

Lemma same_env_refl s : same_env s s.
Proof. by repeat split. Qed.

Lemma same_env_trans s1 s2 s3 :
  same_env s1 s2 → same_env s2 s3 → same_env s1 s3.
Proof.
  intros (?&?&?&?&?&?&?) (?&?&?&?&?&?&?).
  repeat split; congruence.
Qed.

Lemma same_frame_refl s : same_frame s s.
Proof. split; [done | apply same_env_refl]. Qed.

Lemma same_frame_trans s1 s2 s3 :
  same_frame s1 s2 → same_frame s2 s3 → same_frame s1 s3.
Proof.
  intros [? ?] [? ?]. split; [congruence | by eapply same_env_trans].
Qed.

Lemma calls_since_trans s1 s2 s3 new1 new2 :
  calls_since s1 s2 new1 → calls_since s2 s3 new2 →
  calls_since s1 s3 (new1 ++ new2).
Proof. unfold calls_since. intros H1 H2. by rewrite H2, H1, app_assoc. Qed.

Lemma newly_added_cons seen d ds :
  newly_added seen (d :: ds)
  = newly_added seen [d] ++ newly_added ({[Dep.id d]} ∪ seen) ds.
Proof.
  simpl. case_bool_decide as Hd; simpl; [|done].
  by replace ({[Dep.id d]} ∪ seen) with seen by set_solver.
Qed.

Lemma not_among_app ids ds1 ds2 :
  not_among ids (ds1 ++ ds2) = not_among ids ds1 ++ not_among ids ds2.
Proof. apply filter_app. Qed.

(** A run of [addDep] over [ds]: the whole effect, in terms of the
    contents of the containers. *)
Lemma addDep_all ds s :
  wf s →
  ∃ s', for_each ds addDep s = (Ok tt, s') ∧ wf s' ∧ same_frame s s' ∧
        dependencyIds s' = dependencyIds s ∧
        dependencies s' = dependencies s ∧
        pendingIds s' = pendingIds s ∪ list_to_set (Dep.id <$> ds) ∧
        pending s' = pending s ++ newly_added (pendingIds s) ds ∧
        calls_since s s'
          (addSub <$> not_among (dependencyIds s) (newly_added (pendingIds s) ds)).
Proof.
  revert s. induction ds as [|d ds IH]; intros s Hwf.
  - exists s. simpl. unfold ret, calls_since, not_among. simpl.
    rewrite !app_nil_r.
    repeat split; eauto; try apply Hwf. set_solver.
  - destruct (addDep_step d s Hwf)
      as (s1 & Hrun & Hwf1 & Hf1 & Hci1 & Hc1 & Hpi1 & Hp1 & Hcalls1).
    destruct (IH s1 Hwf1)
      as (s2 & Hrun2 & Hwf2 & Hf2 & Hci2 & Hc2 & Hpi2 & Hp2 & Hcalls2).
    exists s2. simpl for_each. unfold bind at 1. rewrite Hrun, Hrun2.
    split; [done|]. split; [done|].
    split; [by eapply same_frame_trans|].
    split; [congruence|]. split; [congruence|].
    split; [rewrite Hpi2, Hpi1; set_solver|].
    rewrite newly_added_cons, not_among_app, fmap_app.
    split.
    + rewrite Hp2, Hp1, Hpi1. by rewrite app_assoc.
    + eapply calls_since_trans; [done|]. by rewrite <-Hpi1, <-Hci1.
Qed.

Lemma pending_consistent_extend s s' ds :
  pending_consistent s →
  pendingIds s' = pendingIds s ∪ list_to_set (Dep.id <$> ds) →
  pending s' = pending s ++ newly_added (pendingIds s) ds →
  pending_consistent s'.
Proof.
  intros [Hnd Hids] Hpi Hp. unfold pending_consistent.
  rewrite Hp, Hpi, fmap_app, list_to_set_app_L, <-Hids. split.
  - apply NoDup_app. split; [done|]. split; [|apply newly_added_NoDup].
    intros i Hi (d & -> & Hd)%list_elem_of_fmap.
    apply newly_added_fresh in Hd as [_ Hd].
    apply Hd. rewrite Hids. by apply elem_of_list_to_set.
  - by rewrite newly_added_ids.
Qed.

(** **** Loops that only make calls *)

Lemma app_nil_r_emit s : emit [] s = s.
Proof. destruct s. unfold emit, with_calls. simpl. by rewrite app_nil_r. Qed.

Lemma with_calls_id s : with_calls (fun _ => calls s) s = s.
Proof. by destruct s. Qed.

(** A loop whose body only appends calls appends them from the last index
    to the first. *)
Lemma while_dec_emit n body (F : nat → list Call) s :
  (∀ i cs, i < n →
     body i (with_calls (fun _ => cs) s) = (Ok tt, with_calls (fun _ => cs ++ F i) s)) →
  ∀ cs, while_dec n body (with_calls (fun _ => cs) s)
        = (Ok tt, with_calls (fun _ => cs ++ concat (F <$> reverse (seq 0 n))) s).
Proof.
  induction n as [|n IH]; intros Hbody cs.
  - simpl. by rewrite app_nil_r.
  - simpl while_dec. unfold bind. rewrite Hbody by lia.
    rewrite IH by (intros; apply Hbody; lia).
    rewrite seq_S, reverse_snoc, fmap_cons. simpl. by rewrite app_assoc.
Qed.

Lemma concat_lookup_reverse (G : Dep.t → list Call) (ds : list Dep.t) :
  concat ((fun i => match ds !! i with Some d => G d | None => [] end)
            <$> reverse (seq 0 (length ds)))
  = concat (G <$> reverse ds).
Proof.
  induction ds as [|x ds IH] using rev_ind; [done|].
  rewrite length_app. simpl. rewrite Nat.add_1_r, seq_S. simpl.
  rewrite !reverse_snoc, !fmap_cons. simpl.
  rewrite lookup_app_r, Nat.sub_diag by done. simpl. f_equal.
  rewrite <-IH. f_equal. apply list_fmap_ext.
  intros i j Hj. apply list_elem_of_lookup_2, elem_of_reverse, elem_of_seq in Hj.
  by rewrite lookup_app_l by lia.
Qed.

Lemma concat_filter_calls (c : Dep.t → Call) (ids : gset nat) (ds : list Dep.t) :
  concat ((fun d => if bool_decide (Dep.id d ∈ ids) then [] else [c d]) <$> ds)
  = c <$> not_among ids ds.
Proof.
  unfold not_among. induction ds as [|d ds IH]; [done|].
  rewrite fmap_cons, filter_cons. simpl.
  case_bool_decide; case_decide; try done; simpl; by rewrite IH.
Qed.

Lemma concat_singletons (c : Dep.t → Call) (ds : list Dep.t) :
  concat ((fun d => [c d]) <$> ds) = c <$> ds.
Proof. induction ds as [|d ds IH]; [done|]. rewrite !fmap_cons. simpl. by f_equal. Qed.

(** A loop over [this.deps] that calls [c dep] for the deps that pass
    [keep], and does nothing else. *)
Lemma deps_loop (c : Dep.t → Call) (keep : State → Dep.t → bool) body s :
  (∀ i s0, body i s0 =
     match dependencies s0 !! i with
     | Some dep => if keep s0 dep then (Ok tt, emit [c dep] s0) else (Ok tt, s0)
     | None => (Ok tt, s0)
     end) →
  (∀ cs d, keep (with_calls (fun _ => cs) s) d = keep s d) →
  while_dec (length (dependencies s)) body s
  = (Ok tt, emit (c <$> filter (fun d => keep s d) (reverse (dependencies s))) s).
Proof.
  intros Hbody Hkeep.
  rewrite <-(with_calls_id s) at 2.
  rewrite (while_dec_emit _ _
    (fun i => match dependencies s !! i with
              | Some d => if keep s d then [c d] else []
              | None => []
              end)).
  - f_equal. change (with_calls (fun _ => calls s ++ ?X) s) with (emit X s).
    f_equal.
    rewrite (concat_lookup_reverse (fun d => if keep _ d then [c d] else [])).
    induction (reverse _) as [|d l IH]; [done|].
    rewrite fmap_cons, filter_cons. simpl.
    destruct (keep _ d); case_decide; try done; simpl; by rewrite IH.
  - intros i cs _. rewrite Hbody.
    change (dependencies (with_calls _ s)) with (dependencies s).
    destruct (dependencies s !! i) as [d|]; [|by rewrite app_nil_r].
    rewrite Hkeep. destruct (keep s d); [done|by rewrite app_nil_r].
Qed.

Lemma cleanupDeps_step s :
  wf s →
  ∃ s', cleanupDeps s = (Ok tt, s') ∧ wf s' ∧
        this s' = swap_buffers (this s) ∧ same_env s s' ∧
        dependencyIds s' = pendingIds s ∧
        dependencies s' = pending s ∧
        pendingIds s' = ∅ ∧
        pending s' = [] ∧
        calls_since s s'
          (removeSub <$> not_among (pendingIds s) (reverse (dependencies s))).
Proof.
  intros (Hs & Ha & [x Hx] & [y Hy] & [u Hu] & [v Hv]).
  unfold cleanupDeps. unfold bind at 1. unfold getThis at 1.
  unfold bind at 1. unfold readArray at 1. fold (dependencies s).
  unfold bind at 1.
  rewrite (deps_loop removeSub
             (fun s0 d => negb (bool_decide (Dep.id d ∈ pendingIds s0)))).
  2:{ intros i s0. unfold bind, getThis, readArray, readSet, call, ret, emit.
      fold (dependencies s0). destruct (dependencies s0 !! i); [|done].
      fold (pendingIds s0). by case_bool_decide. }
  2:{ done. }
  eexists. split; [reflexivity|].
  unfold wf, same_env, dependencyIds, dependencies, pendingIds, pending,
    calls_since, emit, not_among; simpl.
  rewrite ?lookup_alter_eq, ?lookup_alter_ne, ?dom_alter_L, ?Hx, ?Hy, ?Hu, ?Hv
    by done; simpl.
  repeat split; eauto.
  f_equal. f_equal. apply list_filter_iff. intros d.
  by rewrite negb_True, bool_decide_spec.
Qed.

(** **** Evaluate-and-track *)

Lemma newly_added_app seen ds1 ds2 :
  newly_added seen (ds1 ++ ds2)
  = newly_added seen ds1 ++ newly_added (seen ∪ ids_of ds1) ds2.
Proof.
  revert seen. induction ds1 as [|d ds1 IH]; intros seen.
  - simpl. unfold ids_of. simpl. by rewrite (right_id_L ∅ (∪)).
  - rewrite <-app_comm_cons, newly_added_cons, IH, (newly_added_cons seen d ds1).
    rewrite <-app_assoc. do 3 f_equal. unfold ids_of. set_solver.
Qed.

(** What does not touch [seenObjects]. *)
Lemma addDep_seen d s : seenObjects (addDep d s).2 = seenObjects s.
Proof.
  unfold addDep, bind, getThis, readSet, updSet, updArray, call, ret. simpl.
  case_bool_decide; [done|]. simpl. by case_bool_decide.
Qed.

Lemma addDep_all_seen ds s : seenObjects (for_each ds addDep s).2 = seenObjects s.
Proof.
  revert s. induction ds as [|d ds IH]; intros s; [done|].
  simpl. unfold bind. pose proof (addDep_seen d s) as Hd.
  destruct (addDep d s) as [[[]|e] s1]; simpl in Hd; [|done].
  by rewrite IH.
Qed.

Lemma cleanupDeps_seen s : seenObjects (cleanupDeps s).2 = seenObjects s.
Proof.
  unfold cleanupDeps. unfold bind at 1. unfold getThis at 1.
  unfold bind at 1. unfold readArray at 1. fold (dependencies s).
  unfold bind at 1.
  rewrite (deps_loop removeSub
             (fun s0 d => negb (bool_decide (Dep.id d ∈ pendingIds s0)))).
  2:{ intros i s0. unfold bind, getThis, readArray, readSet, call, ret, emit.
      fold (dependencies s0). destruct (dependencies s0 !! i); [|done].
      fold (pendingIds s0). by case_bool_decide. }
  2:{ done. }
  done.
Qed.

(** The traversal of [undefined], and of every value that is not an
    object, reads nothing and returns. *)
Lemma traverse_upto_non_object fuel h val seen :
  (∀ l, val ≠ VRef l) →
  Traverse.traverse_upto (S fuel) h val seen = ((∅, []), true).
Proof.
  intros Hval. unfold Traverse.traverse_upto. simpl.
  destruct val; try done. by destruct (Hval l).
Qed.

Lemma returns_exn s g e : outcome g = Exn e → returns s g = true.
Proof.
  intros He. unfold returns, traversal, traversal_of, evaluated. rewrite He.
  destruct (deep (this s)); [|done]. by rewrite traverse_upto_non_object.
Qed.

Lemma touched_exn s g e : outcome g = Exn e → touched s g = [].
Proof.
  intros He. unfold touched, traversal, traversal_of, evaluated. rewrite He.
  destruct (deep (this s)); [|done]. by rewrite traverse_upto_non_object.
Qed.

Lemma returns_shallow s g : deep (this s) = false → returns s g = true.
Proof. intros Hd. unfold returns, traversal, traversal_of. by rewrite Hd. Qed.

Lemma touched_shallow s g : deep (this s) = false → touched s g = [].
Proof. intros Hd. unfold touched, traversal, traversal_of. by rewrite Hd. Qed.

Lemma get_result_returns s g v : get_result s g = Ok v → returns s g = true.
Proof.
  unfold get_result. destruct (outcome g) as [v'|e] eqn:Ho.
  - by destruct (returns s g).
  - intros _. by eapply returns_exn.
Qed.

(** The traversal depends on the state through [deep] and [seenObjects]. *)
Lemma traversal_ext s s' g :
  deep (this s') = deep (this s) → seenObjects s' = seenObjects s →
  traversal s' g = traversal s g.
Proof. intros Hd Hs. unfold traversal. by rewrite Hd, Hs. Qed.

(** The deps registered in the finally block of [get]. *)
Lemma traverse_step g s :
  wf s →
  ∃ s', (let* w := getThis in
         if deep w then call_traverse g (evaluated g) else ret tt) s
        = (if returns s g then Ok tt else Exn RangeError, s') ∧
        wf s' ∧ same_frame s s' ∧
        seenObjects s' = (traversal s g).1.1 ∧
        dependencyIds s' = dependencyIds s ∧
        dependencies s' = dependencies s ∧
        pendingIds s' = pendingIds s ∪ ids_of (touched s g) ∧
        pending s' = pending s ++ newly_added (pendingIds s) (touched s g) ∧
        calls_since s s'
          (if deep (this s)
           then traverse (evaluated g)
                :: (addSub <$> not_among (dependencyIds s)
                      (newly_added (pendingIds s) (touched s g)))
           else []).
Proof.
  intros Hwf. unfold bind at 1, getThis at 1.
  unfold returns, touched, traversal, traversal_of. destruct (deep (this s)) eqn:Hdeep.
  - unfold call_traverse. unfold bind at 1, call at 1.
    unfold bind at 1, getSeen at 1.
    change (seenObjects (with_calls _ s)) with (seenObjects s).
    set (r := Traverse.traverse_upto _ _ _ _).
    destruct (addDep_all (deps_read g r.1.2) (emit [traverse (evaluated g)] s) Hwf)
      as (s' & Hrun & Hwf' & [Hthis Henv] & Hci & Hc & Hpi & Hp & Hcalls).
    pose proof (addDep_all_seen (deps_read g r.1.2) (emit [traverse (evaluated g)] s))
      as Hseen.
    unfold emit in Hrun, Hseen. unfold bind at 1. rewrite Hrun in *. simpl in Hseen.
    unfold bind, setSeen.
    exists (with_seenObjects r.1.1 s'). split.
    { by destruct r.2. }
    split_and!; try done.
    unfold calls_since in *. simpl. rewrite Hcalls. simpl. by rewrite <-app_assoc.
  - exists s. unfold ret, calls_since, ids_of, deps_read. simpl. rewrite !app_nil_r.
    split_and!; try done; try apply same_frame_refl. all: set_solver.
Qed.

(** One [get], whether or not its traversal returns. *)
Lemma get_step_gen g s :
  wf s →
  ∃ s', get g s = (get_result s g, s') ∧ wf s' ∧
        seenObjects s' = (traversal s g).1.1 ∧
        calls_since s s' (get_calls g s) ∧
        _watcher s' = _watcher s ∧ _watchers s' = _watchers s ∧
        _isBeingDestroyed s' = _isBeingDestroyed s ∧ uid s' = uid s ∧
        dom (sets s') = dom (sets s) ∧ dom (arrays s') = dom (arrays s) ∧
        if returns s g
        then this s' = swap_buffers (this s) ∧
             targetStack s' = targetStack s ∧
             dependencyIds s' = pendingIds s ∪ ids_of (registered s g) ∧
             dependencies s' = pending s ++ newly_added (pendingIds s) (registered s g) ∧
             pendingIds s' = ∅ ∧
             pending s' = []
        else this s' = this s ∧
             targetStack s' = id (this s) :: targetStack s ∧
             dependencyIds s' = dependencyIds s ∧
             dependencies s' = dependencies s ∧
             pendingIds s' = pendingIds s ∪ ids_of (registered s g) ∧
             pending s' = pending s ++ newly_added (pendingIds s) (registered s g).
Proof.
  intros Hwf. unfold get. unfold bind at 1, getThis at 1.
  unfold bind at 1, pushTarget at 1.
  set (s0 := with_targetStack (cons (id (this s))) s).
  (* the evaluator *)
  destruct (addDep_all (reads g) (emit [getter_call] s0) Hwf)
    as (s1 & Hrun1 & Hwf1 & [Hthis1 Henv1] & Hci1 & Hc1 & Hpi1 & Hp1 & Hcalls1).
  pose proof (addDep_all_seen (reads g) (emit [getter_call] s0)) as Hseen1.
  rewrite Hrun1 in Hseen1.
  change (seenObjects s1 = seenObjects s) in Hseen1.
  change (this s1 = this s) in Hthis1.
  change (dependencyIds s1 = dependencyIds s) in Hci1.
  change (dependencies s1 = dependencies s) in Hc1.
  change (pendingIds s1 = pendingIds s ∪ ids_of (reads g)) in Hpi1.
  change (pending s1 = pending s ++ newly_added (pendingIds s) (reads g)) in Hp1.
  change (calls s1 = (calls s ++ [getter_call])
            ++ (addSub <$> not_among (dependencyIds s)
                  (newly_added (pendingIds s) (reads g)))) in Hcalls1.
  (* the catch clause *)
  set (s2 := emit (getter_report (this s) g) s1).
  assert (Hwf2 : wf s2) by exact Hwf1.
  assert (Htr : traversal s2 g = traversal s g).
  { apply traversal_ext; [by change (this s2) with (this s1); rewrite Hthis1|exact Hseen1]. }
  (* the finally block *)
  destruct (traverse_step g s2 Hwf2)
    as (s3 & Hrun3 & Hwf3 & [Hthis3 Henv3] & Hseen3 & Hci3 & Hc3 & Hpi3 & Hp3 & Hcalls3).
  unfold returns, touched in Hrun3, Hpi3, Hp3, Hcalls3. rewrite Htr in *.
  fold (returns s g) in Hrun3. fold (touched s g) in Hpi3, Hp3, Hcalls3.
  change (this s3 = this s1) in Hthis3.
  change (dependencyIds s3 = dependencyIds s1) in Hci3.
  change (dependencies s3 = dependencies s1) in Hc3.
  change (pendingIds s2) with (pendingIds s1) in *.
  change (pending s2) with (pending s1) in *.
  change (dependencyIds s2) with (dependencyIds s1) in *.
  change (this s2) with (this s1) in *.
  unfold calls_since in Hcalls3.
  change (calls s2) with (calls s1 ++ getter_report (this s) g) in Hcalls3.
  rewrite Hthis1, Hpi1, Hci1 in *.
  assert (Hreg : pendingIds s3 = pendingIds s ∪ ids_of (registered s g)).
  { rewrite Hpi3. unfold registered, ids_of. rewrite fmap_app, list_to_set_app_L.
    by rewrite (assoc_L (∪)). }
  assert (Hregl : pending s3 = pending s ++ newly_added (pendingIds s) (registered s g)).
  { rewrite Hp3, Hp1. unfold registered. by rewrite newly_added_app, <-app_assoc. }
  set (s4 := with_targetStack (drop 1) s3).
  destruct (cleanupDeps_step s4 Hwf3)
    as (s5 & Hrun5 & Hwf5 & Hthis5 & Henv5 & Hci5 & Hc5 & Hpi5 & Hp5 & Hcalls5).
  pose proof (cleanupDeps_seen s4) as Hseen5. rewrite Hrun5 in Hseen5.
  change (seenObjects s5 = seenObjects s3) in Hseen5.
  change (this s5 = swap_buffers (this s3)) in Hthis5.
  change (dependencyIds s5 = pendingIds s3) in Hci5.
  change (dependencies s5 = pending s3) in Hc5.
  change (calls s5 = calls s3
            ++ (removeSub <$> not_among (pendingIds s3) (reverse (dependencies s3))))
    in Hcalls5.
  destruct Henv1 as (?&?&?&Hts1&?&?&?), Henv3 as (?&?&?&Hts3&?&?&?),
    Henv5 as (?&?&?&Hts5&?&?&?).
  simpl in *.
  assert (Hfin : (let* w := getThis in
                  (if deep w then call_traverse g (evaluated g) else ret tt) >>
                  popTarget >> cleanupDeps) s2
                 = if returns s g then (Ok tt, s5) else (Exn RangeError, s3)).
  { unfold bind at 1 in Hrun3. unfold getThis at 1 in Hrun3.
    unfold bind at 1. unfold getThis at 1. unfold bind at 1.
    rewrite Hrun3. destruct (returns s g); [|done].
    unfold bind, popTarget. exact Hrun5. }
  exists (if returns s g then s5 else s3).
  split.
  { unfold try_finally, try_catch, call_getter, get_result.
    unfold bind at 1, call at 1. unfold bind at 1.
    unfold emit in Hrun1. rewrite Hrun1.
    unfold s2, getter_report, evaluated in Hfin.
    destruct (outcome g) as [v|e] eqn:Ho; unfold ret, throw in *.
    - rewrite app_nil_r_emit in Hfin. rewrite Hfin. by destruct (returns s g).
    - rewrite (returns_exn s g e Ho) in *.
      unfold bind at 1, getThis at 1. rewrite Hthis1.
      destruct (user (this s)).
      + unfold bind at 1, call at 1. unfold emit in Hfin. by rewrite Hfin.
      + rewrite app_nil_r_emit in Hfin. by rewrite Hfin. }
  unfold calls_since, get_calls.
  destruct (returns s g) eqn:Hret.
  - split; [exact Hwf5|]. split; [by rewrite Hseen5, Hseen3|]. split.
    { rewrite Hcalls5, Hcalls3, Hcalls1, Hreg, Hc3, Hc1.
      rewrite <-!app_assoc. simpl. by do 4 f_equal. }
    split_and!; try congruence.
    by rewrite Hts5, Hts3, Hts1.
  - split; [exact Hwf3|]. split; [exact Hseen3|]. split.
    { rewrite Hcalls3, Hcalls1. rewrite <-!app_assoc. simpl.
      do 3 f_equal. by rewrite app_nil_r. }
    split_and!; congruence.
Qed.

(** What every [get] leaves alone. *)
Lemma get_any g s :
  wf s →
  ∃ s', get g s = (get_result s g, s') ∧ wf s' ∧
        calls s' = calls s ++ get_calls g s ∧
        active (this s') = active (this s) ∧
        value (this s') = value (this s) ∧
        dirty (this s') = dirty (this s) ∧
        id (this s') = id (this s) ∧
        deep (this s') = deep (this s) ∧
        user (this s') = user (this s) ∧
        lazy (this s') = lazy (this s) ∧
        sync (this s') = sync (this s) ∧
        expression (this s') = expression (this s) ∧
        seenObjects s' = (traversal s g).1.1.
Proof.
  intros Hwf.
  destruct (get_step_gen g s Hwf)
    as (s' & Hget & Hwf' & Hseen & Hcalls & _ & _ & _ & _ & _ & _ & Hcase).
  exists s'. split; [done|]. split; [done|]. split; [done|].
  destruct (returns s g); destruct Hcase as (-> & _); by split_and!.
Qed.

(** A traversal that returns leaves [seenObjects] empty, if it was. *)
Lemma traversal_returns_seen s g :
  seenObjects s = ∅ → returns s g = true → (traversal s g).1.1 = ∅.
Proof.
  unfold returns, traversal, traversal_of, Traverse.traverse_upto. intros Hs.
  destruct (deep (this s)); [|done].
  by destruct (Traverse._traverse_upto _ _ _ _) as [[? ?] []].
Qed.

Lemma returns_clean s g :
  seenObjects s = ∅ → returns s g = (traversal_of (deep (this s)) ∅ g).2.
Proof. intros Hs. unfold returns, traversal. by rewrite Hs. Qed.

(** A [get] whose traversal returns (as it does without [deep], and when
    the evaluator threw). *)
Lemma get_step g s :
  wf s → returns s g = true →
  ∃ s', get g s = (get_result s g, s') ∧ wf s' ∧
        this s' = swap_buffers (this s) ∧ same_env s s' ∧
        dependencyIds s' = pendingIds s ∪ ids_of (registered s g) ∧
        dependencies s' = pending s
          ++ newly_added (pendingIds s) (registered s g) ∧
        pendingIds s' = ∅ ∧
        pending s' = [] ∧
        calls_since s s' (get_calls g s).
Proof.
  intros Hwf Hret.
  destruct (get_step_gen g s Hwf) as (s' & Hget & Hwf' & _ & Hcalls & ? & ? & ? & ?
                                      & ? & ? & Hcase).
  rewrite Hret in Hcase. destruct Hcase as (? & ? & ? & ? & ? & ?).
  exists s'. by split_and!.
Qed.


(** **** Dependency registration *)

(** C1.  For every sequence [ds] of [addDep] calls made in one evaluation
    (from a state whose pending list and pending set agree): the run
    returns; a dep whose id is already pending leaves the state as it is;
    the pending list gains, for each id not yet pending, the first dep of
    [ds] with that id and nothing else, so no id is listed twice (I2);
    and [addSub] is called for exactly the deps that were added to the
    pending list and whose id is not in the previous dependency set, so a
    dep whose id is in the previous dependency set is never subscribed
    again (I3). *)
Theorem addDep_registers_once (s : State) (ds : list Dep.t) :
  wf s → pending_consistent s →
  ∃ s' new,
    for_each ds addDep s = (Ok tt, s') ∧
    (∀ d, Dep.id d ∈ pendingIds s' → addDep d s' = (Ok tt, s')) ∧
    pending s' = pending s ++ newly_added (pendingIds s) ds ∧
    pendingIds s' = pendingIds s ∪ ids_of ds ∧
    NoDup (Dep.id <$> pending s') ∧
    pendingIds s' = ids_of (pending s') ∧
    (∀ d, d ∈ newly_added (pendingIds s) ds → d ∈ ds ∧ Dep.id d ∉ pendingIds s) ∧
    dependencyIds s' = dependencyIds s ∧
    calls s' = calls s ++ new ∧
    (∀ c, c ∈ new → ∃ d, c = addSub d) ∧
    (∀ d, addSub d ∈ new ↔
          d ∈ newly_added (pendingIds s) ds ∧ Dep.id d ∉ dependencyIds s) ∧
    (∀ d, Dep.id d ∈ dependencyIds s → addSub d ∉ new) ∧
    NoDup new.
Proof.
  intros Hwf Hcons.
  destruct (addDep_all ds s Hwf)
    as (s' & Hrun & Hwf' & Hframe & Hci & Hc & Hpi & Hp & Hcalls).
  exists s', (addSub <$> not_among (dependencyIds s) (newly_added (pendingIds s) ds)).
  assert (Hin : ∀ d, addSub d ∈ addSub <$>
                  not_among (dependencyIds s) (newly_added (pendingIds s) ds) ↔
                d ∈ newly_added (pendingIds s) ds ∧ Dep.id d ∉ dependencyIds s).
  { intros d. rewrite list_elem_of_fmap. unfold not_among. split.
    - intros (d' & [= <-] & Hd). by apply list_elem_of_filter in Hd as [? ?].
    - intros [? ?]. exists d. split; [done|]. by apply list_elem_of_filter. }
  destruct (pending_consistent_extend s s' ds Hcons Hpi Hp) as [Hnd Hset].
  split_and!; try done.
  - intros d Hd. unfold addDep, bind, getThis, readSet. simpl.
    fold (pendingIds s'). by rewrite bool_decide_eq_true_2.
  - intros d. apply newly_added_fresh.
  - intros c (d & -> & _)%list_elem_of_fmap. by exists d.
  - intros d Hd [_ Hn]%Hin. done.
  - apply NoDup_fmap_2; [by intros ?? [= ->]|].
    apply NoDup_filter. eapply NoDup_fmap_1, newly_added_NoDup.
Qed.

Lemma mid_evaluation_wf : wf Examples.mid_evaluation.
Proof. wf_by_compute. Qed.

Lemma addDep_registers_once_witness :
  ∃ s',
    for_each [Examples.depA; Examples.depC; Examples.depB; Examples.depC] addDep
      Examples.mid_evaluation = (Ok tt, s') ∧
    pending s' = [Examples.depA; Examples.depC; Examples.depB] ∧
    calls s' = calls Examples.mid_evaluation ++ [addSub Examples.depC].
Proof.
  pose proof (addDep_registers_once Examples.mid_evaluation
                [Examples.depA; Examples.depC; Examples.depB; Examples.depC]
                mid_evaluation_wf) as Hthm.
  pose proof (addDep_all [Examples.depA; Examples.depC; Examples.depB; Examples.depC]
                Examples.mid_evaluation mid_evaluation_wf) as Hall.
  destruct Hthm
    as (s' & new & Hrun & _ & Hp & _ & _ & _ & _ & _ & Hcalls & _ & Hnew & _ & _).
  { split; [by_compute | by vm_compute]. }
  destruct Hall as (s2 & Hrun2 & _ & _ & _ & _ & _ & _ & Hc2).
  exists s'. split; [exact Hrun|]. split; [rewrite Hp; by vm_compute|].
  rewrite Hrun in Hrun2. injection Hrun2 as <-. rewrite Hc2. by vm_compute.
Defined.

(** **** Reconciliation *)

Lemma elem_of_get_calls_addSub g s d :
  addSub d ∈ get_calls g s → Dep.id d ∉ dependencyIds s.
Proof.
  unfold get_calls, getter_report, not_among.
  rewrite !elem_of_app, !list_elem_of_fmap.
  intros [Hc|[Hc|[Hc|[Hc|Hc]]]].
  - by apply list_elem_of_singleton in Hc.
  - destruct Hc as (d' & [= <-] & Hd). by apply list_elem_of_filter in Hd as [? _].
  - destruct (outcome g); [by apply elem_of_nil in Hc|].
    destruct (user _); [by apply list_elem_of_singleton in Hc | by apply elem_of_nil in Hc].
  - destruct (deep _); [|by apply elem_of_nil in Hc].
    apply elem_of_cons in Hc as [?|Hc]; [done|].
    apply list_elem_of_fmap in Hc as (d' & [= <-] & Hd).
    by apply list_elem_of_filter in Hd as [? _].
  - destruct (returns s g); [|by apply elem_of_nil in Hc].
    by apply list_elem_of_fmap in Hc as (d' & [=] & _).
Qed.

Lemma elem_of_get_calls_removeSub g s d :
  removeSub d ∈ get_calls g s ↔
  returns s g = true ∧
  d ∈ dependencies s ∧ Dep.id d ∉ pendingIds s ∪ ids_of (registered s g).
Proof.
  unfold get_calls, getter_report, not_among.
  rewrite !elem_of_app, !list_elem_of_fmap. split.
  - intros [Hc|[Hc|[Hc|[Hc|Hc]]]].
    + by apply list_elem_of_singleton in Hc.
    + by destruct Hc as (d' & [=] & _).
    + destruct (outcome g); [by apply elem_of_nil in Hc|].
      destruct (user _); [by apply list_elem_of_singleton in Hc | by apply elem_of_nil in Hc].
    + destruct (deep _); [|by apply elem_of_nil in Hc].
      apply elem_of_cons in Hc as [?|Hc]; [done|].
      by apply list_elem_of_fmap in Hc as (d' & [=] & _).
    + destruct (returns s g); [|by apply elem_of_nil in Hc]. split; [done|].
      apply list_elem_of_fmap in Hc as (d' & [= <-] & Hd).
      apply list_elem_of_filter in Hd as [? Hd]. by rewrite elem_of_reverse in Hd.
  - intros (-> & Hd & Hn). do 4 right. apply list_elem_of_fmap. exists d. split; [done|].
    apply list_elem_of_filter. split; [done | by apply elem_of_reverse].
Qed.

(** C2.  [cleanupDeps] returns, and it calls [removeSub] on exactly the
    deps of the previous dependency list whose id is not in the pending
    set (walking the list from its end) and makes no other call; then the
    dependency set and list are the former pending set and list, and the
    pending set and list are empty.  This is done by exchanging the
    references held in [this] and emptying the two objects now pending: the
    store holds the same objects as before, none is allocated.  Over a whole
    evaluation [get], a dep whose id is in the dependency set before and
    after gets neither a [removeSub] nor an [addSub] call. *)
Theorem cleanupDeps_reconciles (s : State) :
  wf s →
  ∃ s',
    cleanupDeps s = (Ok tt, s') ∧
    calls s' = calls s
      ++ (removeSub <$> not_among (pendingIds s) (reverse (dependencies s))) ∧
    (∀ d, removeSub d ∈ (removeSub <$> not_among (pendingIds s) (reverse (dependencies s)))
          ↔ d ∈ dependencies s ∧ Dep.id d ∉ pendingIds s) ∧
    dependencyIds s' = pendingIds s ∧
    dependencies s' = pending s ∧
    pendingIds s' = ∅ ∧
    pending s' = [] ∧
    depIds (this s') = newDepIds (this s) ∧
    newDepIds (this s') = depIds (this s) ∧
    deps (this s') = newDeps (this s) ∧
    newDeps (this s') = deps (this s) ∧
    dom (sets s') = dom (sets s) ∧
    dom (arrays s') = dom (arrays s) ∧
    (∀ g, ∃ r s'',
       get g s = (r, s'') ∧
       calls s'' = calls s ++ get_calls g s ∧
       (∀ d, Dep.id d ∈ dependencyIds s ∩ dependencyIds s'' →
             (addSub d ∉ get_calls g s) ∧ (removeSub d ∉ get_calls g s))).
Proof.
  intros Hwf.
  destruct (cleanupDeps_step s Hwf)
    as (s' & Hrun & Hwf' & Hthis & Henv & Hci & Hc & Hpi & Hp & Hcalls).
  exists s'. destruct Henv as (_&_&_&_&_&?&?).
  split_and!; try done; try by rewrite Hthis.
  - intros d. rewrite list_elem_of_fmap. unfold not_among. split.
    + intros (d' & [= <-] & Hd). apply list_elem_of_filter in Hd as [? Hd].
      by rewrite elem_of_reverse in Hd.
    + intros [? ?]. exists d. split; [done|].
      apply list_elem_of_filter. split; [done | by apply elem_of_reverse].
  - intros g.
    destruct (get_step_gen g s Hwf)
      as (s'' & Hget & _ & _ & Hcalls'' & _ & _ & _ & _ & _ & _ & Hcase).
    exists (get_result s g), s''. split_and!; try done.
    intros d [Hold Hnew]%elem_of_intersection. split.
    + by intros ?%elem_of_get_calls_addSub.
    + intros (Hret & _ & Hn)%elem_of_get_calls_removeSub.
      rewrite Hret in Hcase. destruct Hcase as (_ & _ & Hci'' & _).
      by rewrite Hci'' in Hnew.
Qed.

Lemma cleanupDeps_reconciles_witness :
  ∃ s',
    cleanupDeps Examples.mid_evaluation = (Ok tt, s') ∧
    calls s' = calls Examples.mid_evaluation ++ [removeSub Examples.depB] ∧
    dependencies s' = [Examples.depA] ∧
    pending s' = [].
Proof.
  destruct (cleanupDeps_reconciles Examples.mid_evaluation)
    as (s' & Hrun & Hcalls & _ & _ & Hdeps & _ & Hp & _); [wf_by_compute|].
  exists s'. split; [exact Hrun|].
  split; [rewrite Hcalls; by vm_compute|].
  split; [rewrite Hdeps; by vm_compute | exact Hp].
Defined.

(** **** Evaluate-and-track: the cleanup phase *)

(** C3, as amended.  In every execution of [get], whether the evaluator
    returns or throws, the finally block is entered: [traverse] is called
    on the value (on [undefined] after an exception) exactly when [deep] is
    set.  When that traversal returns, as it always does when the evaluator
    threw, the target stack is what it was before the push and the
    dependency set is reconciled (the pending containers are empty and the
    dependency containers hold what was registered), and [get] ends with
    the evaluator's value, with [undefined] when it threw and [user] is
    set, and with the evaluator's exception when it threw and [user] is not
    set; the error is handed to [handleError] exactly when the evaluator
    threw and [user] is set.  When the traversal is cut off, [get] throws
    from the finally block: the target is still on the stack, and the
    dependency containers are not reconciled. *)
Theorem get_cleanup_runs (g : Evaluation) (s : State) :
  wf s →
  ∃ r s',
    get g s = (r, s') ∧
    calls s' = calls s ++ get_calls g s ∧
    (∀ v, traverse v ∈ get_calls g s ↔ deep (this s) = true ∧ v = evaluated g) ∧
    (returns s g = true ↔
       deep (this s) = false ∨
       ∃ tr, Traverse.traverse (S (depth g)) (heap g) (evaluated g) (seenObjects s)
             = Some (∅, tr)) ∧
    (∀ e, outcome g = Exn e → returns s g = true) ∧
    (∀ v, outcome g = Ok v → returns s g = true → r = Ok v) ∧
    (∀ e, outcome g = Exn e → user (this s) = true →
          r = Ok VUndefined ∧
          handleError e ("getter for watcher " +:+ quoted (expression (this s)))
            ∈ get_calls g s) ∧
    (∀ e, outcome g = Exn e → user (this s) = false →
          r = Exn e ∧ ∀ e' info, handleError e' info ∉ get_calls g s) ∧
    (returns s g = true →
       targetStack s' = targetStack s ∧
       pendingIds s' = ∅ ∧
       pending s' = [] ∧
       dependencyIds s' = pendingIds s ∪ ids_of (registered s g) ∧
       dependencies s' = pending s ++ newly_added (pendingIds s) (registered s g) ∧
       (∀ d, removeSub d ∈ get_calls g s ↔
             d ∈ dependencies s ∧ Dep.id d ∉ dependencyIds s')) ∧
    (returns s g = false →
       r = Exn RangeError ∧
       targetStack s' = id (this s) :: targetStack s ∧
       dependencyIds s' = dependencyIds s ∧
       dependencies s' = dependencies s ∧
       pendingIds s' = pendingIds s ∪ ids_of (registered s g) ∧
       pending s' = pending s ++ newly_added (pendingIds s) (registered s g) ∧
       (∀ d, removeSub d ∉ get_calls g s)).
Proof.
  intros Hwf.
  destruct (get_step_gen g s Hwf)
    as (s' & Hget & _ & _ & Hcalls & _ & _ & _ & _ & _ & _ & Hcase).
  exists (get_result s g), s'.
  split; [done|]. split; [done|]. split.
  { intros v. unfold get_calls, getter_report.
    rewrite !elem_of_app, !list_elem_of_fmap. split.
    + intros [Hc'|[Hc'|[Hc'|[Hc'|Hc']]]].
      * by apply list_elem_of_singleton in Hc'.
      * by destruct Hc' as (? & [=] & _).
      * destruct (outcome g); [by apply elem_of_nil in Hc'|].
        destruct (user _); [by apply list_elem_of_singleton in Hc' | by apply elem_of_nil in Hc'].
      * destruct (deep _); [|by apply elem_of_nil in Hc'].
        apply elem_of_cons in Hc' as [[= ->]|Hc']; [done|].
        by apply list_elem_of_fmap in Hc' as (? & [=] & _).
      * destruct (returns s g); [|by apply elem_of_nil in Hc'].
        by apply list_elem_of_fmap in Hc' as (? & [=] & _).
    + intros [-> ->]. do 3 right. left. by left. }
  split.
  { unfold returns, traversal, traversal_of. destruct (deep (this s)).
    - rewrite TraverseFacts.traverse_upto_returns. split; [by right|by intros [?|?]].
    - split; [by left|done]. }
  split; [intros e He; by eapply returns_exn|].
  split.
  { intros v Hv Hret. unfold get_result. by rewrite Hv, Hret. }
  split.
  { intros e He Hu. unfold get_result, get_calls, getter_report.
    rewrite He, Hu. split; [done|].
    rewrite !elem_of_app. right; right; left. by apply list_elem_of_singleton. }
  split.
  { intros e He Hu. unfold get_result, get_calls, getter_report.
    rewrite He, Hu. split; [done|]. intros e' info.
    rewrite !elem_of_app, !list_elem_of_fmap.
    intros [Hc'|[Hc'|[Hc'|[Hc'|Hc']]]].
    + by apply list_elem_of_singleton in Hc'.
    + by destruct Hc' as (? & [=] & _).
    + by apply elem_of_nil in Hc'.
    + destruct (deep _); [|by apply elem_of_nil in Hc'].
      apply elem_of_cons in Hc' as [?|Hc']; [done|].
      by apply list_elem_of_fmap in Hc' as (? & [=] & _).
    + destruct (returns s g); [|by apply elem_of_nil in Hc'].
      by apply list_elem_of_fmap in Hc' as (? & [=] & _). }
  split.
  - intros Hret. rewrite Hret in Hcase. destruct Hcase as (_ & ? & Hci & ? & ? & ?).
    split_and!; try done.
    intros d. rewrite Hci, elem_of_get_calls_removeSub, Hret. naive_solver.
  - intros Hret. rewrite Hret in Hcase. destruct Hcase as (_ & ? & ? & ? & ? & ?).
    split_and!; try done.
    + unfold get_result. destruct (outcome g) as [v|e] eqn:Ho; [by rewrite Hret|].
      by rewrite (returns_exn s g e Ho) in Hret.
    + intros d. rewrite elem_of_get_calls_removeSub, Hret. naive_solver.
Qed.

Lemma get_cleanup_runs_witness :
  ∃ r s',
    get Examples.returns_nested Examples.user_deep_watcher = (r, s') ∧
    r = Ok (VRef 0) ∧
    targetStack s' = [] ∧
    dependencies s' = [Examples.depA; Examples.depB; Examples.depC].
Proof.
  destruct (get_cleanup_runs Examples.returns_nested Examples.user_deep_watcher)
    as (r & s' & Hget & _ & _ & _ & _ & Hok & _ & _ & Hclean & _);
    [wf_by_compute|].
  destruct Hclean as (Hstack & _ & _ & _ & Hdeps & _); [by vm_compute|].
  exists r, s'. split; [exact Hget|].
  split; [apply Hok; by vm_compute|].
  split; [rewrite Hstack; by vm_compute | rewrite Hdeps; by vm_compute].
Defined.

(** A deep watcher whose evaluator returns an object that holds, below an
    instrumented property, an object without observation record that
    refers to itself: the evaluator returns, the traversal of its value
    returns at no depth, and [get] throws with the watcher still on the
    target stack, the deps read still pending, and the dependency
    containers as they were before the evaluation. *)
Lemma get_cut_off_skips_cleanup :
  wf Examples.deep_watcher ∧
  outcome Examples.returns_cycle = Ok (VRef 0) ∧
  (∀ fuel, Traverse.traverse fuel Examples.cycle_below (VRef 0) ∅ = None) ∧
  targetStack Examples.deep_watcher = [] ∧
  pending Examples.deep_watcher = [] ∧
  (get Examples.returns_cycle Examples.deep_watcher).1 = Exn RangeError ∧
  targetStack (get Examples.returns_cycle Examples.deep_watcher).2 = [1] ∧
  pending (get Examples.returns_cycle Examples.deep_watcher).2
  = [Examples.depA; Examples.depB] ∧
  dependencies (get Examples.returns_cycle Examples.deep_watcher).2
  = dependencies Examples.deep_watcher.
Proof.
  split; [wf_by_compute|]. split; [done|]. split.
  { intros fuel. unfold Traverse.traverse.
    enough (Traverse._traverse fuel Examples.cycle_below (VRef 0) (∅, []) = None) as ->
      by done.
    destruct fuel as [|fuel]; [done|].
    rewrite TraverseFacts._traverse_unfold. cbv zeta.
    assert (Hself : ∀ b, Traverse._traverse fuel Examples.cycle_below (VRef 1) b = None).
    { intros b. apply (TraverseFacts._traverse_unobserved_loop _ (fun l => l = 1)); [|done].
      intros l ->. split_and!; [by vm_compute..|].
      exists 1. split; [done|]. vm_compute. apply list_elem_of_here. }
    assert (Traverse.deref Examples.cycle_below 0
            = Examples.plain [("a", VRef 1)] (Some 5)) as -> by (by vm_compute).
    simpl. case_bool_decide; [set_solver|].
    unfold Traverse.descend. simpl. by rewrite Hself. }
  split_and!; by vm_compute.
Qed.

(** **** The invariant of the class *)

Lemma alloc_two {A} (m : gmap nat A) (x y : A) :
  let a1 := fresh (dom m) in
  let m1 := <[a1:=x]> m in
  let a2 := fresh (dom m1) in
  let m2 := <[a2:=y]> m1 in
  a1 ≠ a2 ∧ m2 !! a1 = Some x ∧ m2 !! a2 = Some y.
Proof.
  intros a1 m1 a2 m2.
  assert (Hne : a1 ≠ a2).
  { intros Heq. apply (is_fresh (dom m1)). fold a2. rewrite <-Heq.
    unfold m1. rewrite dom_insert_L. set_solver. }
  split; [done|]. unfold m2, m1.
  split; [by rewrite lookup_insert_ne, lookup_insert_eq|by rewrite lookup_insert_eq].
Qed.

(** After an evaluation that started with nothing pending, nothing is
    pending, the dependency list and set agree and no id is listed twice:
    reading a dep twice leaves one entry. *)
Lemma get_quiescent g s :
  wf s → quiescent s → returns s g = true →
  quiescent (get g s).2 ∧
  dependencies_consistent (get g s).2 ∧
  NoDup (Dep.id <$> dependencies (get g s).2).
Proof.
  intros Hwf [Hqi Hq] Hret.
  destruct (get_step g s Hwf Hret) as (s' & -> & _ & _ & _ & Hci & Hc & Hpi & Hp & _).
  simpl. split; [done|]. unfold dependencies_consistent.
  rewrite Hci, Hc, Hq, Hqi, app_nil_l. split; [|apply newly_added_NoDup].
  pose proof (newly_added_ids ∅ (registered s g)) as Hids.
  unfold ids_of. set_solver.
Qed.

(** Dependency pruning on the example: a watcher that read A and B and
    then reads only A unsubscribes from B and does not subscribe to A
    again. *)
Example prune_B :
  calls (get Examples.reads_A Examples.plain_watcher).2
  = [getter_call; addSub Examples.depA; addSub Examples.depB;
     getter_call; removeSub Examples.depB].
Proof. by vm_compute. Qed.

(** **** The scheduler job *)

Lemma swap_buffers_fields w :
  id (swap_buffers w) = id w ∧ deep (swap_buffers w) = deep w ∧
  user (swap_buffers w) = user w ∧ lazy (swap_buffers w) = lazy w ∧
  sync (swap_buffers w) = sync w ∧ dirty (swap_buffers w) = dirty w ∧
  active (swap_buffers w) = active w ∧ value (swap_buffers w) = value w ∧
  expression (swap_buffers w) = expression w.
Proof. done. Qed.

(** [run] on an active watcher, step by step. *)
Lemma run_step cb g s :
  wf s → active (this s) = true →
  ∃ s1,
    get g s = (get_result s g, s1) ∧ wf s1 ∧
    this s1 = (if returns s g then swap_buffers (this s) else this s) ∧
    calls s1 = calls s ++ get_calls g s ∧
    run cb g s =
      match get_result s g with
      | Exn e => (Exn e, s1)
      | Ok val =>
        if fires (this s) val
        then let s2 := at_callback val (value (this s)) s1 in
             after_callback (cb s2 val (value (this s))) s2
        else (Ok tt, s1)
      end.
Proof.
  intros Hwf Hact.
  destruct (get_step_gen g s Hwf)
    as (s1 & Hget & Hwf1 & _ & Hcalls & _ & _ & _ & _ & _ & _ & Hcase).
  assert (Hthis : this s1 = if returns s g then swap_buffers (this s) else this s).
  { destruct (returns s g); by destruct Hcase as (? & _). }
  exists s1. split_and!; try done.
  unfold run. unfold bind at 1, getThis at 1. rewrite Hact.
  unfold bind at 1. rewrite Hget.
  destruct (get_result s g) as [val|e] eqn:Hres; [|done].
  rewrite (get_result_returns s g val Hres) in Hthis.
  unfold bind at 1, getThis at 1. rewrite Hthis.
  change (value (swap_buffers (this s))) with (value (this s)).
  change (deep (swap_buffers (this s))) with (deep (this s)).
  change (user (swap_buffers (this s))) with (user (this s)).
  unfold fires. destruct (_ || _ || _); [|done].
  unfold bind at 1, setThis at 1.
  unfold at_callback, after_callback, call_cb, try_catch, bind, call, emit.
  simpl. rewrite Hthis.
  change (user (swap_buffers (this s))) with (user (this s)).
  destruct (user (this s)); destruct (cb _ _ _); try done.
  unfold getThis. simpl. by rewrite Hthis.
Qed.

Lemma SFeqb_refl x : x ≠ S754_nan → SFeqb x x = true.
Proof.
  intros Hx. unfold SFeqb. destruct x as [sg|sg| |sg m e]; simpl; try done.
  - by destruct sg.
  - rewrite Z.compare_refl, Pos.compare_cont_refl. by destruct sg.
Qed.

Lemma strict_equals_refl v : v ≠ NaN → strict_equals v v = true.
Proof.
  intros Hv. destruct v; simpl; try done.
  - by destruct b.
  - apply SFeqb_refl. by intros ->.
  - by apply String.eqb_refl.
  - by apply Nat.eqb_refl.
  - by apply Nat.eqb_refl.
Qed.

Lemma cb_call_not_in_get_calls g s val oldVal : cb_call val oldVal ∉ get_calls g s.
Proof.
  unfold get_calls, getter_report.
  rewrite !elem_of_app, !list_elem_of_fmap.
  intros [Hc|[Hc|[Hc|[Hc|Hc]]]].
  - by apply list_elem_of_singleton in Hc.
  - by destruct Hc as (? & [=] & _).
  - destruct (outcome g); [by apply elem_of_nil in Hc|].
    destruct (user _); [by apply list_elem_of_singleton in Hc | by apply elem_of_nil in Hc].
  - destruct (deep _); [|by apply elem_of_nil in Hc].
    apply elem_of_cons in Hc as [?|Hc]; [done|].
    by apply list_elem_of_fmap in Hc as (? & [=] & _).
  - destruct (returns s g); [|by apply elem_of_nil in Hc].
    by apply list_elem_of_fmap in Hc as (? & [=] & _).
Qed.

(** C4, as the code has it.  For an active watcher whose [get] yields a
    value [val] (the evaluator returned it, or threw with [user] set and
    [val] is [undefined]), [run] calls the callback, once and with
    [(val, lastValue)], if and only if [val !== lastValue], or [val] is an
    object or array, or [deep] is set; [!==] is strict inequality, under
    which [NaN] differs from itself.  In particular a watcher that is not
    deep and whose evaluator returns again the primitive value it holds,
    that value not being [NaN], does not call the callback; and one whose
    evaluator returns an object or array calls it every time, whatever
    value it holds. *)
Theorem run_fires_iff (cb : Callback) (g : Evaluation) (s : State) (val : JsVal) :
  wf s → active (this s) = true → get_result s g = Ok val →
  ∃ r s' after,
    run cb g s = (r, s') ∧
    calls s' = calls s ++ get_calls g s ++ after ∧
    (∀ v o, cb_call v o ∉ get_calls g s) ∧
    (cb_call val (value (this s)) ∈ after ↔
       strict_not_equals val (value (this s)) = true ∨
       isObject val = true ∨ deep (this s) = true) ∧
    (∀ v o, cb_call v o ∈ after → v = val ∧ o = value (this s)) ∧
    length (callbacks after) ≤ 1 ∧
    (deep (this s) = false → is_primitive val = true → val ≠ NaN →
     value (this s) = val → after = []) ∧
    (isObject val = true → cb_call val (value (this s)) ∈ after).
Proof.
  intros Hwf Hact Hres.
  destruct (run_step cb g s Hwf Hact) as (s1 & _ & _ & Hthis & Hcalls & Hrun).
  rewrite Hres in Hrun. rewrite (get_result_returns s g val Hres) in Hthis.
  assert (Hfires : fires (this s) val = true ↔
            strict_not_equals val (value (this s)) = true ∨
            isObject val = true ∨ deep (this s) = true).
  { unfold fires. rewrite !orb_true_iff. tauto. }
  set (old := value (this s)) in *.
  destruct (fires (this s) val) eqn:Hf.
  - set (s2 := at_callback val old s1) in *.
    assert (Hcalls2 : calls s2 = calls s ++ get_calls g s ++ [cb_call val old]).
    { unfold s2, at_callback. simpl. by rewrite Hcalls, <-app_assoc. }
    assert (Huser : user (this s2) = user (this s)) by (simpl; by rewrite Hthis).
    unfold after_callback in Hrun. rewrite Huser in Hrun.
    destruct (cb s2 val old) as [e|] eqn:Hcb; [destruct (user (this s)) eqn:Hu|].
    + eexists _, _, [cb_call val old; handleError e _].
      split; [exact Hrun|]. split.
      { change (calls (emit ?c s2)) with (calls s2 ++ c).
        rewrite Hcalls2, <-!app_assoc. reflexivity. }
      split; [intros; apply cb_call_not_in_get_calls|].
      split; [split; [by intros _; apply Hfires | intros _; by left]|].
      split. { intros v o [[= -> ->]|[?|?%elem_of_nil]%elem_of_cons]%elem_of_cons; done. }
      split; [simpl; lia|].
      split; [|intros; by left].
      intros Hd Hp Hn Hv. exfalso.
      destruct (proj1 Hfires eq_refl) as [Hf'|[Hf'|Hf']].
      * unfold strict_not_equals in Hf'. rewrite Hv in Hf'.
        by rewrite strict_equals_refl in Hf'.
      * by destruct val.
      * congruence.
    + eexists _, _, [cb_call val old].
      split; [exact Hrun|]. split; [by rewrite Hcalls2|].
      split; [intros; apply cb_call_not_in_get_calls|].
      split; [split; [by intros _; apply Hfires | intros _; by left]|].
      split. { intros v o [[= -> ->]|?%elem_of_nil]%elem_of_cons; done. }
      split; [simpl; lia|].
      split; [|intros; by left].
      intros Hd Hp Hn Hv. exfalso.
      destruct (proj1 Hfires eq_refl) as [Hf'|[Hf'|Hf']].
      * unfold strict_not_equals in Hf'. rewrite Hv in Hf'.
        by rewrite strict_equals_refl in Hf'.
      * by destruct val.
      * congruence.
    + eexists _, _, [cb_call val old].
      split; [exact Hrun|]. split; [by rewrite Hcalls2|].
      split; [intros; apply cb_call_not_in_get_calls|].
      split; [split; [by intros _; apply Hfires | intros _; by left]|].
      split. { intros v o [[= -> ->]|?%elem_of_nil]%elem_of_cons; done. }
      split; [simpl; lia|].
      split; [|intros; by left].
      intros Hd Hp Hn Hv. exfalso.
      destruct (proj1 Hfires eq_refl) as [Hf'|[Hf'|Hf']].
      * unfold strict_not_equals in Hf'. rewrite Hv in Hf'.
        by rewrite strict_equals_refl in Hf'.
      * by destruct val.
      * congruence.
  - eexists _, _, []. split; [exact Hrun|].
    split; [by rewrite app_nil_r|].
    split; [intros; apply cb_call_not_in_get_calls|].
    split. { split; [by intros ?%elem_of_nil|]. intros H%Hfires. done. }
    split; [by intros ?? ?%elem_of_nil|]. split; [simpl; lia|].
    split; [done|]. intros Ho. exfalso.
    enough (false = true) by done. apply Hfires. auto.
Qed.

Lemma run_fires_iff_witness :
  ∃ r s' after,
    run Examples.cb_returns Examples.reads_A Examples.plain_watcher = (r, s') ∧
    calls s' = calls Examples.plain_watcher
               ++ get_calls Examples.reads_A Examples.plain_watcher ++ after ∧
    after = [].
Proof.
  destruct (run_fires_iff Examples.cb_returns Examples.reads_A
              Examples.plain_watcher Examples.one)
    as (r & s' & after & Hrun & Hcalls & _ & _ & _ & _ & Hsame & _);
    [wf_by_compute | by vm_compute | by vm_compute |].
  exists r, s', after. split; [exact Hrun|]. split; [exact Hcalls|].
  apply Hsame; [by vm_compute | by vm_compute | discriminate | by vm_compute].
Defined.

(** C4, as the claim has it, fails: a watcher that is neither lazy nor
    deep and whose evaluator returned the primitive value [NaN] at
    construction and returns [NaN] again calls the callback, since
    [NaN !== NaN]. *)
Lemma run_fires_on_unchanged_NaN :
  wf Examples.nan_watcher ∧
  active (this Examples.nan_watcher) = true ∧
  lazy (this Examples.nan_watcher) = false ∧
  deep (this Examples.nan_watcher) = false ∧
  is_primitive NaN = true ∧
  value (this Examples.nan_watcher) = NaN ∧
  outcome Examples.returns_NaN = Ok NaN ∧
  calls (run Examples.cb_returns Examples.returns_NaN Examples.nan_watcher).2
  = calls Examples.nan_watcher ++ [getter_call; cb_call NaN NaN].
Proof.
  split; [wf_by_compute|]. split_and!; by vm_compute.
Qed.

(** **** Notification *)

(** C5.  [update] looks at [lazy], then at [sync]: a lazy watcher only
    gets [dirty = true] (no call is made, nothing else changes); otherwise a
    sync watcher does what [run] does, at once; otherwise the watcher is
    handed to [queueWatcher] and nothing else happens (in particular the
    evaluator is not called). *)
Theorem update_dispatch (cb : Callback) (g : Evaluation) (s : State) :
  (lazy (this s) = true →
     update cb g s = (Ok tt, with_this (set_dirty true) s) ∧
     dirty (this (update cb g s).2) = true ∧
     calls (update cb g s).2 = calls s) ∧
  (lazy (this s) = false → sync (this s) = true →
     update cb g s = run cb g s) ∧
  (lazy (this s) = false → sync (this s) = false →
     update cb g s = (Ok tt, emit [queueWatcher] s) ∧
     this (update cb g s).2 = this s ∧
     calls (update cb g s).2 = calls s ++ [queueWatcher]).
Proof.
  unfold update, bind, getThis, setThis, call, emit.
  split_and!.
  - by intros ->.
  - by intros -> ->.
  - by intros -> ->.
Qed.

Lemma update_dispatch_witness :
  dirty (this (update Examples.cb_returns Examples.reads_A Examples.lazy_watcher).2) = true ∧
  update Examples.cb_returns Examples.reads_A Examples.sync_watcher
  = run Examples.cb_returns Examples.reads_A Examples.sync_watcher ∧
  calls (update Examples.cb_returns Examples.reads_A Examples.plain_watcher).2
  = calls Examples.plain_watcher ++ [queueWatcher].
Proof.
  split_and!.
  - apply (update_dispatch Examples.cb_returns Examples.reads_A Examples.lazy_watcher).
    by vm_compute.
  - apply (update_dispatch Examples.cb_returns Examples.reads_A Examples.sync_watcher);
      by vm_compute.
  - apply (update_dispatch Examples.cb_returns Examples.reads_A Examples.plain_watcher);
      by vm_compute.
Defined.

(** **** The order of store and callback *)

(** C9.  When [run] fires, the callback is called in a state in which
    [this.value] is already the new value (so a callback that compares the
    watcher's value with its first argument finds them equal), and the
    value stays stored whatever the callback does: if it returns; if it
    throws and [user] is set, in which case the error goes to
    [handleError] and [run] returns; and if it throws and [user] is not
    set, in which case [run] throws. *)
Theorem run_stores_before_callback
    (cb : Callback) (g : Evaluation) (s : State) (val : JsVal) :
  wf s → active (this s) = true →
  get_result s g = Ok val → fires (this s) val = true →
  ∃ s1,
    get g s = (Ok val, s1) ∧
    let old := value (this s) in
    let s2 := at_callback val old s1 in
    value (this s1) = old ∧
    value (this s2) = val ∧
    calls s2 = calls s1 ++ [cb_call val old] ∧
    run cb g s = after_callback (cb s2 val old) s2 ∧
    (val ≠ NaN → Examples.cb_checks_value s2 val old = None) ∧
    value (this (run cb g s).2) = val ∧
    (cb s2 val old = None → run cb g s = (Ok tt, s2)) ∧
    (∀ e, cb s2 val old = Some e → user (this s) = true →
       (run cb g s).1 = Ok tt ∧
       calls (run cb g s).2
       = calls s2 ++ [handleError e ("callback for watcher "
                                     +:+ quoted (expression (this s)))]) ∧
    (∀ e, cb s2 val old = Some e → user (this s) = false →
       run cb g s = (Exn e, s2)).
Proof.
  intros Hwf Hact Hres Hf.
  destruct (run_step cb g s Hwf Hact) as (s1 & Hget & _ & Hthis & Hcalls & Hrun).
  rewrite Hres in Hget, Hrun. rewrite Hf in Hrun.
  rewrite (get_result_returns s g val Hres) in Hthis.
  exists s1. split; [done|]. intros old s2.
  assert (Hval : value (this s2) = val) by done.
  assert (Huser : user (this s2) = user (this s)) by (simpl; by rewrite Hthis).
  assert (Hexpr : expression (this s2) = expression (this s))
    by (simpl; by rewrite Hthis).
  split; [by rewrite Hthis|]. split; [done|]. split; [done|]. split; [done|].
  split.
  { intros Hn. unfold Examples.cb_checks_value. rewrite Hval.
    by rewrite strict_equals_refl. }
  rewrite Hrun. unfold after_callback. fold old s2. rewrite Huser, Hexpr.
  destruct (cb s2 val old) as [e|]; [destruct (user (this s))|];
    split_and!; try done; by intros ? [= ->].
Qed.

Lemma run_stores_before_callback_witness :
  ∃ s1,
    get Examples.reads_A_throws Examples.user_deep_watcher = (Ok VUndefined, s1) ∧
    value (this (run Examples.cb_throws Examples.reads_A_throws
                   Examples.user_deep_watcher).2) = VUndefined.
Proof.
  destruct (run_stores_before_callback Examples.cb_throws Examples.reads_A_throws
              Examples.user_deep_watcher VUndefined)
    as (s1 & Hget & _ & _ & _ & _ & _ & Hval & _);
    [wf_by_compute | by vm_compute | by vm_compute | by vm_compute |].
  exists s1. split; [exact Hget | exact Hval].
Defined.

(** **** Lazy evaluation and errors *)

(** C10.  When the evaluator throws during [evaluate]: if [user] is not
    set, [evaluate] throws the same exception and neither assignment is
    made, [this.value] and [this.dirty] are what they were (a dirty watcher
    stays dirty); if [user] is set, [evaluate] returns, [this.value] is
    [undefined] and [this.dirty] is [false]. *)
Theorem evaluate_on_error (g : Evaluation) (s : State) (e : JsVal) :
  wf s → outcome g = Exn e →
  ∃ r s',
    evaluate g s = (r, s') ∧
    (user (this s) = false →
       r = Exn e ∧
       value (this s') = value (this s) ∧
       dirty (this s') = dirty (this s) ∧
       (dirty (this s) = true → dirty (this s') = true)) ∧
    (user (this s) = true →
       r = Ok tt ∧
       value (this s') = VUndefined ∧
       dirty (this s') = false).
Proof.
  intros Hwf He.
  destruct (get_step g s Hwf (returns_exn s g e He)) as (s1 & Hget & _ & Hthis & _).
  unfold evaluate, bind. rewrite Hget. unfold get_result. rewrite He.
  destruct (user (this s)).
  - eexists _, _. split; [reflexivity|]. split; [done|]. done.
  - exists (Exn e), s1. split; [done|]. split; [|done]. intros _.
    rewrite Hthis. by split_and!.
Qed.

Lemma evaluate_on_error_witness :
  ∃ r s',
    evaluate Examples.reads_A_throws Examples.lazy_watcher = (r, s') ∧
    r = Exn (VStr "boom") ∧ dirty (this s') = true.
Proof.
  destruct (evaluate_on_error Examples.reads_A_throws Examples.lazy_watcher
              (VStr "boom"))
    as (r & s' & Hev & Hplain & _); [wf_by_compute | by vm_compute |].
  destruct Hplain as (Hr & _ & _ & Hd); [by vm_compute|].
  exists r, s'. split; [exact Hev|]. split; [exact Hr|].
  apply Hd. by vm_compute.
Defined.

(** **** Teardown *)

Lemma filter_all_true (l : list Dep.t) : filter (fun _ => Is_true true) l = l.
Proof.
  induction l as [|d l IH]; [done|].
  rewrite filter_cons_True by done. by rewrite IH.
Qed.

Lemma callbacks_none l : (∀ v o, cb_call v o ∉ l) → callbacks l = [].
Proof.
  unfold callbacks. induction l as [|c l IH]; intros Hl; [done|].
  rewrite filter_cons. destruct c; simpl;
    try (apply IH; intros v o ?; apply (Hl v o); by right).
  exfalso. eapply Hl. by left.
Qed.

Lemma callbacks_app l1 l2 : callbacks (l1 ++ l2) = callbacks l1 ++ callbacks l2.
Proof. apply filter_app. Qed.

Lemma callbacks_fmap (c : Dep.t → Call) (ds : list Dep.t) :
  (∀ d, is_cb_call (c d) = false) → callbacks (c <$> ds) = [].
Proof.
  intros Hc. apply callbacks_none. intros v o (d & Heq & _)%list_elem_of_fmap.
  specialize (Hc d). rewrite <-Heq in Hc. done.
Qed.

(** The loop of [depend] and of [teardown]: one call for each dep of
    [this.deps], from the last to the first. *)
Lemma deps_loop_all (c : Dep.t → Call) s :
  while_dec (length (dependencies s)) (fun i =>
    let* w := getThis in
    let* ds := readArray (deps w) in
    match ds !! i with
    | Some dep => call (c dep)
    | None => ret tt
    end) s
  = (Ok tt, emit (c <$> reverse (dependencies s)) s).
Proof.
  rewrite (deps_loop c (fun _ _ => true)).
  - by rewrite filter_all_true.
  - intros i s0. unfold bind, getThis, readArray, call, ret, emit.
    fold (dependencies s0). by destruct (dependencies s0 !! i).
  - done.
Qed.

Lemma depend_step s :
  depend s = (Ok tt, emit (dep_depend <$> reverse (dependencies s)) s).
Proof.
  unfold depend. unfold bind at 1, getThis at 1. unfold bind at 1, readArray at 1.
  fold (dependencies s). by rewrite deps_loop_all.
Qed.

Lemma teardown_step s :
  active (this s) = true →
  teardown s =
    (Ok tt,
     with_this (set_active false)
       (emit (removeSub <$> reverse (dependencies s))
          (if _isBeingDestroyed s then s
           else with_vm (_watcher s) (remove (_watchers s) (id (this s))) s))).
Proof.
  intros Hact. unfold teardown. unfold bind at 1, getThis at 1. rewrite Hact.
  unfold bind at 1.
  destruct (_isBeingDestroyed s) eqn:Hd; simpl negb; cbv iota;
    unfold bind at 1, readArray at 1; unfold bind at 1.
  - fold (dependencies s). by rewrite deps_loop_all.
  - change (default [] (arrays _ !! deps (this s)))
      with (dependencies
              (with_vm (_watcher s) (remove (_watchers s) (id (this s))) s)).
    by rewrite deps_loop_all.
Qed.

Lemma teardown_inactive s : active (this s) = false → teardown s = (Ok tt, s).
Proof. intros H. unfold teardown, bind, getThis. by rewrite H. Qed.

Lemma run_inactive cb g s : active (this s) = false → run cb g s = (Ok tt, s).
Proof. intros H. unfold run, bind, getThis. by rewrite H. Qed.

(** Every method keeps the containers in place. *)
Lemma exec_wf o s : wf s → wf (exec o s).
Proof.
  intros Hwf. destruct o as [g|d| |cb g|cb g|g| |]; simpl.
  - by destruct (get_any g s Hwf) as (s' & -> & ? & _).
  - by destruct (addDep_step d s Hwf) as (s' & -> & ? & _).
  - by destruct (cleanupDeps_step s Hwf) as (s' & -> & ? & _).
  - unfold update, bind, getThis. destruct (lazy (this s)); [done|].
    destruct (sync (this s)); [|done].
    destruct (active (this s)) eqn:Hact; [|by rewrite run_inactive].
    destruct (run_step cb g s Hwf Hact) as (s1 & _ & Hwf1 & _ & _ & ->).
    destruct (get_result _ _); [|done]. destruct (fires _ _); [|done].
    unfold after_callback. destruct (cb _ _ _); [|done]. by destruct (user _).
  - destruct (active (this s)) eqn:Hact; [|by rewrite run_inactive].
    destruct (run_step cb g s Hwf Hact) as (s1 & _ & Hwf1 & _ & _ & ->).
    destruct (get_result _ _); [|done]. destruct (fires _ _); [|done].
    unfold after_callback. destruct (cb _ _ _); [|done]. by destruct (user _).
  - destruct (get_any g s Hwf) as (s' & Hget & ? & _).
    unfold evaluate, bind. rewrite Hget. by destruct (get_result _ _).
  - by rewrite depend_step.
  - destruct (active (this s)) eqn:Hact; [|by rewrite teardown_inactive].
    rewrite teardown_step by done. simpl. by destruct (_isBeingDestroyed s).
Qed.

(** A torn-down watcher stays so, and its callback is not called again,
    whatever method is called on it. *)
Lemma exec_inactive o s :
  wf s → active (this s) = false →
  wf (exec o s) ∧ active (this (exec o s)) = false ∧
  callbacks (calls (exec o s)) = callbacks (calls s).
Proof.
  intros Hwf Hact. destruct o as [g|d| |cb g|cb g|g| |]; simpl.
  - destruct (get_any g s Hwf) as (s' & -> & ? & Hc & Hthis & _).
    simpl. rewrite Hthis, Hc, callbacks_app.
    rewrite (callbacks_none (get_calls g s)) by apply cb_call_not_in_get_calls.
    by rewrite app_nil_r.
  - destruct (addDep_step d s Hwf) as (s' & -> & ? & [Hthis _] & _ & _ & _ & _ & Hc).
    simpl. rewrite Hthis, Hc, callbacks_app, callbacks_fmap by done.
    by rewrite app_nil_r.
  - destruct (cleanupDeps_step s Hwf) as (s' & -> & ? & Hthis & _ & _ & _ & _ & _ & Hc).
    simpl. rewrite Hthis, Hc, callbacks_app, callbacks_fmap by done.
    by rewrite app_nil_r.
  - unfold update, bind, getThis. destruct (lazy (this s)); [done|].
    destruct (sync (this s)); [by rewrite run_inactive|].
    simpl. rewrite callbacks_app. simpl. by rewrite app_nil_r.
  - by rewrite run_inactive.
  - destruct (get_any g s Hwf) as (s' & Hget & Hwf' & Hc & Hthis & _).
    unfold evaluate, bind. rewrite Hget.
    destruct (get_result s g); simpl.
    + rewrite Hthis, Hc, callbacks_app.
      rewrite (callbacks_none (get_calls g s)) by apply cb_call_not_in_get_calls.
      by rewrite app_nil_r.
    + rewrite Hthis, Hc, callbacks_app.
      rewrite (callbacks_none (get_calls g s)) by apply cb_call_not_in_get_calls.
      by rewrite app_nil_r.
  - rewrite depend_step. simpl.
    rewrite callbacks_app, callbacks_fmap by done. by rewrite app_nil_r.
  - by rewrite teardown_inactive.
Qed.

Lemma exec_all_inactive ops s :
  wf s → active (this s) = false →
  wf (exec_all ops s) ∧ active (this (exec_all ops s)) = false ∧
  callbacks (calls (exec_all ops s)) = callbacks (calls s).
Proof.
  revert s. induction ops as [|o ops IH]; intros s Hwf Hact; [done|].
  destruct (exec_inactive o s Hwf Hact) as (Hwf' & Hact' & Hc').
  destruct (IH _ Hwf' Hact') as (? & ? & Hc). simpl.
  split_and!; try done. by rewrite Hc.
Qed.

(** C6, as amended.  The first [teardown] of a watcher calls [removeSub]
    on every dep of its dependency list, makes no other call, and leaves
    [active] false.  From then on [teardown] and [run] change nothing and
    make no call, [update] does not call the callback (it is [run], or only
    sets [dirty], or only enqueues), and after any sequence of calls of the
    watcher's methods [active] is still false and the callback has not
    been called.  The methods that do not look at [active] go on as
    before: [get] and [evaluate] run the evaluator and make the calls of
    an evaluation, [depend] calls [dep.depend()] on every dep of the
    dependency list, which [teardown] has not emptied, and [update] sets
    [dirty] on a lazy watcher and enqueues one that is neither lazy nor
    sync. *)
Theorem teardown_final (s : State) :
  wf s → active (this s) = true →
  ∃ s',
    teardown s = (Ok tt, s') ∧
    calls s' = calls s ++ (removeSub <$> reverse (dependencies s)) ∧
    (∀ d, d ∈ dependencies s → removeSub d ∈ (removeSub <$> reverse (dependencies s))) ∧
    active (this s') = false ∧
    teardown s' = (Ok tt, s') ∧
    (teardown >> teardown) s = teardown s ∧
    (∀ cb g, run cb g s' = (Ok tt, s')) ∧
    (∀ cb g, (update cb g s').1 = Ok tt ∧
             callbacks (calls (update cb g s').2) = callbacks (calls s') ∧
             (sync (this s') = true → lazy (this s') = false →
              update cb g s' = (Ok tt, s'))) ∧
    (∀ ops, active (this (exec_all ops s')) = false ∧
            callbacks (calls (exec_all ops s')) = callbacks (calls s')) ∧
    (∀ g, calls (get g s').2 = calls s' ++ get_calls g s' ∧
          calls (evaluate g s').2 = calls s' ++ get_calls g s' ∧
          getter_call ∈ get_calls g s') ∧
    dependencies s' = dependencies s ∧
    calls (depend s').2 = calls s' ++ (dep_depend <$> reverse (dependencies s)) ∧
    (∀ cb g, lazy (this s') = true →
             update cb g s' = (Ok tt, with_this (set_dirty true) s')) ∧
    (∀ cb g, lazy (this s') = false → sync (this s') = false →
             update cb g s' = (Ok tt, emit [queueWatcher] s')).
Proof.
  intros Hwf Hact. rewrite (teardown_step s Hact).
  set (s' := with_this _ _).
  assert (Hwf' : wf s') by (unfold s'; by destruct (_isBeingDestroyed s)).
  assert (Hact' : active (this s') = false) by done.
  assert (Hdeps : dependencies s' = dependencies s)
    by (unfold s'; by destruct (_isBeingDestroyed s)).
  exists s'. split_and!; try done.
  - unfold s'. by destruct (_isBeingDestroyed s).
  - intros d Hd. apply list_elem_of_fmap. exists d. by rewrite elem_of_reverse.
  - unfold bind. rewrite (teardown_step s Hact). fold s'.
    by apply teardown_inactive.
  - intros cb g. unfold update, bind, getThis.
    destruct (lazy (this s')); [done|].
    destruct (sync (this s')); [by rewrite run_inactive|].
    simpl. rewrite callbacks_app. simpl. by rewrite app_nil_r.
  - intros ops. by destruct (exec_all_inactive ops s' Hwf' Hact') as (_ & ? & ?).
  - intros g. destruct (get_any g s' Hwf') as (s1 & Hget & _ & Hcalls & _).
    split; [by rewrite Hget|].
    split; [|apply elem_of_app; left; apply list_elem_of_here].
    unfold evaluate, bind. rewrite Hget. by destruct (get_result s' g).
  - rewrite depend_step. simpl. by rewrite Hdeps.
  - intros cb g Hlazy. unfold update, bind, getThis, setThis. by rewrite Hlazy.
  - intros cb g Hlazy Hsync. unfold update, bind, getThis, call, emit.
    by rewrite Hlazy, Hsync.
Qed.

Lemma teardown_final_witness :
  ∃ s',
    teardown Examples.plain_watcher = (Ok tt, s') ∧
    calls s' = calls Examples.plain_watcher
               ++ [removeSub Examples.depB; removeSub Examples.depA] ∧
    active (this s') = false.
Proof.
  destruct (teardown_final Examples.plain_watcher)
    as (s' & Htd & Hcalls & _ & Hact & _); [wf_by_compute | by vm_compute |].
  exists s'. split; [exact Htd|]. split; [|exact Hact].
  rewrite Hcalls. by vm_compute.
Defined.

(** C6, as the claim has it, fails: [evaluate] on a torn-down watcher is
    not a no-op.  The watcher that held A and B is torn down; an
    evaluation that reads C then runs the evaluator, subscribes to C,
    calls [removeSub] on B and A once more, and leaves C as the only
    dependency; and [update], the watcher being neither lazy nor sync,
    hands it to the scheduler. *)
Lemma evaluate_after_teardown_subscribes :
  active (this (teardown Examples.plain_watcher).2) = false ∧
  (evaluate Examples.reads_C (teardown Examples.plain_watcher).2).2
  ≠ (teardown Examples.plain_watcher).2 ∧
  (evaluate Examples.reads_C (teardown Examples.plain_watcher).2).1 = Ok tt ∧
  calls (evaluate Examples.reads_C (teardown Examples.plain_watcher).2).2
  = calls (teardown Examples.plain_watcher).2
    ++ [getter_call; addSub Examples.depC;
        removeSub Examples.depB; removeSub Examples.depA] ∧
  dependencies (teardown Examples.plain_watcher).2 = [Examples.depA; Examples.depB] ∧
  dependencies (evaluate Examples.reads_C (teardown Examples.plain_watcher).2).2
  = [Examples.depC] ∧
  calls (update (fun _ _ _ => None) Examples.reads_C
           (teardown Examples.plain_watcher).2).2
  = calls (teardown Examples.plain_watcher).2 ++ [queueWatcher].
Proof.
  split_and!; by vm_compute.
Qed.

End WatchFacts.

(* ===================================================================== *)
(** ** Further properties of the watcher *)
(* ===================================================================== *)

Module WatchMore.
Import Watch WatchFacts.
Local Open Scope js_scope.

(** **** Construction *)

(** The state in which the constructor decides between [undefined] and
    the first [get]: lines 52-92 have run. *)
Lemma constructor_step host expOrFn options isRenderWatcher g s0 :
  ∃ sc,
    constructor host expOrFn options isRenderWatcher g s0
    = (if opt_lazy (resolved options) then setThis (set_value VUndefined)
       else let* v := get (first_run host expOrFn g) in setThis (set_value v)) sc ∧
    wf sc ∧ quiescent sc ∧
    dependencies sc = [] ∧ dependencyIds sc = ∅ ∧
    calls sc = calls s0 ++ parse_calls host expOrFn ∧
    targetStack sc = targetStack s0 ∧
    _isBeingDestroyed sc = _isBeingDestroyed s0 ∧
    uid sc = S (uid s0) ∧
    _watchers sc = _watchers s0 ++ [S (uid s0)] ∧
    _watcher sc = (if isRenderWatcher then Some (S (uid s0)) else _watcher s0) ∧
    this sc = {| id := S (uid s0);
                 deep := opt_deep (resolved options);
                 user := opt_user (resolved options);
                 lazy := opt_lazy (resolved options);
                 sync := opt_sync (resolved options);
                 dirty := opt_lazy (resolved options);
                 active := true;
                 deps := deps (this sc); newDeps := newDeps (this sc);
                 depIds := depIds (this sc); newDepIds := newDepIds (this sc);
                 value := VUndefined;
                 expression := if production host then EmptyString
                               else toString expOrFn |} ∧
    (deps (this sc) ∉ dom (arrays s0)) ∧ (newDeps (this sc) ∉ dom (arrays s0)) ∧
    (depIds (this sc) ∉ dom (sets s0)) ∧ (newDepIds (this sc) ∉ dom (sets s0)) ∧
    (∀ a, a ∈ dom (sets s0) → sets sc !! a = sets s0 !! a) ∧
    (∀ a, a ∈ dom (arrays s0) → arrays sc !! a = arrays s0 !! a) ∧
    seenObjects sc = seenObjects s0.
Proof.
  unfold constructor. unfold bind at 1.
  unfold bind at 1, newArray at 1. unfold bind at 1, setThis at 1.
  unfold bind at 1, newArray at 1. unfold bind at 1, setThis at 1.
  unfold bind at 1, newSet at 1. unfold bind at 1, setThis at 1.
  unfold bind at 1, newSet at 1. unfold bind at 1, setThis at 1.
  unfold bind at 1. simpl. fold (resolved options).
  destruct (alloc_two (arrays s0) [] []) as (Ha & Ha1 & Ha2).
  destruct (alloc_two (sets s0) (∅ : gset nat) ∅) as (Hs & Hs1 & Hs2).
  set (a1 := fresh (dom (arrays s0))) in *.
  set (a2 := fresh (dom (<[a1:=[]]> (arrays s0)))) in *.
  set (b1 := fresh (dom (sets s0))) in *.
  set (b2 := fresh (dom (<[b1:=∅]> (sets s0)))) in *.
  match goal with
  | |- context [ match ?m ?s with _ => _ end ] => set (sb := s)
  end.
  set (sc := emit (parse_calls host expOrFn) sb).
  assert (Hgetter : match expOrFn with
                    | Fn _ => ret g
                    | Path path =>
                      call (parsePath_call path) >>
                      if parsePath host path then ret g
                      else
                        (if production host then ret tt
                         else call (warn (failed_watching path))) >>
                        ret noop
                    end sb = (Ok (first_run host expOrFn g), sc)).
  { unfold sc, first_run, parse_calls. destruct expOrFn as [src|path].
    - unfold ret. by rewrite app_nil_r_emit.
    - unfold bind at 1, call at 1. destruct (parsePath host path); [done|].
      unfold bind at 1. destruct (production host); [done|].
      unfold call, ret, emit, with_calls. simpl. by rewrite <-app_assoc. }
  rewrite Hgetter. unfold bind at 1, getThis at 1.
  change (lazy (this sc)) with (opt_lazy (resolved options)).
  exists sc. split; [done|].
  pose proof (is_fresh (dom (arrays s0))) as Hf1. fold a1 in Hf1.
  pose proof (is_fresh (dom (sets s0))) as Hf3. fold b1 in Hf3.
  assert (Hf2 : a2 ∉ dom (arrays s0)).
  { intros Hin. apply (is_fresh (dom (<[a1:=[]]> (arrays s0)))). fold a2.
    apply elem_of_dom. rewrite lookup_insert_ne by done. by apply elem_of_dom. }
  assert (Hf4 : b2 ∉ dom (sets s0)).
  { intros Hin. apply (is_fresh (dom (<[b1:=∅]> (sets s0)))). fold b2.
    apply elem_of_dom. rewrite lookup_insert_ne by done. by apply elem_of_dom. }
  assert (Hwf : wf sc) by (unfold wf, sc, sb; simpl; split_and!; eauto).
  assert (Hq : quiescent sc).
  { unfold quiescent, pendingIds, pending, sc, sb; simpl. by rewrite Hs2, Ha2. }
  split; [done|]. split; [done|].
  split; [unfold dependencies, sc, sb; simpl; by rewrite Ha1|].
  split; [unfold dependencyIds, sc, sb; simpl; by rewrite Hs1|].
  do 7 (split; [reflexivity|]).
  split; [exact Hf1|].
  split; [exact Hf2|]. split; [exact Hf3|]. split; [exact Hf4|].
  split; [|split; [|reflexivity]]; intros a Hin; unfold sc, sb; simpl.
  - rewrite !lookup_insert_ne; [done| |]; by intros <-.
  - rewrite !lookup_insert_ne; [done| |]; by intros <-.
Qed.

(** **** The subscription calls of one evaluation *)

Lemma subscribed_app cs1 cs2 : subscribed (cs1 ++ cs2) = subscribed cs1 ++ subscribed cs2.
Proof. apply omap_app. Qed.

Lemma unsubscribed_app cs1 cs2 :
  unsubscribed (cs1 ++ cs2) = unsubscribed cs1 ++ unsubscribed cs2.
Proof. apply omap_app. Qed.

Lemma evaluations_app cs1 cs2 : evaluations (cs1 ++ cs2) = evaluations cs1 + evaluations cs2.
Proof. unfold evaluations. by rewrite filter_app, length_app. Qed.

Lemma subscribed_addSub ds : subscribed (addSub <$> ds) = ds.
Proof. induction ds as [|d ds IH]; [done|]. rewrite fmap_cons. simpl. by rewrite IH. Qed.

Lemma unsubscribed_removeSub ds : unsubscribed (removeSub <$> ds) = ds.
Proof. induction ds as [|d ds IH]; [done|]. rewrite fmap_cons. simpl. by rewrite IH. Qed.

Lemma subscribed_removeSub ds : subscribed (removeSub <$> ds) = [].
Proof. induction ds as [|d ds IH]; [done|]. by rewrite fmap_cons. Qed.

Lemma unsubscribed_addSub ds : unsubscribed (addSub <$> ds) = [].
Proof. induction ds as [|d ds IH]; [done|]. by rewrite fmap_cons. Qed.

Lemma evaluations_fmap (c : Dep.t → Call) ds :
  (∀ d, c d ≠ getter_call) → evaluations (c <$> ds) = 0.
Proof.
  intros Hc. unfold evaluations. induction ds as [|d ds IH]; [done|].
  rewrite fmap_cons, filter_cons_False by apply Hc. exact IH.
Qed.

Lemma getter_report_quiet w g :
  subscribed (getter_report w g) = [] ∧ unsubscribed (getter_report w g) = [] ∧
  evaluations (getter_report w g) = 0.
Proof. unfold getter_report. destruct (outcome g); [done|]. by destruct (user w). Qed.

(** The calls of one [get], seen from the deps: which are subscribed to,
    which are unsubscribed from, and how often the evaluator runs. *)
Lemma get_calls_subscribed g s :
  subscribed (get_calls g s)
  = not_among (dependencyIds s) (newly_added (pendingIds s) (registered s g)).
Proof.
  unfold get_calls, registered.
  destruct (getter_report_quiet (this s) g) as (Hr & _ & _).
  assert (Hlast : subscribed
            (if returns s g
             then removeSub <$> not_among (pendingIds s ∪ ids_of (reads g ++ touched s g))
                                  (reverse (dependencies s))
             else []) = []).
  { destruct (returns s g); [apply subscribed_removeSub|done]. }
  rewrite !subscribed_app, Hr, subscribed_addSub, Hlast.
  rewrite newly_added_app, not_among_app. simpl.
  destruct (deep (this s)) eqn:Hdeep; simpl.
  - by rewrite subscribed_addSub, app_nil_r.
  - rewrite (touched_shallow s g Hdeep). by rewrite !app_nil_r.
Qed.

Lemma get_calls_unsubscribed g s :
  unsubscribed (get_calls g s)
  = if returns s g
    then not_among (pendingIds s ∪ ids_of (registered s g)) (reverse (dependencies s))
    else [].
Proof.
  unfold get_calls.
  destruct (getter_report_quiet (this s) g) as (_ & Hr & _).
  rewrite !unsubscribed_app, Hr, unsubscribed_addSub.
  assert (Hdeep : unsubscribed
            (if deep (this s)
             then traverse (evaluated g)
                  :: (addSub <$> not_among (dependencyIds s)
                        (newly_added (pendingIds s ∪ ids_of (reads g)) (touched s g)))
             else []) = []).
  { destruct (deep (this s)); [|done]. simpl. apply unsubscribed_addSub. }
  rewrite Hdeep. simpl.
  destruct (returns s g); [apply unsubscribed_removeSub|done].
Qed.

Lemma get_calls_evaluations g s : evaluations (get_calls g s) = 1.
Proof.
  unfold get_calls.
  destruct (getter_report_quiet (this s) g) as (_ & _ & Hr).
  assert (Hlast : evaluations
            (if returns s g
             then removeSub <$> not_among (pendingIds s ∪ ids_of (registered s g))
                                  (reverse (dependencies s))
             else []) = 0).
  { destruct (returns s g); [by apply evaluations_fmap|done]. }
  rewrite !evaluations_app, Hr, Hlast, !evaluations_fmap by done.
  destruct (deep (this s)); [|done].
  unfold evaluations at 2. rewrite filter_cons_False by done.
  fold (evaluations (addSub <$>
    not_among (dependencyIds s)
      (newly_added (pendingIds s ∪ ids_of (reads g)) (touched s g)))).
  by rewrite evaluations_fmap.
Qed.

Lemma not_among_empty ds : not_among ∅ ds = ds.
Proof.
  unfold not_among. induction ds as [|d ds IH]; [done|].
  rewrite filter_cons_True by set_solver. by rewrite IH.
Qed.

(** **** What the constructor leaves *)

Lemma invariant_after_get g s :
  wf s → quiescent s → returns s g = true → invariant (get g s).2.
Proof.
  intros Hwf Hq Hret. destruct (get_quiescent g s Hwf Hq Hret) as (? & ? & ?).
  destruct (get_any g s Hwf) as (s' & Hget & ? & _). rewrite Hget in *.
  by split_and!.
Qed.

Lemma parse_calls_quiet host expOrFn :
  subscribed (parse_calls host expOrFn) = [] ∧
  unsubscribed (parse_calls host expOrFn) = [] ∧
  evaluations (parse_calls host expOrFn) = 0.
Proof.
  unfold parse_calls. destruct expOrFn as [src|path]; [done|].
  destruct (parsePath host path); [done|]. by destruct (production host).
Qed.

(** The first evaluation starts from the state the constructor has built:
    what it registers and whether its traversal returns depend on the
    options and on [seenObjects] only. *)
Lemma first_get_of host expOrFn options g s0 sc :
  this sc = {| id := S (uid s0);
               deep := opt_deep (resolved options);
               user := opt_user (resolved options);
               lazy := opt_lazy (resolved options);
               sync := opt_sync (resolved options);
               dirty := opt_lazy (resolved options);
               active := true;
               deps := deps (this sc); newDeps := newDeps (this sc);
               depIds := depIds (this sc); newDepIds := newDepIds (this sc);
               value := VUndefined;
               expression := if production host then EmptyString
                             else toString expOrFn |} →
  seenObjects sc = seenObjects s0 →
  returns sc (first_run host expOrFn g)
  = (traversal_of (opt_deep (resolved options)) (seenObjects s0)
       (first_run host expOrFn g)).2 ∧
  registered sc (first_run host expOrFn g)
  = registered_of (opt_deep (resolved options)) (seenObjects s0)
      (first_run host expOrFn g).
Proof.
  intros Hthis Hseen.
  unfold returns, registered, registered_of, touched, traversal.
  rewrite Hseen. by rewrite Hthis.
Qed.

(** Unless the traversal of the first evaluation is cut off, the
    constructor leaves the invariant, and [seenObjects] empty if it was. *)
Lemma constructor_invariant host expOrFn options isRenderWatcher g s0 :
  opt_lazy (resolved options) = true ∨
  (traversal_of (opt_deep (resolved options)) (seenObjects s0)
     (first_run host expOrFn g)).2 = true →
  invariant (constructor host expOrFn options isRenderWatcher g s0).2 ∧
  (seenObjects s0 = ∅ →
   seenObjects (constructor host expOrFn options isRenderWatcher g s0).2 = ∅).
Proof.
  intros Hok.
  destruct (constructor_step host expOrFn options isRenderWatcher g s0)
    as (sc & -> & Hwf & Hq & Hd & Hdi & _ & _ & _ & _ & _ & _ & Hthis
        & _ & _ & _ & _ & _ & _ & Hseen).
  destruct (first_get_of host expOrFn options g s0 sc Hthis Hseen) as [Hret _].
  destruct (opt_lazy (resolved options)) eqn:Hlazy.
  - assert (Hinv : invariant sc).
    { split_and!; try done.
      - unfold dependencies_consistent. by rewrite Hd, Hdi.
      - rewrite Hd. constructor. }
    split; [exact Hinv|]. intros H0. change (seenObjects sc = ∅). congruence.
  - destruct Hok as [?|Hok]; [done|]. rewrite Hok in Hret.
    pose proof (invariant_after_get _ sc Hwf Hq Hret) as Hinv.
    destruct (get_any (first_run host expOrFn g) sc Hwf)
      as (s1 & Hget & _ & _ & _ & _ & _ & _ & _ & _ & _ & _ & _ & Hseen1).
    unfold bind. rewrite Hget in *. simpl in Hinv.
    assert (Hs1 : seenObjects s0 = ∅ → seenObjects s1 = ∅).
    { intros H0. rewrite Hseen1. apply traversal_returns_seen; [congruence|done]. }
    by destruct (get_result sc _).
Qed.

Lemma plain_watcher_invariant :
  invariant Examples.plain_watcher ∧ seenObjects Examples.plain_watcher = ∅.
Proof.
  destruct (constructor_invariant Examples.host (Fn "f") None false
              Examples.reads_ABA initial) as [? Hs]; [by right|].
  split; [done|]. by apply Hs.
Qed.

(** The constructor, whatever the start state, the options and the first
    run of the evaluator: the watcher has [id = ++uid], is active, has the
    flags of the options bag (all false without one), [dirty = lazy] and
    the source text of its target as [expression] (the empty string in
    production); it is appended to [vm._watchers], and it is [vm._watcher]
    exactly when [isRenderWatcher]; its four containers are objects that
    were not in the store before.  A lazy watcher is constructed without a
    run of the evaluator.  Unless the traversal of the first evaluation is
    cut off, the invariant of the class holds and the target stack is what
    it was, also when the evaluator threw; when it is cut off, the
    constructor throws, with the watcher on the target stack, its
    dependency list empty and the deps it subscribed to pending. *)
Theorem constructor_establishes host expOrFn options isRenderWatcher g s0 :
  let r := (constructor host expOrFn options isRenderWatcher g s0).1 in
  let s' := (constructor host expOrFn options isRenderWatcher g s0).2 in
  let first := first_run host expOrFn g in
  let deep_opt := opt_deep (resolved options) in
  let cut := negb (opt_lazy (resolved options))
             && negb (traversal_of deep_opt (seenObjects s0) first).2 in
  wf s' ∧
  id (this s') = S (uid s0) ∧ uid s' = S (uid s0) ∧
  active (this s') = true ∧
  deep (this s') = deep_opt ∧
  user (this s') = opt_user (resolved options) ∧
  lazy (this s') = opt_lazy (resolved options) ∧
  sync (this s') = opt_sync (resolved options) ∧
  dirty (this s') = opt_lazy (resolved options) ∧
  expression (this s') = (if production host then EmptyString else toString expOrFn) ∧
  _watchers s' = _watchers s0 ++ [S (uid s0)] ∧
  _watcher s' = (if isRenderWatcher then Some (S (uid s0)) else _watcher s0) ∧
  (deps (this s') ∉ dom (arrays s0)) ∧ (newDeps (this s') ∉ dom (arrays s0)) ∧
  (depIds (this s') ∉ dom (sets s0)) ∧ (newDepIds (this s') ∉ dom (sets s0)) ∧
  (opt_lazy (resolved options) = true →
     r = Ok tt ∧ calls s' = calls s0 ++ parse_calls host expOrFn ∧
     value (this s') = VUndefined ∧ dependencies s' = []) ∧
  (cut = false → invariant s' ∧ targetStack s' = targetStack s0) ∧
  (cut = true →
     r = Exn RangeError ∧
     targetStack s' = S (uid s0) :: targetStack s0 ∧
     value (this s') = VUndefined ∧
     dependencies s' = [] ∧
     pending s' = newly_added ∅ (registered_of deep_opt (seenObjects s0) first) ∧
     subscribed (drop (length (calls s0)) (calls s')) = pending s').
Proof.
  intros r s' first deep_opt cut. subst r s' cut.
  destruct (constructor_step host expOrFn options isRenderWatcher g s0)
    as (sc & -> & Hwf & Hq & Hd & Hdi & Hcalls & Hts & _ & Huid & Hws & Hw & Hthis
        & Hf1 & Hf2 & Hf3 & Hf4 & _ & _ & Hseen).
  destruct (first_get_of host expOrFn options g s0 sc Hthis Hseen)
    as [Hret Hreg].
  fold first deep_opt in Hret, Hreg |- *.
  destruct (opt_lazy (resolved options)) eqn:Hlazy.
  - simpl. rewrite Hthis. simpl.
    assert (invariant sc).
    { split_and!; try done.
      - unfold dependencies_consistent. by rewrite Hd, Hdi.
      - rewrite Hd. constructor. }
    by split_and!.
  - simpl negb. rewrite andb_true_l.
    destruct (get_step_gen first sc Hwf)
      as (s1 & Hget & Hwf1 & _ & Hcalls1 & ? & ? & _ & ? & _ & _ & Hcase).
    rewrite Hret in Hcase.
    unfold bind. rewrite Hget.
    destruct ((traversal_of deep_opt (seenObjects s0) first).2) eqn:Hcut.
    + pose proof (invariant_after_get first sc Hwf Hq) as Hinv.
      rewrite Hret, Hget in Hinv. specialize (Hinv eq_refl). simpl in Hinv.
      destruct Hcase as (Hthis1 & Hts1 & _).
      rewrite Hthis in Hthis1.
      destruct (get_result sc first); simpl; rewrite ?Hthis1; simpl;
        split_and!; try done; try congruence;
        intros _; (split; [exact Hinv|congruence]).
    + destruct Hcase as (Hthis1 & Hts1 & _ & Hdeps1 & _ & Hp1).
      destruct Hq as [Hqi Hql]. rewrite Hqi, Hql, Hreg, app_nil_l in Hp1.
      assert (Hres : get_result sc first = Exn RangeError).
      { unfold get_result. destruct (outcome first) as [v|e] eqn:Ho.
        - by rewrite Hret.
        - pose proof (returns_exn sc first e Ho) as Hr. by rewrite Hret in Hr. }
      rewrite Hres. simpl. rewrite Hthis1, Hthis. simpl.
      split_and!; try done; try congruence.
      intros _. split_and!; try done.
      * rewrite Hts1, Hthis. simpl. congruence.
      * by rewrite Hdeps1.
      * unfold calls_since in Hcalls1. rewrite Hcalls1, Hcalls, <-app_assoc.
        rewrite drop_app_length, subscribed_app.
        destruct (parse_calls_quiet host expOrFn) as (-> & _).
        rewrite get_calls_subscribed, Hdi, not_among_empty, Hqi, Hreg. by rewrite Hp1.
Qed.

(** A target string that [parsePath] cannot make an evaluator of does
    not make the constructor fail: after the call of [parsePath] a warning
    is issued, unless in production, and the watcher gets the no-op
    evaluator.  The constructor returns; the watcher holds [undefined] and
    has no dependency, whatever evaluator a resolver would have built; the
    first evaluation, made unless [lazy] is set, subscribes to nothing. *)
Theorem constructor_failed_path host path options isRenderWatcher g s0 :
  parsePath host path = false →
  ∃ s',
    constructor host (Path path) options isRenderWatcher g s0 = (Ok tt, s') ∧
    calls s' = calls s0
      ++ [parsePath_call path]
      ++ (if production host then [] else [warn (failed_watching path)])
      ++ (if opt_lazy (resolved options) then []
          else getter_call
               :: (if opt_deep (resolved options) then [traverse VUndefined] else [])) ∧
    value (this s') = VUndefined ∧
    dependencies s' = [] ∧ dependencyIds s' = ∅ ∧
    invariant s' ∧
    targetStack s' = targetStack s0 ∧
    active (this s') = true.
Proof.
  intros Hparse.
  destruct (constructor_step host (Path path) options isRenderWatcher g s0)
    as (sc & -> & Hwf & Hq & Hd & Hdi & Hcalls & Hts & _ & Huid & Hws & Hw & Hthis
        & _ & _ & _ & _ & _ & _ & Hseen).
  unfold first_run, parse_calls in *. rewrite Hparse in *.
  assert (Hinv : invariant sc).
  { split_and!; try done.
    - unfold dependencies_consistent. by rewrite Hd, Hdi.
    - rewrite Hd. constructor. }
  destruct (opt_lazy (resolved options)) eqn:Hlazy.
  - eexists. split; [reflexivity|]. simpl. rewrite Hcalls, Hthis. simpl.
    split_and!; try done.
    destruct (production host); by rewrite ?app_nil_r.
  - assert (Hret : returns sc noop = true).
    { unfold returns, traversal, traversal_of. destruct (deep (this sc)); [|done].
      by rewrite (traverse_upto_non_object _ _ VUndefined). }
    assert (Htouched : touched sc noop = []).
    { unfold touched, traversal, traversal_of. destruct (deep (this sc)); [|done].
      by rewrite (traverse_upto_non_object _ _ VUndefined). }
    pose proof (invariant_after_get noop sc Hwf Hq Hret) as Hinv1.
    destruct (get_step noop sc Hwf Hret)
      as (s1 & Hget & _ & Hthis1 & (_&_&_&Hts1&_) & Hci1 & Hc1 & _ & _ & Hcalls1).
    destruct Hq as [Hqi Hql].
    unfold registered in Hci1, Hc1. rewrite Htouched in Hci1, Hc1.
    simpl in Hci1, Hc1. rewrite Hqi in Hci1. rewrite Hql in Hc1.
    unfold get_result in Hget. simpl in Hget. rewrite Hret in Hget.
    unfold bind. rewrite Hget in *. simpl in Hinv1.
    assert (Hcs : calls s1 = calls s0
              ++ [parsePath_call path]
              ++ (if production host then [] else [warn (failed_watching path)])
              ++ getter_call
                 :: (if opt_deep (resolved options) then [traverse VUndefined] else [])).
    { unfold calls_since in Hcalls1. rewrite Hcalls1, Hcalls.
      unfold get_calls, registered, getter_report. rewrite Htouched, Hret, Hd.
      simpl. rewrite Hthis. simpl.
      destruct (production host), (opt_deep (resolved options)); simpl;
        by rewrite <-?app_assoc. }
    assert (Hdi1 : dependencyIds s1 = ∅).
    { rewrite Hci1. unfold ids_of. simpl. set_solver. }
    exists (with_this (set_value VUndefined) s1).
    split; [done|]. split; [exact Hcs|]. split; [done|]. split; [exact Hc1|].
    split; [exact Hdi1|]. split; [exact Hinv1|].
    split; [change (targetStack s1 = targetStack s0); congruence|].
    change (active (this s1) = true). by rewrite Hthis1, Hthis.
Qed.

Lemma constructor_failed_path_witness :
  ∃ s',
    constructor Examples.host (Path "a-b") None false Examples.reads_ABA initial
    = (Ok tt, s') ∧
    value (this s') = VUndefined ∧
    dependencies s' = [].
Proof.
  destruct (constructor_failed_path Examples.host "a-b" None false
              Examples.reads_ABA initial)
    as (s' & Hc & _ & Hv & Hd & _); [by vm_compute|].
  by exists s'.
Defined.

(** A watcher that is not lazy is constructed with one run of the
    evaluator, from empty containers.  When the traversal of the value
    returns (as it does without [deep], and when the evaluator threw):
    however often the evaluator and the traversal read a dep, the
    dependency list holds one dep for each id read, [addSub] is called on
    exactly the deps of that list, in its order, and [removeSub] on none.
    The value is what [get] returned. *)
Theorem constructor_eager host expOrFn options isRenderWatcher g s0 :
  let first := first_run host expOrFn g in
  let read := registered_of (opt_deep (resolved options)) (seenObjects s0) first in
  opt_lazy (resolved options) = false →
  (traversal_of (opt_deep (resolved options)) (seenObjects s0) first).2 = true →
  ∃ r s' new,
    constructor host expOrFn options isRenderWatcher g s0 = (r, s') ∧
    calls s' = calls s0 ++ new ∧
    evaluations new = 1 ∧
    subscribed new = dependencies s' ∧
    unsubscribed new = [] ∧
    NoDup (Dep.id <$> dependencies s') ∧
    dependencyIds s' = ids_of read ∧
    (∀ d, d ∈ dependencies s' → d ∈ read) ∧
    (∀ v, outcome first = Ok v → r = Ok tt ∧ value (this s') = v) ∧
    (∀ e, outcome first = Exn e → opt_user (resolved options) = true →
          r = Ok tt ∧ value (this s') = VUndefined).
Proof.
  intros first read Hlazy Hreturns.
  destruct (constructor_step host expOrFn options isRenderWatcher g s0)
    as (sc & -> & Hwf & [Hqi Hq] & Hd & Hdi & Hcalls & _ & _ & _ & _ & _ & Hthis
        & _ & _ & _ & _ & _ & _ & Hseen).
  destruct (first_get_of host expOrFn options g s0 sc Hthis Hseen)
    as [Hret Hreg].
  fold first in Hret, Hreg |- *. fold read in Hreg. rewrite Hreturns in Hret.
  rewrite Hlazy.
  destruct (get_step first sc Hwf Hret)
    as (s1 & Hget & _ & Hthis1 & _ & Hci1 & Hc1 & _ & _ & Hcalls1).
  assert (Huser : user (this sc) = opt_user (resolved options)) by by rewrite Hthis.
  rewrite Hreg, Hqi, Hq in *.
  rewrite app_nil_l in Hc1. rewrite (left_id_L ∅ (∪)) in Hci1.
  destruct (parse_calls_quiet host expOrFn) as (Hps & Hpu & Hpe).
  assert (Hsub : subscribed (parse_calls host expOrFn ++ get_calls first sc)
                 = dependencies s1).
  { rewrite subscribed_app, Hps, get_calls_subscribed, Hdi, not_among_empty, Hqi, Hc1.
    by rewrite Hreg. }
  assert (Hunsub : unsubscribed (parse_calls host expOrFn ++ get_calls first sc) = []).
  { rewrite unsubscribed_app, Hpu, get_calls_unsubscribed, Hret, Hd. done. }
  assert (Hev : evaluations (parse_calls host expOrFn ++ get_calls first sc) = 1).
  { by rewrite evaluations_app, Hpe, get_calls_evaluations. }
  assert (Hin : ∀ d, d ∈ dependencies s1 → d ∈ read).
  { intros d. rewrite Hc1. by intros [? _]%newly_added_fresh. }
  unfold calls_since in Hcalls1. rewrite Hcalls, <-app_assoc in Hcalls1.
  unfold bind. rewrite Hget. unfold get_result. rewrite Huser, Hret.
  destruct (outcome first) as [v|e]; [|destruct (opt_user (resolved options))].
  - exists (Ok tt), (with_this (set_value v) s1),
      (parse_calls host expOrFn ++ get_calls first sc).
    split_and!; try done.
    + change (dependencies (with_this _ s1)) with (dependencies s1).
      rewrite Hc1. apply newly_added_NoDup.
    + by intros ? [= ->].
  - exists (Ok tt), (with_this (set_value VUndefined) s1),
      (parse_calls host expOrFn ++ get_calls first sc).
    split_and!; try done.
    change (dependencies (with_this _ s1)) with (dependencies s1).
    rewrite Hc1. apply newly_added_NoDup.
  - exists (Exn e), s1, (parse_calls host expOrFn ++ get_calls first sc).
    split_and!; try done.
    rewrite Hc1. apply newly_added_NoDup.
Qed.

Lemma constructor_eager_witness :
  ∃ r s' new,
    constructor Examples.host (Fn "f") (Examples.options true false false false) false
      Examples.returns_nested initial = (r, s') ∧
    calls s' = [] ++ new ∧
    subscribed new = dependencies s' ∧
    dependencies s' = [Examples.depA; Examples.depB; Examples.depC].
Proof.
  destruct (constructor_eager Examples.host (Fn "f")
              (Examples.options true false false false) false
              Examples.returns_nested initial eq_refl)
    as (r & s' & new & Hc & Hcalls & _ & Hsub & _); [by vm_compute|].
  exists r, s', new. split; [exact Hc|]. split; [exact Hcalls|].
  split; [exact Hsub|].
  change s' with (r, s').2. rewrite <-Hc. by vm_compute.
Defined.

(** When the first run of the evaluator throws and [user] is not set, the
    constructor throws; the watcher nevertheless stays in [vm._watchers],
    has used up its id, is active, and stays subscribed to the deps that
    were read before the exception. *)
Theorem constructor_throws host expOrFn options isRenderWatcher g s0 e :
  opt_lazy (resolved options) = false →
  opt_user (resolved options) = false →
  outcome (first_run host expOrFn g) = Exn e →
  ∃ s' new,
    constructor host expOrFn options isRenderWatcher g s0 = (Exn e, s') ∧
    _watchers s' = _watchers s0 ++ [S (uid s0)] ∧
    uid s' = S (uid s0) ∧
    active (this s') = true ∧
    value (this s') = VUndefined ∧
    calls s' = calls s0 ++ new ∧
    subscribed new = dependencies s' ∧
    unsubscribed new = [] ∧
    dependencyIds s' = ids_of (reads (first_run host expOrFn g)) ∧
    targetStack s' = targetStack s0.
Proof.
  intros Hlazy Huser He. set (first := first_run host expOrFn g) in *.
  destruct (constructor_step host expOrFn options isRenderWatcher g s0)
    as (sc & -> & Hwf & [Hqi Hq] & Hd & Hdi & Hcalls & Hts & _ & Huid & Hws & _ & Hthis
        & _).
  fold first. rewrite Hlazy.
  destruct (get_step first sc Hwf (returns_exn sc first e He))
    as (s1 & Hget & _ & Hthis1 & (_&?&_&?&?&_) & Hci1 & Hc1 & _ & _ & Hcalls1).
  unfold registered in Hci1, Hc1. rewrite (touched_exn sc first e He) in Hci1, Hc1.
  rewrite app_nil_r, Hqi in Hci1. rewrite app_nil_r, Hqi, Hq, app_nil_l in Hc1.
  rewrite (left_id_L ∅ (∪)) in Hci1.
  destruct (parse_calls_quiet host expOrFn) as (Hps & Hpu & _).
  unfold bind. rewrite Hget. unfold get_result. rewrite He, Hthis. simpl.
  rewrite Huser.
  exists s1, (parse_calls host expOrFn ++ get_calls first sc).
  split; [done|]. rewrite Hthis1, Hthis. simpl.
  unfold calls_since in Hcalls1. rewrite Hcalls, <-app_assoc in Hcalls1.
  split_and!; try done; try congruence.
  - rewrite subscribed_app, Hps, get_calls_subscribed, Hdi, not_among_empty, Hqi, Hc1.
    unfold registered. by rewrite (touched_exn sc first e He), app_nil_r.
  - rewrite unsubscribed_app, Hpu, get_calls_unsubscribed, Hd.
    by destruct (returns sc first).
Qed.

Lemma constructor_throws_witness :
  ∃ s' new,
    constructor Examples.host (Fn "f") None false Examples.reads_A_throws initial
    = (Exn (VStr "boom"), s') ∧
    _watchers s' = [1] ∧
    calls s' = [] ++ new ∧
    subscribed new = dependencies s' ∧
    dependencies s' = [Examples.depA].
Proof.
  destruct (constructor_throws Examples.host (Fn "f") None false
              Examples.reads_A_throws initial
              (VStr "boom") eq_refl eq_refl eq_refl)
    as (s' & new & Hc & Hws & _ & _ & _ & Hcalls & Hsub & _).
  exists s', new. split; [exact Hc|]. split; [exact Hws|].
  split; [exact Hcalls|]. split; [exact Hsub|].
  change s' with (Exn (A:=unit) (VStr "boom"), s').2. rewrite <-Hc. by vm_compute.
Defined.

(** **** The invariant, kept by every method *)

Lemma invariant_wf s : invariant s → wf s.
Proof. by intros [? _]. Qed.

Lemma get_kept g s :
  invariant s → seenObjects s = ∅ → returns s g = true →
  invariant (get g s).2 ∧ seenObjects (get g s).2 = ∅ ∧
  deep (this (get g s).2) = deep (this s).
Proof.
  intros (Hwf & Hq & _) Hseen Hret.
  pose proof (invariant_after_get g s Hwf Hq Hret) as Hinv.
  destruct (get_any g s Hwf)
    as (s' & Hget & _ & _ & _ & _ & _ & _ & Hdeep & _ & _ & _ & _ & Hseen').
  rewrite Hget in *. simpl in *. split_and!; try done.
  rewrite Hseen'. by apply traversal_returns_seen.
Qed.

Lemma exec_invariant o s :
  between_evaluations o = true → returning (deep (this s)) o = true →
  invariant s → seenObjects s = ∅ →
  invariant (exec o s) ∧ seenObjects (exec o s) = ∅ ∧
  deep (this (exec o s)) = deep (this s).
Proof.
  intros Ho Hreturning Hinv Hseen. pose proof Hinv as (Hwf & Hq & Hcons & Hnd).
  assert (Hret : ∀ g, (traversal_of (deep (this s)) ∅ g).2 = true →
                      returns s g = true).
  { intros g Hg. by rewrite returns_clean. }
  destruct o as [g|d| |cb g|cb g|g| |]; try done; simpl in *.
  - by apply get_kept, Hret.
  - pose proof (cleanupDeps_seen s) as Hseen'.
    destruct (cleanupDeps_step s Hwf)
      as (s' & Hrun & Hwf' & Hthis & _ & Hci & Hc & Hpi & Hp & _).
    destruct Hq as [Hqi Hql]. rewrite Hrun in *. simpl in Hseen' |- *.
    unfold invariant, quiescent, dependencies_consistent.
    rewrite Hci, Hc, Hpi, Hp, Hqi, Hql, Hthis.
    split_and!; try done; [constructor|congruence].
  - unfold update, bind, getThis. destruct (lazy (this s)); [done|].
    destruct (sync (this s)); [|done].
    destruct (active (this s)) eqn:Hact; [|by rewrite run_inactive].
    pose proof (get_kept g s Hinv Hseen (Hret g Hreturning)) as Hkept.
    destruct (run_step cb g s Hwf Hact) as (s1 & Hget & _ & _ & _ & ->).
    rewrite Hget in Hkept. simpl in Hkept.
    destruct (get_result _ _); [|done]. destruct (fires _ _); [|done].
    unfold after_callback. destruct (cb _ _ _); [|done]. by destruct (user _).
  - destruct (active (this s)) eqn:Hact; [|by rewrite run_inactive].
    pose proof (get_kept g s Hinv Hseen (Hret g Hreturning)) as Hkept.
    destruct (run_step cb g s Hwf Hact) as (s1 & Hget & _ & _ & _ & ->).
    rewrite Hget in Hkept. simpl in Hkept.
    destruct (get_result _ _); [|done]. destruct (fires _ _); [|done].
    unfold after_callback. destruct (cb _ _ _); [|done]. by destruct (user _).
  - pose proof (get_kept g s Hinv Hseen (Hret g Hreturning)) as Hkept.
    destruct (get_any g s Hwf) as (s' & Hget & _).
    unfold evaluate, bind. rewrite Hget in *. by destruct (get_result _ _).
  - by rewrite depend_step.
  - destruct (active (this s)) eqn:Hact; [|by rewrite teardown_inactive].
    rewrite teardown_step by done. simpl. by destruct (_isBeingDestroyed s).
Qed.

(** As long as no traversal is cut off, a watcher has, between any two
    calls of its methods, its four containers in place, nothing pending,
    and a dependency list that holds each id of the dependency set once:
    the invariant holds after every sequence of [get], [cleanupDeps],
    [update], [run], [evaluate], [depend] and [teardown], whether the
    evaluator and the callback return or throw; and [seenObjects] is
    empty again. *)
Theorem invariant_kept (ops : list Op) (s : State) :
  invariant s → seenObjects s = ∅ →
  forallb between_evaluations ops = true →
  forallb (returning (deep (this s))) ops = true →
  invariant (exec_all ops s) ∧ seenObjects (exec_all ops s) = ∅.
Proof.
  revert s. induction ops as [|o ops IH]; intros s Hinv Hseen Hops Hrets; [done|].
  simpl in Hops, Hrets.
  apply andb_true_iff in Hops as [Ho Hops].
  apply andb_true_iff in Hrets as [Hr Hrets].
  destruct (exec_invariant o s Ho Hr Hinv Hseen) as (Hinv' & Hseen' & Hdeep').
  simpl. apply IH; try done. by rewrite Hdeep'.
Qed.

Lemma invariant_kept_witness :
  invariant (exec_all [op_run Examples.cb_throws Examples.reads_A;
                       op_update Examples.cb_returns Examples.reads_A_throws;
                       op_depend; op_teardown;
                       op_evaluate Examples.returns_nested]
               Examples.user_deep_watcher).
Proof.
  destruct (constructor_invariant Examples.host (Fn "f")
              (Examples.options true true false false) false
              Examples.reads_ABA initial) as [Hinv Hs]; [by right|].
  by apply (invariant_kept _ Examples.user_deep_watcher Hinv (Hs eq_refl)).
Defined.

(** **** Subscriptions follow the dependency set *)

Lemma ids_of_not_among ids ds : ids_of (not_among ids ds) = ids_of ds ∖ ids.
Proof.
  unfold ids_of, not_among. induction ds as [|d ds IH]; [set_solver|].
  rewrite filter_cons. case_decide; simpl; rewrite ?fmap_cons; simpl; set_solver.
Qed.

Lemma ids_of_reverse ds : ids_of (reverse ds) = ids_of ds.
Proof. unfold ids_of. rewrite fmap_reverse. set_solver. Qed.

Lemma NoDup_ids_not_among ids ds :
  NoDup (Dep.id <$> ds) → NoDup (Dep.id <$> not_among ids ds).
Proof.
  unfold not_among. induction ds as [|d ds IH]; [done|].
  rewrite fmap_cons. intros [Hd Hnd]%NoDup_cons. rewrite filter_cons.
  case_decide; [|by apply IH]. rewrite fmap_cons. apply NoDup_cons.
  split; [|by apply IH]. intros (d' & Hid & Hin)%list_elem_of_fmap.
  apply Hd. apply list_elem_of_fmap. exists d'. split; [done|].
  by apply list_elem_of_filter in Hin as [_ ?].
Qed.

(** One evaluation changes the subscriptions by exactly the difference
    of the dependency sets: with [D] the ids of the dependency set before
    and [N] the ids read, [addSub] is called on one dep for each id of
    [N ∖ D], [removeSub] on one dep for each id of [D ∖ N], and the
    dependency set afterwards is [N], which is [D] plus the ids subscribed
    minus the ids unsubscribed. *)
Theorem get_subscription_delta (g : Evaluation) (s : State) :
  invariant s → returns s g = true →
  ∃ r s' new,
    get g s = (r, s') ∧ calls s' = calls s ++ new ∧
    ids_of (subscribed new) = ids_of (registered s g) ∖ dependencyIds s ∧
    NoDup (Dep.id <$> subscribed new) ∧
    ids_of (unsubscribed new) = dependencyIds s ∖ ids_of (registered s g) ∧
    NoDup (Dep.id <$> unsubscribed new) ∧
    (∀ d, d ∈ unsubscribed new → d ∈ dependencies s) ∧
    dependencyIds s' = ids_of (registered s g) ∧
    dependencyIds s'
    = (dependencyIds s ∪ ids_of (subscribed new)) ∖ ids_of (unsubscribed new).
Proof.
  intros (Hwf & [Hqi Hq] & Hcons & Hnd) Hret.
  destruct (get_step g s Hwf Hret)
    as (s' & Hget & _ & _ & _ & Hci & _ & _ & _ & Hcalls).
  exists (get_result s g), s', (get_calls g s).
  rewrite get_calls_subscribed, get_calls_unsubscribed, Hret, Hqi in *.
  rewrite (left_id_L ∅ (∪)) in *.
  set (N := ids_of (registered s g)) in *.
  assert (Hadd : ids_of (not_among (dependencyIds s)
                           (newly_added ∅ (registered s g)))
                 = N ∖ dependencyIds s).
  { rewrite ids_of_not_among. f_equal. unfold N, ids_of.
    pose proof (newly_added_ids ∅ (registered s g)). set_solver. }
  assert (Hrem : ids_of (not_among N (reverse (dependencies s)))
                 = dependencyIds s ∖ N).
  { rewrite ids_of_not_among, ids_of_reverse. by rewrite Hcons. }
  split_and!; try done.
  - apply NoDup_ids_not_among, newly_added_NoDup.
  - apply NoDup_ids_not_among. by rewrite fmap_reverse, reverse_Permutation.
  - intros d [_ Hd]%list_elem_of_filter. by rewrite elem_of_reverse in Hd.
  - rewrite Hci, Hadd, Hrem. apply set_eq. intros x.
    rewrite !elem_of_difference, !elem_of_union, !elem_of_difference.
    destruct (decide (x ∈ dependencyIds s)); destruct (decide (x ∈ N)); tauto.
Qed.

Lemma get_subscription_delta_witness :
  ∃ r s' new,
    get Examples.reads_A Examples.plain_watcher = (r, s') ∧
    calls s' = calls Examples.plain_watcher ++ new ∧
    ids_of (unsubscribed new) = {[2]} ∧ ids_of (subscribed new) = ∅.
Proof.
  destruct (get_subscription_delta Examples.reads_A Examples.plain_watcher
              (proj1 plain_watcher_invariant))
    as (r & s' & new & Hget & Hcalls & Hsub & _ & Hunsub & _); [by vm_compute|].
  exists r, s', new. split; [exact Hget|]. split; [exact Hcalls|].
  split; [rewrite Hunsub | rewrite Hsub]; by vm_compute.
Defined.

Lemma not_among_all ids ds :
  (∀ d, d ∈ ds → Dep.id d ∈ ids) → not_among ids ds = [].
Proof.
  unfold not_among. induction ds as [|d ds IH]; intros Hds; [done|].
  rewrite filter_cons_False; [apply IH; intros; apply Hds; by right|].
  intros Hn. apply Hn, Hds. by left.
Qed.

(** Re-evaluating with the same ids read as before makes no
    subscription call at all: neither [addSub] nor [removeSub]. *)
Theorem get_steady_state (g : Evaluation) (s : State) :
  invariant s →
  ids_of (registered s g) = dependencyIds s →
  ∃ r s' new,
    get g s = (r, s') ∧ calls s' = calls s ++ new ∧
    subscribed new = [] ∧ unsubscribed new = [] ∧
    evaluations new = 1 ∧
    dependencyIds s' = dependencyIds s.
Proof.
  intros (Hwf & [Hqi Hq] & Hcons & Hnd) Hsame.
  destruct (get_step_gen g s Hwf)
    as (s' & Hget & _ & _ & Hcalls & _ & _ & _ & _ & _ & _ & Hcase).
  exists (get_result s g), s', (get_calls g s).
  rewrite get_calls_subscribed, get_calls_unsubscribed, Hqi in *.
  rewrite (left_id_L ∅ (∪)) in *.
  split_and!; try done.
  - apply not_among_all. intros d [Hd _]%newly_added_fresh. rewrite <-Hsame.
    unfold ids_of. apply elem_of_list_to_set, list_elem_of_fmap. by exists d.
  - destruct (returns s g); [|done].
    apply not_among_all. intros d Hd. rewrite elem_of_reverse in Hd.
    rewrite Hsame, Hcons.
    apply elem_of_list_to_set, list_elem_of_fmap. by exists d.
  - apply get_calls_evaluations.
  - destruct (returns s g).
    + by destruct Hcase as (_ & _ & -> & _).
    + by destruct Hcase as (_ & _ & -> & _).
Qed.

Lemma get_steady_state_witness :
  ∃ r s' new,
    get Examples.reads_ABA Examples.plain_watcher = (r, s') ∧
    calls s' = calls Examples.plain_watcher ++ new ∧
    subscribed new = [] ∧ unsubscribed new = [].
Proof.
  destruct (get_steady_state Examples.reads_ABA Examples.plain_watcher
              (proj1 plain_watcher_invariant))
    as (r & s' & new & Hget & Hcalls & Hsub & Hunsub & _); [by vm_compute|].
  exists r, s', new. by split_and!.
Defined.

(** **** depend *)


(** **** Lazy watchers *)

Lemma updates_lazy n cb g s :
  lazy (this s) = true →
  updates (S n) cb g s = with_this (set_dirty true) s.
Proof.
  intros Hlazy. revert s Hlazy. induction n as [|n IH]; intros s Hlazy.
  - simpl. unfold update, bind, getThis, setThis. by rewrite Hlazy.
  - change (updates (S (S n)) cb g s) with (updates (S n) cb g (update cb g s).2).
    unfold update at 1, bind, getThis, setThis. rewrite Hlazy. simpl snd.
    by rewrite IH.
Qed.

(** However often a lazy watcher is notified, the evaluator is not run
    and no call is made: the watcher is only dirty.  The [evaluate] that
    follows runs the evaluator once; when it returns (or throws with
    [user] set) the value is stored and the watcher is clean again. *)
Theorem lazy_updates_then_evaluate (n : nat) cb g' (g : Evaluation) (s : State) :
  wf s → lazy (this s) = true →
  let s1 := updates (S n) cb g' s in
  calls s1 = calls s ∧
  dirty (this s1) = true ∧
  value (this s1) = value (this s) ∧
  ∃ r s2,
    evaluate g s1 = (r, s2) ∧
    calls s2 = calls s ++ get_calls g s ∧
    evaluations (get_calls g s) = 1 ∧
    (∀ v, get_result s g = Ok v →
          r = Ok tt ∧ value (this s2) = v ∧ dirty (this s2) = false) ∧
    (∀ e, get_result s g = Exn e →
          r = Exn e ∧ value (this s2) = value (this s) ∧ dirty (this s2) = true).
Proof.
  intros Hwf Hlazy s1. unfold s1. rewrite updates_lazy by done.
  split_and!; try done.
  destruct (get_any g (with_this (set_dirty true) s) Hwf)
    as (s2 & Hget & _ & Hcalls & _ & Hval & Hdirty & _).
  unfold evaluate, bind. rewrite Hget.
  change (get_result (with_this (set_dirty true) s) g) with (get_result s g).
  change (get_calls g (with_this (set_dirty true) s)) with (get_calls g s) in Hcalls.
  destruct (get_result s g) as [v|e] eqn:Hres; eexists _, _;
    (split; [reflexivity|]); simpl; split_and!; try done;
    try apply get_calls_evaluations.
  - by intros ? [= ->].
  - intros ? [= ->]. by split_and!.
Qed.

Lemma lazy_updates_then_evaluate_witness :
  dirty (this (updates 3 Examples.cb_returns Examples.reads_A
                 Examples.lazy_watcher)) = true ∧
  ∃ r s2,
    evaluate Examples.reads_ABA
      (updates 3 Examples.cb_returns Examples.reads_A Examples.lazy_watcher)
    = (r, s2) ∧
    value (this s2) = Examples.one ∧ dirty (this s2) = false.
Proof.
  destruct (lazy_updates_then_evaluate 2 Examples.cb_returns Examples.reads_A
              Examples.reads_ABA Examples.lazy_watcher)
    as (_ & Hd & _ & r & s2 & Hev & _ & _ & Hok & _);
    [wf_by_compute | by vm_compute |].
  split; [exact Hd|]. exists r, s2. split; [exact Hev|].
  destruct (Hok Examples.one) as (_ & Hv & Hd2); [by vm_compute|]. by split.
Defined.

(** **** run and errors of the evaluator *)

(** When the evaluator throws during [run] and [user] is not set, [run]
    throws the same exception: the callback is not called (also when
    [deep] is set) and [this.value] keeps the old value; the cleanup of
    [get] has run, so the dependencies are those read before the
    exception. *)
Theorem run_evaluator_throws cb (g : Evaluation) (s : State) (e : JsVal) :
  wf s → active (this s) = true →
  user (this s) = false → outcome g = Exn e →
  ∃ s',
    run cb g s = (Exn e, s') ∧
    calls s' = calls s ++ get_calls g s ∧
    callbacks (calls s') = callbacks (calls s) ∧
    value (this s') = value (this s) ∧
    targetStack s' = targetStack s ∧
    pending s' = [] ∧
    dependencyIds s' = pendingIds s ∪ ids_of (registered s g).
Proof.
  intros Hwf Hact Huser He.
  destruct (run_step cb g s Hwf Hact) as (s1 & Hget & _ & Hthis & Hcalls & Hrun).
  rewrite (returns_exn s g e He) in Hthis.
  destruct (get_step g s Hwf (returns_exn s g e He))
    as (s1' & Hget' & _ & _ & (_&_&_&?&_) & Hci & _ & _ & Hp & _).
  rewrite Hget in Hget'. injection Hget' as <-.
  unfold get_result in Hrun. rewrite He, Huser in Hrun.
  exists s1. split_and!; try done.
  - rewrite Hcalls, callbacks_app.
    rewrite (callbacks_none (get_calls g s)) by apply cb_call_not_in_get_calls.
    by rewrite app_nil_r.
  - by rewrite Hthis.
Qed.

Lemma run_evaluator_throws_witness :
  ∃ s',
    run Examples.cb_returns Examples.reads_A_throws Examples.plain_watcher
    = (Exn (VStr "boom"), s') ∧
    value (this s') = Examples.one ∧
    callbacks (calls s') = [].
Proof.
  destruct (run_evaluator_throws Examples.cb_returns Examples.reads_A_throws
              Examples.plain_watcher (VStr "boom"))
    as (s' & Hrun & _ & Hcb & Hv & _); [wf_by_compute | by vm_compute..|].
  exists s'. split; [exact Hrun|].
  split; [rewrite Hv | rewrite Hcb]; by vm_compute.
Defined.

(** When the evaluator throws during [run] and [user] is set, the error
    goes to [handleError] and the run goes on with [undefined] as the new
    value: the callback is called with [(undefined, oldValue)] exactly
    when the old value is not [undefined] or [deep] is set, after the
    error report, and [this.value] becomes [undefined]. *)
Theorem run_user_evaluator_throws cb (g : Evaluation) (s : State) (e : JsVal) :
  wf s → active (this s) = true →
  user (this s) = true → outcome g = Exn e →
  ∃ r s' after,
    run cb g s = (r, s') ∧
    calls s' = calls s ++ get_calls g s ++ after ∧
    handleError e ("getter for watcher " +:+ quoted (expression (this s)))
      ∈ get_calls g s ∧
    (value (this s) ≠ VUndefined ∨ deep (this s) = true →
       value (this s') = VUndefined ∧
       ∃ rest, after = cb_call VUndefined (value (this s)) :: rest ∧
               callbacks rest = []) ∧
    (value (this s) = VUndefined → deep (this s) = false →
       after = [] ∧ r = Ok tt ∧ value (this s') = VUndefined).
Proof.
  intros Hwf Hact Huser He.
  destruct (run_step cb g s Hwf Hact) as (s1 & _ & _ & Hthis & Hcalls & Hrun).
  rewrite (returns_exn s g e He) in Hthis.
  unfold get_result in Hrun. rewrite He, Huser in Hrun.
  assert (Hreport : handleError e ("getter for watcher " +:+ quoted (expression (this s)))
                      ∈ get_calls g s).
  { unfold get_calls, getter_report. rewrite He, Huser.
    rewrite !elem_of_app. right; right; left. by apply list_elem_of_singleton. }
  assert (Hf : fires (this s) VUndefined = true ↔
               value (this s) ≠ VUndefined ∨ deep (this s) = true).
  { unfold fires, strict_not_equals. simpl. rewrite orb_false_r, orb_true_iff.
    destruct (value (this s)); simpl; split; intros [?|?]; auto; done. }
  destruct (fires (this s) VUndefined) eqn:Hfires.
  - set (s2 := at_callback VUndefined (value (this s)) s1) in *.
    assert (Hc2 : calls s2 = calls s ++ get_calls g s
                             ++ [cb_call VUndefined (value (this s))]).
    { unfold s2, at_callback. simpl. by rewrite Hcalls, <-app_assoc. }
    assert (Hu2 : user (this s2) = true) by (simpl; by rewrite Hthis).
    unfold after_callback in Hrun. rewrite Hu2 in Hrun.
    destruct (cb s2 VUndefined (value (this s))) as [e'|].
    + eexists _, _, [cb_call VUndefined (value (this s)); handleError e' _].
      split; [exact Hrun|]. split.
      { change (calls (emit ?c s2)) with (calls s2 ++ c).
        rewrite Hc2, <-!app_assoc. reflexivity. }
      split; [done|]. split.
      * intros _. split; [done|]. by eexists.
      * intros Hv Hd. exfalso. enough (true = false) by done.
        destruct (proj1 Hf eq_refl); congruence.
    + eexists _, _, [cb_call VUndefined (value (this s))].
      split; [exact Hrun|]. split; [done|]. split; [done|]. split.
      * intros _. split; [done|]. by eexists.
      * intros Hv Hd. exfalso. destruct (proj1 Hf eq_refl); congruence.
  - exists (Ok tt), s1, []. split; [done|]. rewrite app_nil_r.
    split; [done|]. split; [done|]. split.
    + intros H%Hf. done.
    + intros Hv _. split_and!; try done. by rewrite Hthis.
Qed.

Lemma run_user_evaluator_throws_witness :
  ∃ r s' after,
    run Examples.cb_returns Examples.reads_A_throws Examples.user_deep_watcher
    = (r, s') ∧
    value (this s') = VUndefined ∧
    ∃ rest, after = cb_call VUndefined Examples.one :: rest.
Proof.
  destruct (run_user_evaluator_throws Examples.cb_returns Examples.reads_A_throws
              Examples.user_deep_watcher (VStr "boom"))
    as (r & s' & after & Hrun & _ & _ & Hfire & _); [wf_by_compute | by vm_compute..|].
  destruct Hfire as (Hv & rest & Hafter & _); [right; by vm_compute|].
  exists r, s', after. split; [exact Hrun|]. split; [exact Hv|].
  exists rest. exact Hafter.
Defined.

(** **** Teardown, afterwards *)

(** [teardown] unsubscribes from every dep of the dependency list but
    does not empty the containers: the torn-down watcher still lists its
    deps.  As [get] does not look at [active], a later evaluation of the
    torn-down watcher calls [addSub] only on deps whose id it did not
    hold, and so does not subscribe again to the deps it was unsubscribed
    from. *)
Theorem teardown_keeps_containers (s : State) :
  invariant s → active (this s) = true →
  ∃ s' new,
    teardown s = (Ok tt, s') ∧
    calls s' = calls s ++ new ∧
    unsubscribed new = reverse (dependencies s) ∧
    subscribed new = [] ∧
    dependencies s' = dependencies s ∧
    dependencyIds s' = dependencyIds s ∧
    invariant s' ∧
    (∀ g, subscribed (get_calls g s')
          = not_among (dependencyIds s) (newly_added ∅ (registered s g))) ∧
    (∀ g, ids_of (registered s g) ⊆ dependencyIds s →
          subscribed (get_calls g s') = []).
Proof.
  intros Hinv Hact. pose proof Hinv as (Hwf & [Hqi Hq] & _).
  rewrite (teardown_step s Hact). set (s' := with_this _ _).
  assert (Hd : dependencies s' = dependencies s)
    by (unfold s'; by destruct (_isBeingDestroyed s)).
  assert (Hdi : dependencyIds s' = dependencyIds s)
    by (unfold s'; by destruct (_isBeingDestroyed s)).
  assert (Hpi : pendingIds s' = pendingIds s)
    by (unfold s'; by destruct (_isBeingDestroyed s)).
  assert (Hsub : ∀ g, subscribed (get_calls g s')
            = not_among (dependencyIds s) (newly_added ∅ (registered s g))).
  { intros g. rewrite get_calls_subscribed, Hdi, Hpi, Hqi.
    unfold s'. by destruct (_isBeingDestroyed s). }
  exists s', (removeSub <$> reverse (dependencies s)).
  split_and!; try done.
  - unfold s'. by destruct (_isBeingDestroyed s).
  - apply unsubscribed_removeSub.
  - apply subscribed_removeSub.
  - unfold s'. by destruct (_isBeingDestroyed s).
  - intros g Hsub'. rewrite Hsub. apply not_among_all.
    intros d [Hd' _]%newly_added_fresh. apply Hsub'.
    apply elem_of_list_to_set, list_elem_of_fmap. by exists d.
Qed.

Lemma teardown_keeps_containers_witness :
  ∃ s' new,
    teardown Examples.plain_watcher = (Ok tt, s') ∧
    calls s' = calls Examples.plain_watcher ++ new ∧
    unsubscribed new = [Examples.depB; Examples.depA] ∧
    dependencies s' = [Examples.depA; Examples.depB] ∧
    subscribed (get_calls Examples.reads_A s') = [].
Proof.
  destruct (teardown_keeps_containers Examples.plain_watcher
              (proj1 plain_watcher_invariant))
    as (s' & new & Htd & Hcalls & Hun & _ & Hd & _ & _ & _ & Hnone); [by vm_compute|].
  exists s', new. split; [exact Htd|]. split; [exact Hcalls|].
  split; [rewrite Hun; by vm_compute|]. split; [rewrite Hd; by vm_compute|].
  apply Hnone. apply (bool_decide_unpack _). by vm_compute.
Defined.

Lemma remove_snoc ws n : n ∉ ws → remove (ws ++ [n]) n = ws.
Proof.
  induction ws as [|w ws IH]; intros Hn; simpl.
  - by rewrite Nat.eqb_refl.
  - destruct (Nat.eqb_spec w n) as [->|_]; [set_solver|].
    rewrite IH; [done|set_solver].
Qed.

(** A watcher that is constructed and then torn down leaves
    [vm._watchers] as it was before the construction, provided its new id
    was not in the list; when the vm is being destroyed the list is left
    alone and still holds the watcher.  ([remove], of [util], takes out
    the first occurrence.) *)
Theorem constructor_teardown_registry host expOrFn options isRenderWatcher g s0 :
  S (uid s0) ∉ _watchers s0 →
  _watchers (teardown (constructor host expOrFn options isRenderWatcher g s0).2).2
  = if _isBeingDestroyed s0 then _watchers s0 ++ [S (uid s0)] else _watchers s0.
Proof.
  intros Hfresh.
  destruct (constructor_step host expOrFn options isRenderWatcher g s0)
    as (sc & Hc & Hwf & _ & _ & _ & _ & _ & Hbd & _ & Hws & _ & Hthis & _).
  set (s1 := (constructor host expOrFn options isRenderWatcher g s0).2) in *.
  assert (Hs1 : _isBeingDestroyed s1 = _isBeingDestroyed s0 ∧
                _watchers s1 = _watchers s0 ++ [S (uid s0)] ∧
                id (this s1) = S (uid s0) ∧ active (this s1) = true).
  { unfold s1. rewrite Hc. destruct (opt_lazy _).
    - simpl. rewrite Hthis. by split_and!.
    - destruct (get_step_gen (first_run host expOrFn g) sc Hwf)
        as (s2 & Hget & _ & _ & _ & _ & Hws2 & Hbd2 & _).
      destruct (get_any (first_run host expOrFn g) sc Hwf)
        as (s2' & Hget' & _ & _ & Hact2 & _ & _ & Hid2 & _).
      rewrite Hget in Hget'. injection Hget' as <-.
      rewrite Hthis in Hact2, Hid2. simpl in Hact2, Hid2.
      unfold bind. rewrite Hget.
      destruct (get_result _ _); simpl; split_and!; congruence. }
  destruct Hs1 as (Hbd1 & Hws1 & Hid & Hact).
  rewrite (teardown_step s1 Hact). rewrite Hbd1.
  destruct (_isBeingDestroyed s0); simpl; [done|].
  by rewrite Hws1, Hid, remove_snoc.
Qed.

Lemma constructor_teardown_registry_witness :
  _watchers (teardown (constructor Examples.host (Fn "f") None false
                         Examples.reads_ABA initial).2).2 = [].
Proof.
  rewrite (constructor_teardown_registry Examples.host (Fn "f") None false
             Examples.reads_ABA initial).
  - reflexivity.
  - simpl. set_solver.
Defined.

(** **** The store of the other watchers *)

Lemma others_untouched_refl s : others_untouched s s.
Proof. by split_and!. Qed.












Lemma isolated_readSet a : isolated (readSet a).
Proof. intros s. apply others_untouched_refl. Qed.















End WatchMore.

(* ===================================================================== *)
(** ** Further properties of the deep traversal *)
(* ===================================================================== *)

Module TraverseMore.
Import Traverse TraverseFacts.

(** **** What a traversal may touch *)

Lemma permitted_mono h seen seen' e :
  seen ⊆ seen' → permitted h seen' e → permitted h seen e.
Proof.
  intros Hs. destruct e as [d|l k]; simpl.
  - intros [Hd ?]. split; [set_solver|done].
  - intros (? & ? & Hd). split_and!; try done. intros d Hob. specialize (Hd d Hob).
    set_solver.
Qed.

Lemma grows_subseteq a a' : grows a a' → a.1 ⊆ a'.1.
Proof. intros (delta & _ & -> & _). set_solver. Qed.

(** The accesses of a traversal, relative to the visited set it starts
    with. *)
Lemma _traverse_permitted fuel h val a a' :
  _traverse fuel h val a = Some a' →
  ∃ delta, a'.2 = a.2 ++ delta ∧ Forall (permitted h a.1) delta.
Proof.
  assert (Hnil : ∀ b : Acc, ∃ delta, b.2 = b.2 ++ delta ∧ Forall (permitted h b.1) delta).
  { intros b. exists []. by rewrite app_nil_r. }
  revert val a a'. induction fuel as [|fuel IH]; intros val a a' Hrun; [done|].
  rewrite _traverse_unfold in Hrun.
  destruct val as [| | | | | |l]; try (injection Hrun as <-; apply Hnil).
  cbv zeta in Hrun.
  destruct (open_object (deref h l)) eqn:Hopen; [|injection Hrun as <-; apply Hnil].
  assert (Hdesc : ∀ b b',
    a.1 ⊆ b.1 →
    (∀ d, __ob__ (deref h l) = Some d → d ∉ a.1) →
    descend (_traverse fuel h) l (deref h l) b = Some b' →
    ∃ delta, b'.2 = b.2 ++ delta ∧ Forall (permitted h a.1) delta).
  { intros b b' Hab Hob. rewrite descend_unfold. intros Hloop.
    refine (proj2 (while_dec_rel (fun x y =>
             a.1 ⊆ x.1 →
             a.1 ⊆ y.1 ∧ ∃ delta, y.2 = x.2 ++ delta ∧ Forall (permitted h a.1) delta)
             _ _ b b' _ _ _ Hloop Hab)).
    - intros c Hc. split; [done|]. exists []. by rewrite app_nil_r.
    - intros c1 c2 c3 H12 H23 Hc1.
      destruct (H12 Hc1) as (Hc2 & d12 & E12 & F12).
      destruct (H23 Hc2) as (Hc3 & d23 & E23 & F23).
      split; [done|]. exists (d12 ++ d23).
      split; [by rewrite E23, E12, app_assoc | by apply Forall_app].
    - intros i c c' _. destruct (child_at _ i) as [[k v]|] eqn:Hchild.
      + intros Hc Hac. pose proof (_traverse_grows _ _ _ _ _ Hc) as Hg.
        apply grows_subseteq in Hg. simpl in Hg.
        apply IH in Hc as (drec & Erec & Frec). simpl in *.
        split; [set_solver|]. exists ([Read l k] ++ drec).
        split; [by rewrite Erec, <-app_assoc|].
        apply Forall_app. split.
        * apply Forall_singleton. simpl. split_and!; try done.
          eapply list_elem_of_lookup_2, child_at_own_keys, Hchild.
        * eapply Forall_impl; [exact Frec|]. intros e. by apply permitted_mono.
      + intros [= <-] Hac. split; [done|]. exists []. by rewrite app_nil_r. }
  destruct (__ob__ (deref h l)) as [d|] eqn:Hob.
  - case_bool_decide as Hd; [injection Hrun as <-; apply Hnil|].
    apply Hdesc in Hrun as (delta & E & F);
      [|simpl; set_solver|by intros ? [= <-]].
    exists ([SeenAdd d] ++ delta). simpl in E. split; [by rewrite E, <-app_assoc|].
    apply Forall_app. split; [|done]. apply Forall_singleton. simpl.
    split; [done|]. by exists l.
  - apply Hdesc in Hrun; [done|done|done].
Qed.

(** A traversal never reads from a frozen object, from a VNode, or from
    an object whose dep id was in the visited set when it started; what it
    reads from an object is one of the object's own keys; and every dep id
    it adds to the visited set is new there and is the id of an object
    that is neither frozen nor a VNode. *)
Theorem traverse_touches_only_open (fuel : nat) (h : Heap) (val : JsVal)
    (seenObjects seen' : gset nat) (tr : list Access) :
  traverse fuel h val seenObjects = Some (seen', tr) →
  (∀ l k, Read l k ∈ tr →
          Object_isFrozen h (VRef l) = false ∧
          instanceof_VNode h (VRef l) = false ∧
          k ∈ own_keys (deref h l) ∧
          ∀ d, __ob__ (deref h l) = Some d → d ∉ seenObjects) ∧
  (∀ d, SeenAdd d ∈ tr →
        (d ∉ seenObjects) ∧
        ∃ l, is_leaf h (VRef l) = false ∧ __ob__ (deref h l) = Some d).
Proof.
  unfold traverse. destruct (_traverse fuel h val (seenObjects, [])) as [[s t]|] eqn:Hrun;
    [|done].
  simpl. intros [= <- <-].
  apply _traverse_permitted in Hrun as (delta & E & F). simpl in E. subst t.
  rewrite Forall_forall in F. split.
  - intros l k Hin. destruct (F _ Hin) as (Hopen & Hk & Hd). simpl.
    unfold open_object in Hopen. apply andb_true_iff in Hopen as [H1 H2].
    apply negb_true_iff in H1, H2. by split_and!.
  - intros d Hin. destruct (F _ Hin) as (Hd & l & Hopen & Hob). split; [done|].
    exists l. rewrite is_leaf_ref, Hopen. done.
Qed.

Lemma traverse_touches_only_open_witness :
  traverse 3 Examples.mixed_heap (VRef 0) ∅
  = Some (∅, [SeenAdd 5; Read 0 (Name "list"); Read 1 (Idx 2);
              Read 1 (Idx 1); Read 1 (Idx 0)]) ∧
  Object_isFrozen Examples.mixed_heap (VRef 1) = false ∧
  instanceof_VNode Examples.mixed_heap (VRef 1) = false ∧
  Idx 0 ∈ own_keys (deref Examples.mixed_heap 1).
Proof.
  split; [by vm_compute|].
  destruct (traverse_touches_only_open 3 Examples.mixed_heap (VRef 0) ∅ ∅
              [SeenAdd 5; Read 0 (Name "list"); Read 1 (Idx 2);
               Read 1 (Idx 1); Read 1 (Idx 0)]) as [Hreads _]; [by vm_compute|].
  destruct (Hreads 1 (Idx 0)) as (? & ? & ? & _); [|by split_and!].
  do 4 apply list_elem_of_further. apply list_elem_of_here.
Defined.

(** **** Cycles without observation records *)

(** The traversal of an object that lies on, or leads through objects
    without observation records to, a cycle of such objects does not
    return, whatever depth it is given and whatever the visited set holds:
    only dep ids stop a traversal from entering an object again. *)
Theorem traverse_unobserved_loop (h : Heap) (C : loc → Prop) (l : loc)
    (fuel : nat) (seenObjects : gset nat) :
  unobserved_loop h C → C l →
  traverse fuel h (VRef l) seenObjects = None.
Proof.
  intros Hloop Hl. unfold traverse.
  by rewrite (TraverseFacts._traverse_unobserved_loop h C l fuel _ Hloop Hl).
Qed.

Lemma traverse_unobserved_loop_witness :
  traverse 1000 Examples.unobserved_pair (VRef 2) {[7]} = None.
Proof.
  apply (traverse_unobserved_loop _ (fun l => l = 1 ∨ l = 2)); [|by right].
  intros l [->| ->]; (split_and!; [by vm_compute|by vm_compute|]).
  - exists 2. split; [by right|]. vm_compute. apply list_elem_of_here.
  - exists 1. split; [by left|]. vm_compute. apply list_elem_of_further, list_elem_of_here.
Defined.

(** **** Every property is read *)

Lemma child_at_lt o i k v : child_at o i = Some (k, v) → i < length (children o).
Proof.
  unfold child_at, children. destruct (body o) as [elems|props].
  - destruct (elems !! i) as [x|] eqn:Hx; [|done]. intros _. by eapply lookup_lt_Some.
  - destruct (keys props !! i) as [x|] eqn:Hx; [|done]. intros _.
    rewrite length_fmap. by eapply lookup_lt_Some.
Qed.

Lemma own_keys_child_at o i k :
  own_keys o !! i = Some k → ∃ v, child_at o i = Some (k, v).
Proof.
  unfold child_at, own_keys. destruct (body o) as [elems|props].
  - rewrite list_lookup_fmap. destruct (seq 0 (length elems) !! i) as [j|] eqn:Hj; [|done].
    apply lookup_seq in Hj as [-> Hlt]. simpl. intros [= <-].
    destruct (lookup_lt_is_Some_2 elems i Hlt) as [v Hv]. exists v. by rewrite Hv.
  - rewrite list_lookup_fmap. destruct (keys props !! i) as [x|]; [|done].
    simpl. intros [= <-]. by eexists.
Qed.

Lemma explored_mono h a a' l :
  a.1 ⊆ a'.1 → (∀ e, e ∈ a.2 → e ∈ a'.2) → explored h a l → explored h a' l.
Proof.
  intros Hs Ht [Hkeys Hch]. split.
  - intros k Hk. by apply Ht, Hkeys.
  - intros l' o' d' ? ? ? ?. eapply Hs, Hch; eauto.
Qed.

Lemma grows_log a a' e : grows a a' → e ∈ a.2 → e ∈ a'.2.
Proof. intros (delta & -> & _) ?. apply elem_of_app. by left. Qed.

Section Closure.
Variable h : Heap.
Hypothesis Hdistinct : distinct_ids h.

(** The loop over the children of [l] deals with [l], and keeps dealt with
    what was. *)
Lemma descend_closes (rec : JsVal → Acc → option Acc) G l b b' :
  (∀ val a a', rec val a = Some a' →
               grows a a' ∧
               (closed_except h G a →
                closed_except h G a' ∧
                ∀ l' o' d', val = VRef l' → h !! l' = Some o' →
                            open_object o' = true → __ob__ o' = Some d' → d' ∈ a'.1)) →
  closed_except h G b →
  descend rec l (deref h l) b = Some b' →
  closed_except h G b' ∧ b.1 ⊆ b'.1 ∧ (∀ e, e ∈ b.2 → e ∈ b'.2) ∧ explored h b' l.
Proof using Type.
  clear Hdistinct. intros Hrec Hb. rewrite descend_unfold. intros Hloop.
  apply (while_dec_indexed (fun j c =>
           closed_except h G c ∧ b.1 ⊆ c.1 ∧ (∀ e, e ∈ b.2 → e ∈ c.2) ∧
           ∀ i k v, j ≤ i → child_at (deref h l) i = Some (k, v) →
                    Read l k ∈ c.2 ∧
                    ∀ l' o' d', v = VRef l' → h !! l' = Some o' →
                                open_object o' = true → __ob__ o' = Some d' →
                                d' ∈ c.1)) in Hloop.
  - destruct Hloop as (Hcl & Hs & Ht & Hall). split_and!; try done. split.
    + intros k [i Hi]%list_elem_of_lookup_1.
      destruct (own_keys_child_at _ _ _ Hi) as [v Hv].
      eapply (Hall i k v); [lia|done].
    + intros l' o' d' Hin Hl' Hopen Hob.
      destruct (children_child_at _ _ Hin) as (i & k & _ & Hat).
      eapply (Hall i k (VRef l')); eauto. lia.
  - split_and!; try done. intros i k v Hle Hat%child_at_lt. lia.
  - intros i c c' Hi (Hcl & Hs & Ht & Hall) Hbody.
    destruct (child_at (deref h l) i) as [[k v]|] eqn:Hat.
    + destruct (Hrec _ _ _ Hbody) as [Hg Hstep]. simpl in Hg.
      pose proof (grows_subseteq _ _ Hg) as Hsub. simpl in Hsub.
      assert (Hlog : ∀ e, e ∈ c.2 ++ [Read l k] → e ∈ c'.2)
        by (intros e; apply (grows_log _ _ e Hg)).
      destruct Hstep as [Hcl' Hid].
      { intros l2 o2 d2 H1 H2 H3 H4 H5. eapply explored_mono; [| |by eapply Hcl].
        - done.
        - simpl. intros e ?. apply elem_of_app. by left. }
      split_and!; try done.
      * set_solver.
      * intros e He. apply Hlog, elem_of_app. left. by apply Ht.
      * intros i' k' v' Hle Hat'. destruct (decide (i' = i)) as [->|Hne].
        -- rewrite Hat in Hat'. injection Hat' as <- <-. split.
           ++ apply Hlog, elem_of_app. right. apply list_elem_of_here.
           ++ intros l' o' d' -> ? ? ?. by eapply Hid.
        -- destruct (Hall i' k' v') as [Hread Hch]; [lia|done|]. split.
           ++ apply Hlog, elem_of_app. by left.
           ++ intros l' o' d' ? ? ? ?. eapply Hsub, Hch; eauto.
    + injection Hbody as <-. split_and!; try done.
      intros i' k' v' Hle Hat'. destruct (decide (i' = i)) as [->|Hne].
      * congruence.
      * eapply Hall; [|done]. lia.
Qed.

(** A call deals with every object it enters, and what it is called on has
    its dep id in the visited set afterwards. *)
Lemma _traverse_closes fuel val a a' G :
  closed_except h G a →
  _traverse fuel h val a = Some a' →
  closed_except h G a' ∧
  ∀ l o d, val = VRef l → h !! l = Some o → open_object o = true →
           __ob__ o = Some d → d ∈ a'.1.
Proof using Hdistinct.
  revert val a a' G. induction fuel as [|fuel IH]; intros val a a' G Hcl Hrun; [done|].
  assert (Hrec : ∀ G' val a a', _traverse fuel h val a = Some a' →
               grows a a' ∧
               (closed_except h G' a →
                closed_except h G' a' ∧
                ∀ l' o' d', val = VRef l' → h !! l' = Some o' →
                            open_object o' = true → __ob__ o' = Some d' → d' ∈ a'.1)).
  { intros G' v c c' Hc. split; [by eapply _traverse_grows|].
    intros Hcc. by eapply IH. }
  rewrite _traverse_unfold in Hrun.
  destruct val as [| | | | | |l]; try (injection Hrun as <-; by split).
  cbv zeta in Hrun.
  destruct (open_object (deref h l)) eqn:Hopen.
  2:{ injection Hrun as <-. split; [done|].
      intros l' o d [= <-] Ho Ho' _. rewrite (deref_lookup _ _ _ Ho) in Hopen. congruence. }
  destruct (__ob__ (deref h l)) as [d|] eqn:Hob.
  - case_bool_decide as Hd.
    + injection Hrun as <-. split; [done|].
      intros l' o d' [= <-] Ho _ Hob'. rewrite (deref_lookup _ _ _ Ho) in Hob. congruence.
    + apply (descend_closes _ (G ∪ {[d]})) in Hrun as (Hcl' & Hs & Ht & Hex);
        [|by apply Hrec|].
      * simpl in Hs. split.
        -- intros l2 o2 d2 H1 H2 H3 H4 H5. destruct (decide (d2 = d)) as [->|Hne].
           ++ destruct (h !! l) as [o|] eqn:Ho.
              ** rewrite (deref_lookup _ _ _ Ho) in Hob.
                 by rewrite (Hdistinct l2 l o2 o d H1 Ho H3 Hob).
              ** unfold deref in Hob. by rewrite Ho in Hob.
           ++ eapply Hcl'; eauto. set_solver.
        -- intros l' o d' [= <-] Ho _ Hob'. rewrite (deref_lookup _ _ _ Ho) in Hob.
           assert (d' = d) as -> by congruence. set_solver.
      * intros l2 o2 d2 H1 H2 H3 H4 H5. simpl in H4.
        eapply explored_mono; [| |eapply (Hcl l2 o2 d2); eauto].
        -- simpl. set_solver.
        -- simpl. intros e ?. apply elem_of_app. by left.
        -- set_solver.
        -- set_solver.
  - apply (descend_closes _ G) in Hrun as (Hcl' & _); [|by apply Hrec|done].
    split; [done|].
    intros l' o d' [= <-] Ho _ Hob'. rewrite (deref_lookup _ _ _ Ho) in Hob. congruence.
Qed.

End Closure.

Lemma observed_everywhere_acyclic h :
  observed_everywhere h →
  ∀ l o l', h !! l = Some o → open_object o = true → __ob__ o = None →
            VRef l' ∈ children o → (fun _ : loc => 0) l' < (fun _ : loc => 0) l.
Proof.
  intros Hobs l o l' Ho Hopen Hnone _. destruct (Hobs l o Ho Hopen) as [d Hd].
  congruence.
Qed.

(** Deep watching forces everything: when every object that can be
    entered carries an observation record and dep ids are distinct, the
    traversal of a value returns, and it reads every own key of every
    object the value leads to, each exactly once, however the objects
    share or refer back to each other. *)
Theorem traverse_reads_everything (h : Heap) (val : JsVal) :
  observed_everywhere h → distinct_ids h →
  ∃ fuel tr,
    (∀ fuel', fuel ≤ fuel' → traverse fuel' h val ∅ = Some (∅, tr)) ∧
    ∀ l k, reach h val l → k ∈ own_keys (deref h l) → count_of (Read l k) tr = 1.
Proof.
  intros Hobs Hdist.
  pose proof (observed_everywhere_acyclic h Hobs) as Hrank.
  set (fuel := enough_fuel (fun _ => 0) h val ∅).
  destruct (_traverse_terminates h _ Hrank fuel val (∅, []))
    as ([seen' tr] & Hrun & _); [done|].
  exists fuel, tr. split.
  { intros fuel' Hle. unfold traverse.
    by rewrite (_traverse_fuel_mono fuel fuel' _ _ _ _ Hle Hrun). }
  assert (Hempty : closed_except h ∅ (∅, [])).
  { intros l o d _ _ _ Hd. simpl in Hd. set_solver. }
  destruct (_traverse_closes h Hdist fuel val (∅, []) (seen', tr) ∅ Hempty Hrun)
    as [Hcl Hroot].
  assert (Hall : ∀ l, reach h val l →
            ∃ o d, h !! l = Some o ∧ open_object o = true ∧
                   __ob__ o = Some d ∧ d ∈ seen').
  { intros l Hreach. induction Hreach as [l o -> Ho Hopen|l l' o' _ IHr Hin Ho' Hopen'].
    - destruct (Hobs l o Ho Hopen) as [d Hd]. exists o, d. split_and!; try done.
      by apply (Hroot l o d).
    - destruct IHr as (o & d & Ho & Hopen & Hd & Hseen).
      destruct (Hobs l' o' Ho' Hopen') as [d' Hd']. exists o', d'. split_and!; try done.
      destruct (Hcl l o d Ho Hopen Hd Hseen) as [_ Hch]; [set_solver|].
      by apply (Hch l' o' d'). }
  intros l k Hreach Hk.
  destruct (Hall l Hreach) as (o & d & Ho & Hopen & Hd & Hseen).
  destruct (Hcl l o d Ho Hopen Hd Hseen) as [Hkeys _]; [set_solver|].
  specialize (Hkeys k Hk). simpl in Hkeys.
  destruct (_traverse_grows _ _ _ _ _ Hrun) as (delta & Htr & _ & Hnd & _).
  destruct (_traverse_balanced _ _ _ _ _ Hrun) as (delta' & Htr' & Hbal).
  simpl in *. subst tr. subst delta'.
  assert (count_of (Read l k) delta ≤ 1).
  { etrans; [eapply (Hbal l d k); by rewrite (deref_lookup _ _ _ Ho)|].
    rewrite count_seen_adds. by apply count_of_NoDup. }
  assert (count_of (Read l k) delta ≠ 0); [|lia].
  intros Hzero. unfold count_of in Hzero. apply nil_length_inv in Hzero.
  assert (Read l k ∈ filter (eq (Read l k)) delta) as Hin
    by (by apply list_elem_of_filter).
  rewrite Hzero in Hin. by apply not_elem_of_nil in Hin.
Qed.

Lemma traverse_reads_everything_witness :
  ∃ fuel tr,
    (∀ fuel', fuel ≤ fuel' →
              traverse fuel' Examples.cyclic_heap (VRef 0) ∅ = Some (∅, tr)) ∧
    count_of (Read 1 (Name "x")) tr = 1.
Proof.
  destruct (traverse_reads_everything Examples.cyclic_heap (VRef 0))
    as (fuel & tr & Hrun & Hreads).
  - intros l o Hl _. unfold Examples.cyclic_heap in Hl.
    apply lookup_insert_Some in Hl as [[<- <-]|[_ Hl]]; [by eexists|].
    apply lookup_singleton_Some in Hl as [<- <-]. by eexists.
  - intros l1 l2 o1 o2 d H1 H2. unfold Examples.cyclic_heap in H1, H2.
    apply lookup_insert_Some in H1 as [[<- <-]|[_ H1]];
      [|apply lookup_singleton_Some in H1 as [<- <-]];
      (apply lookup_insert_Some in H2 as [[<- <-]|[_ H2]];
       [|apply lookup_singleton_Some in H2 as [<- <-]]);
      simpl; congruence.
  - exists fuel, tr. split; [exact Hrun|].
    apply Hreads.
    + eapply (reach_child _ _ 0 1).
      * by eapply reach_root.
      * vm_compute. apply list_elem_of_here.
      * by vm_compute.
      * done.
    + vm_compute. apply list_elem_of_here.
Defined.

(** **** The visited set between traversals *)

(** Were the visited set not emptied after a traversal (line 16), the
    next traversal of the same observed object would return at once and
    read nothing: a deep watcher would collect its nested dependencies on
    its first evaluation only. *)
Theorem _traverse_again (fuel fuel' : nat) (h : Heap) (l : loc) (d : nat)
    (a a' : Acc) :
  __ob__ (deref h l) = Some d →
  _traverse fuel h (VRef l) a = Some a' →
  _traverse (S fuel') h (VRef l) a' = Some a'.
Proof.
  intros Hob Hrun. rewrite _traverse_unfold. cbv zeta.
  destruct (open_object (deref h l)) eqn:Hopen; [|done]. rewrite Hob.
  enough (d ∈ a'.1) by (by rewrite bool_decide_eq_true_2).
  destruct fuel as [|fuel]; [done|].
  rewrite _traverse_unfold in Hrun. cbv zeta in Hrun. rewrite Hopen, Hob in Hrun.
  case_bool_decide as Hd; [by injection Hrun as <-|].
  rewrite descend_unfold in Hrun.
  apply (while_dec_rel (fun x y => x.1 ⊆ y.1)) in Hrun; [simpl in Hrun; set_solver|..].
  - done.
  - intros ? ? ? ? ?. by etrans.
  - intros i b b' _. destruct (child_at _ i) as [[k v]|]; [|by intros [= <-]].
    intros Hg. apply _traverse_grows, grows_subseteq in Hg. exact Hg.
Qed.

Lemma _traverse_again_witness :
  ∃ a', _traverse 3 Examples.nested_heap (VRef 0) (∅, []) = Some a' ∧
        a'.2 ≠ [] ∧
        _traverse 3 Examples.nested_heap (VRef 0) a' = Some a'.
Proof.
  eexists. split; [by vm_compute|]. split; [done|].
  apply (_traverse_again 3 2 Examples.nested_heap 0 5 (∅, [])); by vm_compute.
Defined.

End TraverseMore.
